(** * Coverage reports and bundle analysis of chrome-devtools-mcp

    A shallow embedding of the analysis code of the two tool modules
    [src/tools/coverage.ts] and [src/tools/bundleAnalysis.ts]:
    the coverage classifier and report builder, the coverage session state
    machine, the bundle chain detector and the code-split heuristics.

    Conventions of the embedding.
    - Byte counts and offsets of coverage records are integers ([Z]);
      the arithmetic of the code on them is exact for counts below 2^53.
    - Percentages are exact rationals ([Q]).
    - The numbers of the chain detector (request times, millisecond
      timestamps, sizes read from headers) are IEEE 754 binary64 numbers,
      Rocq's primitive [float]: every product, sum and difference is
      rounded as the code rounds it, and there are infinities and NaN.
    - Strings are [string]; [toLowerCase] acts on the ASCII letters.
    - A call that may throw returns a [completion]; the tool handlers run
      in the monad [M], which threads the session, the response and the
      calls to the coverage provider and carries exceptions, with
      combinators for [try]/[catch]/[finally].
    - What the host provides (the URL parser, number formatting) is the
      class [Host]. *)

From Stdlib Require Import ZArith QArith String Ascii List Bool Lia Lqa.
From Stdlib Require Import Floats.
From Stdlib Require Import DecimalString DecimalNat.
From stdpp Require Import base decidable option list sorting gmap strings.

Import ListNotations.
Local Open Scope string_scope.
Local Open Scope list_scope.
Set Warnings "-clear-no-such-hyp".

(* ================================================================== *)
(** * JavaScript building blocks *)
(* ================================================================== *)

(** Result of evaluating a piece of code that may throw: the thrown value
    is kept as its error text. *)
Inductive completion (A : Type) : Type :=
| Normal (a : A)
| Throw (errorText : string).
Arguments Normal {A} a.
Arguments Throw {A} errorText.

#[global] Instance completion_ret : MRet completion := @Normal.
#[global] Instance completion_bind : MBind completion :=
  λ A B f m, match m with Normal a => f a | Throw e => Throw e end.

(** [try { body } catch (e) { handler(e) }] *)
Definition try_catch {A} (body : completion A) (handler : string → completion A)
  : completion A :=
  match body with
  | Normal a => Normal a
  | Throw e => handler e
  end.

(** [String.prototype.toLowerCase] on ASCII letters. *)
Definition lower_ascii (c : ascii) : ascii :=
  let n := nat_of_ascii c in
  if (65 <=? n)%nat && (n <=? 90)%nat then ascii_of_nat (n + 32) else c.

Fixpoint toLowerCase (s : string) : string :=
  match s with
  | EmptyString => EmptyString
  | String c s' => String (lower_ascii c) (toLowerCase s')
  end.

(** [s.startsWith(p)] *)
Definition startsWith (p s : string) : bool := String.prefix p s.

(** [s.includes(pattern)]: [pattern] occurs at some position of [s]. *)
Fixpoint includes (pattern s : string) : bool :=
  String.prefix pattern s ||
  match s with
  | EmptyString => false
  | String _ s' => includes pattern s'
  end.

(** [a.some(p)] *)
Definition some {A} (p : A → bool) (a : list A) : bool := existsb p a.

(** Decimal rendering of a count, as a template literal does. *)
Definition show_nat (n : nat) : string :=
  NilZero.string_of_uint (Nat.to_uint n).

Definition show_Z (z : Z) : string :=
  NilZero.string_of_int (Z.to_int z).

Definition Qltb (x y : Q) : bool := negb (Qle_bool y x).

(** The part of a parsed [URL] object the code reads. *)
Record URL := mkURL { origin : string; pathname : string }.

(** Services of the host platform. [parseURL s] is [new URL(s)], with
    [None] when the constructor throws; [toLocaleString], [toFixed] and
    [numberToString] (a number inside a template literal) are the number
    formatters. *)
Class Host := {
  parseURL : string → option URL;
  toLocaleString : Z → string;
  toFixed : Q → nat → string;
  numberToString : Q → string;
}.

Definition newURL `{Host} (s : string) : completion URL :=
  match parseURL s with
  | Some u => Normal u
  | None => Throw "Invalid URL"
  end.

(* ================================================================== *)
(** * coverage.ts: the coverage classifier *)
(* ================================================================== *)

(** A range of executed text, [start] inclusive, [end] exclusive. *)
Record Range := mkRange { r_start : Z; r_end : Z }.

(** The provider's coverage record. *)
Record CoverageEntry := mkCoverageEntry {
  ce_url : string;
  ce_text : string;
  ce_ranges : list Range;
}.

Record CoverageReportEntry := mkCoverageReportEntry {
  url : string;
  totalBytes : Z;
  usedBytes : Z;
  unusedBytes : Z;
  usagePercent : Q;
  isExternal : bool;
}.

Definition thirdPartyPatterns : list string :=
  [ "/vendor"; "/vendors"; "/node_modules"; "/npm"; "/lib/"; "/libraries";
    "/deps"; "/dependencies"; "vendor."; "vendors."; "vendor-"; "vendors-";
    ".vendor."; ".vendors."; "chunk.vendors"; "chunk.libs" ].

Section Classifier.
Context `{Host}.

(** The body of the [try] block of [isThirdParty]. *)
Definition isThirdParty_try (u pageUrl : string) : completion bool :=
  if startsWith "data:" u || startsWith "blob:" u then Normal false
  else
    urlObj ← newURL u;
    pageUrlObj ← newURL pageUrl;
    if negb (String.eqb (origin urlObj) (origin pageUrlObj)) then Normal true
    else
      let path := toLowerCase (pathname urlObj) in
      Normal (some (λ pattern, includes pattern path) thirdPartyPatterns).

Definition isThirdParty (u pageUrl : string) : completion bool :=
  try_catch (isThirdParty_try u pageUrl) (λ _, Normal false).

Definition sumRanges (ranges : list Range) : Z :=
  fold_left (λ used range, (used + (r_end range - r_start range))%Z) ranges 0%Z.

Definition calculateCoverageEntry (entry : CoverageEntry) (pageUrl : string)
  : completion CoverageReportEntry :=
  let totalBytes := Z.of_nat (String.length (ce_text entry)) in
  let usedBytes := sumRanges (ce_ranges entry) in
  let unusedBytes := (totalBytes - usedBytes)%Z in
  let usagePercent :=
    if (0 <? totalBytes)%Z
    then (inject_Z usedBytes / inject_Z totalBytes * 100)%Q
    else 0%Q in
  ext ← isThirdParty (ce_url entry) pageUrl;
  Normal {| url := ce_url entry;
            totalBytes := totalBytes;
            usedBytes := usedBytes;
            unusedBytes := unusedBytes;
            usagePercent := usagePercent;
            isExternal := ext |}.

End Classifier.

(* ================================================================== *)
(** * bundleAnalysis.ts: constants and heuristics *)
(* ================================================================== *)

Inductive Effort := effort_low | effort_medium | effort_high.

Record DependencyAlternative := mkAlt {
  alternative : string;
  sizeSavingsKB : Z;
  effort : Effort;
}.

Inductive Priority := critical | high | medium | low.

(** The static table, in declaration order ([Object.keys] order). *)
Definition DEPENDENCY_ALTERNATIVES : list (string * list DependencyAlternative) :=
  [ ("moment",
      [ mkAlt "dayjs" 58 effort_low;
        mkAlt "date-fns" 45 effort_medium;
        mkAlt "luxon" 30 effort_medium ]);
    ("lodash",
      [ mkAlt "lodash-es (tree-shakeable)" 60 effort_low;
        mkAlt "Native methods + individual imports" 65 effort_medium ]);
    ("underscore",
      [ mkAlt "lodash-es" 15 effort_low;
        mkAlt "Native methods" 20 effort_medium ]);
    ("jquery",
      [ mkAlt "Native DOM APIs" 85 effort_high;
        mkAlt "cash-dom" 75 effort_low ]);
    ("axios",
      [ mkAlt "fetch (native)" 12 effort_medium;
        mkAlt "ky" 8 effort_low ]);
    ("chart.js",
      [ mkAlt "uPlot" 150 effort_high;
        mkAlt "Chart.js with tree-shaking" 80 effort_medium ]);
    ("react-icons", [ mkAlt "Individual icon imports" 100 effort_low ]);
    ("core-js", [ mkAlt "Targeted polyfills only" 80 effort_medium ]);
    ("validator", [ mkAlt "validator/es (tree-shakeable)" 40 effort_low ]);
    ("numeral", [ mkAlt "Intl.NumberFormat (native)" 25 effort_medium ]);
    ("highlight.js", [ mkAlt "Prism.js with selected languages" 200 effort_medium ]);
    ("quill", [ mkAlt "Tiptap" 100 effort_high ]);
    ("draft-js", [ mkAlt "Slate.js" 80 effort_high ]);
    ("antd", [ mkAlt "Individual component imports" 300 effort_medium ]);
    ("material-ui", [ mkAlt "Individual component imports" 250 effort_medium ]) ].

Definition CHAIN_GAP_THRESHOLD_MS : float := 50.

(** The five patterns tried for one dependency name. *)
Definition depPatterns (dep : string) : list string :=
  [ "/" +:+ dep +:+ "/";
    "/" +:+ dep +:+ ".";
    dep +:+ ".js";
    dep +:+ ".min.js";
    dep +:+ "-" ].

Definition depMatches (lowerUrl dep : string) : bool :=
  some (λ pattern, includes pattern lowerUrl) (depPatterns dep).

(** The two nested loops return the first name one of whose patterns
    occurs in the lower-cased URL. *)
Definition detectHeavyDependency (u : string) : option string :=
  let lowerUrl := toLowerCase u in
  find (depMatches lowerUrl) (map fst DEPENDENCY_ALTERNATIVES).

Definition determinePriority (unusedBytes : Z) (unusedPercent : Q) : Priority :=
  if (100 * 1024 <? unusedBytes)%Z || Qltb 50 unusedPercent then critical
  else if (50 * 1024 <? unusedBytes)%Z || Qltb 30 unusedPercent then high
  else if (20 * 1024 <? unusedBytes)%Z || Qltb 20 unusedPercent then medium
  else low.

(* ================================================================== *)
(** * bundleAnalysis.ts: the chain detector *)
(* ================================================================== *)

(** The part of the network provider's request objects the detector reads.
    [headers] is the response header object; [timing] and [response] are
    absent ([None]) when the accessor returns [null]. *)
Record ResourceTiming := mkResourceTiming {
  requestTime : float;        (* seconds *)
  receiveHeadersEnd : float;  (* milliseconds after requestTime *)
}.

Record HTTPResponse := mkHTTPResponse {
  timing : option ResourceTiming;
  headers : gmap string string;
}.

Record HTTPRequest := mkHTTPRequest {
  req_url : string;
  resourceType : string;
  response : option HTTPResponse;
}.

(** [parseInt(s, 10)]: white space is skipped, then an optional sign and
    the longest run of decimal digits are read. [readDigits] gives the
    integer that the digits spell, [None] when there is no digit. *)
Definition isWhiteSpace (c : ascii) : bool :=
  let n := nat_of_ascii c in
  ((9 <=? n)%nat && (n <=? 13)%nat) || (n =? 32)%nat.

Fixpoint skipWhiteSpace (s : string) : string :=
  match s with
  | EmptyString => EmptyString
  | String c s' => if isWhiteSpace c then skipWhiteSpace s' else s
  end.

Definition digitValue (c : ascii) : option Z :=
  let n := nat_of_ascii c in
  if (48 <=? n)%nat && (n <=? 57)%nat then Some (Z.of_nat (n - 48)) else None.

Fixpoint readDigits (s : string) (acc : option Z) : option Z :=
  match s with
  | EmptyString => acc
  | String c s' =>
      match digitValue c with
      | Some d => readDigits s' (Some (10 * default 0 acc + d))%Z
      | None => acc
      end
  end.

(** The Number value for an integer: the nearest binary64 number, ties to
    even, an infinity beyond the largest one. *)
Definition numberOfZ (z : Z) : float := SF2Prim (binary_normalize prec emax z 0 false).

(** The result is a Number: the integer rounded to binary64, negated for
    a leading minus sign (so "-0" gives -0), NaN when there is no digit. *)
Definition parseInt10 (s : string) : float :=
  let '(negative, digits) :=
    match skipWhiteSpace s with
    | String "-" s' => (true, s')
    | String "+" s' => (false, s')
    | s' => (false, s')
    end in
  match readDigits digits None with
  | None => nan
  | Some mathInt => if negative then (- numberOfZ mathInt)%float else numberOfZ mathInt
  end.

Record RequestTiming := mkRequestTiming {
  rt_startTimeMs : float;
  rt_endTimeMs : float;
  rt_sizeBytes : float;
}.

Definition getRequestTiming (request : HTTPRequest) : option RequestTiming :=
  match response request with
  | None => None
  | Some resp =>
      match timing resp with
      | None => None
      | Some tm =>
          let startTimeMs := (requestTime tm * 1000)%float in
          let endTimeMs := (startTimeMs + receiveHeadersEnd tm)%float in
          let sizeBytes :=
            match headers resp !! "content-length" with
            | None => 0%float
            | Some contentLength =>
                if String.eqb contentLength "" then 0%float
                else parseInt10 contentLength
            end in
          Some (mkRequestTiming startTimeMs endTimeMs sizeBytes)
      end
  end.

(** An element of [scriptsWithTiming]. *)
Record TimedScript := mkTimedScript {
  ts_request : HTTPRequest;
  ts_url : string;
  ts_startTimeMs : float;
  ts_endTimeMs : float;
  ts_sizeBytes : float;
}.

#[warnings="-register-all"]
Inductive BundleChainNode := mkBundleChainNode {
  node_url : string;
  node_sizeBytes : float;
  node_startTimeMs : float;
  node_endTimeMs : float;
  node_loadTimeMs : float;
  children : list BundleChainNode;
}.

Record BundleChain := mkBundleChain {
  depth : nat;
  totalTimeMs : float;
  urls : list string;
  root : BundleChainNode;
}.

Definition isScript (r : HTTPRequest) : bool := String.eqb (resourceType r) "script".

Definition timedScript (request : HTTPRequest) : option TimedScript :=
  match getRequestTiming request with
  | Some tm =>
      Some (mkTimedScript request (req_url request)
              (rt_startTimeMs tm) (rt_endTimeMs tm) (rt_sizeBytes tm))
  | None => None
  end.

(** The filter and the first loop of [detectBundleChains]. *)
Definition scriptsWithTiming (requests : list HTTPRequest) : list TimedScript :=
  omap timedScript (List.filter isScript requests).

(** [scriptsWithTiming.sort((a, b) => a.endTimeMs - b.endTimeMs)]. The
    comparator is the rounded difference of the end times. Where it is
    positive the second script goes first; where it is negative, zero or
    NaN the two keep the order of the array, [Array.prototype.sort] being
    stable. So a script goes in front of the first one for which the
    comparator is not positive. For end times that are no NaN and not
    two infinities of one sign the comparator is consistent and every
    stable sort gives this order; otherwise the order of an engine is
    implementation-defined, and the insertion order below stands for it. *)
Fixpoint insertByEndTime (x : TimedScript) (l : list TimedScript) : list TimedScript :=
  match l with
  | [] => [x]
  | y :: l' =>
      if (0 <? ts_endTimeMs x - ts_endTimeMs y)%float then y :: insertByEndTime x l'
      else x :: y :: l'
  end.

Definition sortByEndTime (l : list TimedScript) : list TimedScript :=
  foldr insertByEndTime [] l.

Definition nodeOf (s : TimedScript) : BundleChainNode :=
  {| node_url := ts_url s;
     node_sizeBytes := ts_sizeBytes s;
     node_startTimeMs := ts_startTimeMs s;
     node_endTimeMs := ts_endTimeMs s;
     node_loadTimeMs := (ts_endTimeMs s - ts_startTimeMs s)%float;
     children := [] |}.

(** The predicate of [scriptsWithTiming.find] in the inner loop. *)
Definition isNextScript (usedUrls : gset string) (currentScript s : TimedScript) : bool :=
  negb (bool_decide (ts_url s ∈ usedUrls))
  && (ts_endTimeMs currentScript <=? ts_startTimeMs s)%float
  && (ts_startTimeMs s <=? ts_endTimeMs currentScript + CHAIN_GAP_THRESHOLD_MS)%float.

(** The [while (currentScript)] loop, one unit of [fuel] per iteration;
    [None] means that the fuel ran out before the loop left. The result is
    the final [chainNodes], [chainUrls] and [usedUrls]. *)
Fixpoint growChain (fuel : nat) (scripts : list TimedScript)
    (chainNodes : list BundleChainNode) (chainUrls : list string)
    (usedUrls : gset string) (currentScript : TimedScript)
  : option (list BundleChainNode * list string * gset string) :=
  match fuel with
  | O => None
  | S fuel' =>
      let chainNodes := chainNodes ++ [nodeOf currentScript] in
      let chainUrls := chainUrls ++ [ts_url currentScript] in
      let usedUrls := usedUrls ∪ {[ ts_url currentScript ]} in
      match find (isNextScript usedUrls currentScript) scripts with
      | Some nextScript =>
          growChain fuel' scripts chainNodes chainUrls usedUrls nextScript
      | None => Some (chainNodes, chainUrls, usedUrls)
      end
  end.

Definition setChildren (n : BundleChainNode) (c : list BundleChainNode) : BundleChainNode :=
  {| node_url := node_url n;
     node_sizeBytes := node_sizeBytes n;
     node_startTimeMs := node_startTimeMs n;
     node_endTimeMs := node_endTimeMs n;
     node_loadTimeMs := node_loadTimeMs n;
     children := c |}.

(** [chainNodes[i].children = [chainNodes[i + 1]]] for every [i] but the
    last. The nodes are shared objects, so the head ends up holding the
    whole linked chain; the result is that head (no head for no node). *)
Fixpoint linkChain (chainNodes : list BundleChainNode) : list BundleChainNode :=
  match chainNodes with
  | [] => []
  | [n] => [n]
  | n :: rest => [setChildren n (linkChain rest)]
  end.

(** What one iteration of the outer loop pushes onto [chains]. *)
Definition keepChain (minChainDepth : Z) (minChainTimeMs : float)
    (chainNodes : list BundleChainNode) (chainUrls : list string)
  : list BundleChain :=
  if (minChainDepth <=? Z.of_nat (length chainNodes))%Z then
    match linkChain chainNodes, chainNodes with
    | rootNode :: _, first :: _ =>
        let totalTimeMs :=
          (node_endTimeMs (List.last chainNodes first) - node_startTimeMs first)%float in
        if (minChainTimeMs <=? totalTimeMs)%float then
          [ {| depth := length chainNodes;
               totalTimeMs := totalTimeMs;
               urls := chainUrls;
               root := rootNode |} ]
        else []
    | _, _ => []
    end
  else [].

(** The [for (const script of scriptsWithTiming)] loop over what is left
    of the sorted array. *)
Fixpoint buildChains (scripts remaining : list TimedScript)
    (minChainDepth : Z) (minChainTimeMs : float)
    (chains : list BundleChain) (usedUrls : gset string)
  : option (list BundleChain) :=
  match remaining with
  | [] => Some chains
  | script :: remaining' =>
      if bool_decide (ts_url script ∈ usedUrls) then
        buildChains scripts remaining' minChainDepth minChainTimeMs chains usedUrls
      else
        match growChain (length scripts) scripts [] [] usedUrls script with
        | None => None
        | Some (chainNodes, chainUrls, usedUrls') =>
            buildChains scripts remaining' minChainDepth minChainTimeMs
              (chains ++ keepChain minChainDepth minChainTimeMs chainNodes chainUrls)
              usedUrls'
        end
  end.

Definition detectBundleChains (requests : list HTTPRequest)
    (minChainDepth : Z) (minChainTimeMs : float) : option (list BundleChain) :=
  let scripts := sortByEndTime (scriptsWithTiming requests) in
  buildChains scripts scripts minChainDepth minChainTimeMs [] ∅.

(** The URLs along the [children] links below a node. *)
Fixpoint nodeUrls (n : BundleChainNode) : list string :=
  node_url n ::
  match children n with
  | [] => []
  | child :: _ => nodeUrls child
  end.

(* ================================================================== *)
(** * coverage.ts: reports, the session and the two tools *)
(* ================================================================== *)

Record Summary := mkSummary {
  totalResources : nat;
  sum_totalBytes : Z;
  sum_usedBytes : Z;
  sum_unusedBytes : Z;
  overallUsagePercent : Q;
}.

Record PaginationInfo := mkPaginationInfo {
  showing : string;
  pi_currentPage : nat;
  pi_totalPages : nat;
  pi_hasNextPage : bool;
  pi_hasPreviousPage : bool;
}.

Record CoverageReport := mkCoverageReport {
  jsCoverage : list CoverageReportEntry;
  cssCoverage : list CoverageReportEntry;
  summary : Summary;
  jsPagination : option PaginationInfo;
  cssPagination : option PaginationInfo;
}.

Record PaginationOptions := mkPaginationOptions { pageSize : nat; pageIdx : nat }.

Record PaginationResult (A : Type) := mkPaginationResult {
  items : list A;
  startIndex : nat;
  endIndex : nat;
  currentPage : nat;
  totalPages : nat;
  hasNextPage : bool;
  hasPreviousPage : bool;
}.
Arguments items {A}. Arguments startIndex {A}. Arguments endIndex {A}.
Arguments currentPage {A}. Arguments totalPages {A}.
Arguments hasNextPage {A}. Arguments hasPreviousPage {A}.

(** Modelled from the spec: [paginate] of [utils/pagination.ts], which is
    not among the sources. The number of pages is the ceiling of
    length / pageSize and at least 1, a page index past the end is clamped
    to the last page, and the window is 0-based and half-open. *)
Definition paginate {A} (l : list A) (options : PaginationOptions) : PaginationResult A :=
  let total := length l in
  let pages := Nat.max 1 ((total + pageSize options - 1) / pageSize options) in
  let page := Nat.min (pageIdx options) (pages - 1) in
  let first := page * pageSize options in
  let last := Nat.min (first + pageSize options) total in
  {| items := take (last - first) (drop first l);
     startIndex := first;
     endIndex := last;
     currentPage := page;
     totalPages := pages;
     hasNextPage := (page <? pages - 1)%nat;
     hasPreviousPage := (0 <? page)%nat |}.

Record CoverageOptions := mkCoverageOptions { includeJS : bool; includeCSS : bool }.

(** Modelled from the spec: the session context ([McpContext], not among
    the sources) as the three slots its accessors read and write. *)
Record Context := mkContext {
  isRunningCoverage : bool;
  getCoverageOptions : CoverageOptions;
  getLastCoverageReport : option CoverageReport;
}.

(** A promise that the provider hands back, as far as the handlers can
    see it: how it settles, and when. [settledAt] orders the promises by
    the moment at which they settle; of two with the same stamp the one
    that comes first in a list counts as the earlier one. *)
Record Promise (A : Type) := mkPromise {
  settledAt : nat;
  outcome : completion A;
}.
Arguments mkPromise {A} _ _.
Arguments settledAt {A} _.
Arguments outcome {A} _.

(** The selected page: its URL and, for each call to the coverage
    provider, how that call settles. The promises of the two stop calls
    are awaited one by one, so only their outcome is kept. *)
Record Page := mkPage {
  page_url : string;
  startJSCoverage : bool → Promise unit;
  startCSSCoverage : bool → Promise unit;
  stopJSCoverage : completion (list CoverageEntry);
  stopCSSCoverage : completion (list CoverageEntry);
}.

Inductive ProviderCall :=
| StartJSCoverage (resetOnNavigation : bool)
| StartCSSCoverage (resetOnNavigation : bool)
| StopJSCoverage
| StopCSSCoverage.

(** What a handler can change: the session context, the lines of the
    response and the calls made to the coverage provider so far. *)
Record World := mkWorld {
  context : Context;
  responseLines : list string;
  providerCalls : list ProviderCall;
}.

(** Handler code: state passing with exceptions. *)
Definition M (A : Type) : Type := World → World * completion A.

#[global] Instance M_ret : MRet M := λ A a w, (w, Normal a).
#[global] Instance M_bind : MBind M := λ A B f m w,
  match m w with
  | (w', Normal a) => f a w'
  | (w', Throw e) => (w', Throw e)
  end.

Definition lift {A} (c : completion A) : M A := λ w, (w, c).

(** [try { body } catch (e) { handler(e) }] in handler code. *)
Definition tryCatch {A} (body : M A) (handler : string → M A) : M A := λ w,
  match body w with
  | (w', Normal a) => (w', Normal a)
  | (w', Throw e) => handler e w'
  end.

(** [try { body } catch (e) { handler(e) } finally { finalizer }] *)
Definition tryCatchFinally {A} (body : M A) (handler : string → M A)
    (finalizer : M unit) : M A := λ w,
  let '(w1, r1) := tryCatch body handler w in
  match finalizer w1 with
  | (w2, Normal _) => (w2, r1)
  | (w2, Throw e) => (w2, Throw e)
  end.

Definition appendResponseLine (line : string) : M unit := λ w,
  (mkWorld (context w) (responseLines w ++ [line]) (providerCalls w), Normal tt).

Definition setIsRunningCoverage (b : bool) : M unit := λ w,
  (mkWorld
     (mkContext b (getCoverageOptions (context w)) (getLastCoverageReport (context w)))
     (responseLines w) (providerCalls w),
   Normal tt).

Definition setCoverageOptions (o : CoverageOptions) : M unit := λ w,
  (mkWorld
     (mkContext (isRunningCoverage (context w)) o (getLastCoverageReport (context w)))
     (responseLines w) (providerCalls w),
   Normal tt).

Definition readContext {A} (get : Context → A) : M A := λ w, (w, Normal (get (context w))).

(** A call to the provider: it is recorded and hands back its promise. *)
Definition callProvider {P} (call : ProviderCall) (promise : P) : M P := λ w,
  (mkWorld (context w) (responseLines w) (providerCalls w ++ [call]), Normal promise).

(** [await p] *)
Definition await {A} (p : completion A) : M A := lift p.

(** The promise of the list that is the first to reject, if one does. *)
Fixpoint firstRejected (promises : list (Promise unit)) : option (Promise unit) :=
  match promises with
  | [] => None
  | p :: rest =>
      match outcome p, firstRejected rest with
      | Normal _, first => first
      | Throw _, None => Some p
      | Throw _, Some q => if (settledAt p <=? settledAt q)%nat then Some p else Some q
      end
  end.

(** [await Promise.all(promises)]: it throws the reason of the promise
    that rejects first in time, and returns when no promise rejects. *)
Definition awaitAll (promises : list (Promise unit)) : M unit :=
  match firstRejected promises with
  | Some p => await (outcome p)
  | None => mret tt
  end.

Fixpoint forEach {A} (l : list A) (body : A → M unit) : M unit :=
  match l with
  | [] => mret tt
  | x :: l' => _ ← body x; forEach l' body
  end.

Fixpoint mapCompletion {A B} (f : A → completion B) (l : list A) : completion (list B) :=
  match l with
  | [] => Normal []
  | x :: l' => y ← f x; ys ← mapCompletion f l'; Normal (y :: ys)
  end.

(** [l.sort((a, b) => b.unusedBytes - a.unusedBytes)], stable. *)
Fixpoint insertByUnused (x : CoverageReportEntry) (l : list CoverageReportEntry)
  : list CoverageReportEntry :=
  match l with
  | [] => [x]
  | y :: l' =>
      if (unusedBytes y <=? unusedBytes x)%Z then x :: y :: l'
      else y :: insertByUnused x l'
  end.

Definition sortByUnused (l : list CoverageReportEntry) : list CoverageReportEntry :=
  foldr insertByUnused [] l.

(** [s.slice(-n)] *)
Definition sliceLast (n : nat) (s : string) : string :=
  substring (String.length s - n) n s.

Definition join (sep : string) (lines : list string) : string :=
  match lines with
  | [] => ""
  | l :: ls => fold_left (λ acc x, acc +:+ sep +:+ x) ls l
  end.

Section CoverageTools.
Context `{Host}.

Definition coverageRow (entry : CoverageReportEntry) : string :=
  let shortUrl :=
    if (50 <? String.length (url entry))%nat
    then "..." +:+ sliceLast 47 (url entry) else url entry in
  let type := if isExternal entry then "3rd-party" else "Internal" in
  "| " +:+ shortUrl +:+ " | " +:+ type +:+ " | "
  +:+ toLocaleString (totalBytes entry) +:+ " | "
  +:+ toLocaleString (usedBytes entry) +:+ " | "
  +:+ toLocaleString (unusedBytes entry) +:+ " | "
  +:+ toFixed (usagePercent entry) 1 +:+ "% |".

Definition coverageSection (title : string) (entries : list CoverageReportEntry)
    (pagination : option PaginationInfo) : list string :=
  if (0 <? length entries)%nat then
    [ title; "" ]
    ++ match pagination with
       | Some p =>
           [ showing p ]
           ++ (if pi_hasNextPage p
               then [ "Next page: " +:+ show_nat (pi_currentPage p + 1) ] else [])
           ++ (if pi_hasPreviousPage p
               then [ "Previous page: " +:+ show_Z (Z.of_nat (pi_currentPage p) - 1) ]
               else [])
           ++ [ "" ]
       | None => []
       end
    ++ [ "| URL | Type | Total Bytes | Used Bytes | Unused Bytes | Usage % |";
         "|-----|------|-------------|------------|--------------|---------|" ]
    ++ map coverageRow entries
    ++ [ "" ]
  else [].

Definition formatCoverageReport (report : CoverageReport) : string :=
  join (String "010" "")
    ([ "## Coverage Report"; ""; "### Summary";
       "- Total resources: " +:+ show_nat (totalResources (summary report));
       "- Total bytes: " +:+ toLocaleString (sum_totalBytes (summary report));
       "- Used bytes: " +:+ toLocaleString (sum_usedBytes (summary report));
       "- Unused bytes: " +:+ toLocaleString (sum_unusedBytes (summary report));
       "- Overall usage: " +:+ toFixed (overallUsagePercent (summary report)) 1 +:+ "%";
       "" ]
     ++ coverageSection "### JavaScript Coverage" (jsCoverage report) (jsPagination report)
     ++ coverageSection "### CSS Coverage" (cssCoverage report) (cssPagination report)).

Record StartParams := mkStartParams {
  p_resetOnNavigation : option bool;
  p_includeJS : option bool;
  p_includeCSS : option bool;
}.

Record StopParams := mkStopParams {
  p_pageSize : option nat;
  p_pageIdx : option nat;
}.

(** The [try] block of the handler of [coverage_start]. *)
Definition startCoverage_try (page : Page) (includeJS includeCSS resetOnNavigation : bool)
  : M unit :=
  js ← (if includeJS
        then p ← callProvider (StartJSCoverage resetOnNavigation)
                   (startJSCoverage page resetOnNavigation); mret [p]
        else mret []);
  css ← (if includeCSS
         then p ← callProvider (StartCSSCoverage resetOnNavigation)
                    (startCSSCoverage page resetOnNavigation); mret [p]
         else mret []);
  _ ← awaitAll (js ++ css);
  let types := (if includeJS then ["JavaScript"] else [])
               ++ (if includeCSS then ["CSS"] else []) in
  appendResponseLine
    ("Coverage tracking started for " +:+ join " and " types
     +:+ ". Use coverage_stop to stop tracking and get the report.").

(** The handler of [coverage_start]. *)
Definition startCoverage (params : StartParams) (page : Page) : M unit :=
  running ← readContext isRunningCoverage;
  if running : bool then
    appendResponseLine
      "Error: coverage tracking is already running. Use coverage_stop to stop it. Only one coverage session can be running at any given time."
  else
    let includeJS := default true (p_includeJS params) in
    let includeCSS := default true (p_includeCSS params) in
    if negb includeJS && negb includeCSS then
      appendResponseLine "Error: at least one of includeJS or includeCSS must be true."
    else
      _ ← setIsRunningCoverage true;
      _ ← setCoverageOptions (mkCoverageOptions includeJS includeCSS);
      let resetOnNavigation := default true (p_resetOnNavigation params) in
      tryCatch
        (startCoverage_try page includeJS includeCSS resetOnNavigation)
        (λ errorText,
           _ ← setIsRunningCoverage false;
           appendResponseLine ("Error starting coverage tracking: " +:+ errorText)).

Definition paginationInfo (kind : string) (total : nat)
    (r : PaginationResult CoverageReportEntry) : option PaginationInfo :=
  if (0 <? total)%nat then
    Some {| showing :=
              "Showing " +:+ show_nat (startIndex r + 1) +:+ "-" +:+ show_nat (endIndex r)
              +:+ " of " +:+ show_nat total +:+ " " +:+ kind +:+ " files (Page "
              +:+ show_nat (currentPage r + 1) +:+ " of " +:+ show_nat (totalPages r)
              +:+ ")";
            pi_currentPage := currentPage r;
            pi_totalPages := totalPages r;
            pi_hasNextPage := hasNextPage r;
            pi_hasPreviousPage := hasPreviousPage r |}
  else None.

Definition sumOver (f : CoverageReportEntry → Z) (l : list CoverageReportEntry) : Z :=
  fold_left (λ sum e, (sum + f e)%Z) l 0%Z.

(** The report built from the classified entries of both kinds. *)
Definition buildReport (jsCoverage cssCoverage : list CoverageReportEntry)
    (pagination : PaginationOptions) : CoverageReport :=
  let jsCoverage := sortByUnused jsCoverage in
  let cssCoverage := sortByUnused cssCoverage in
  let allEntries := jsCoverage ++ cssCoverage in
  let totalBytes := sumOver totalBytes allEntries in
  let usedBytes := sumOver usedBytes allEntries in
  let unusedBytes := sumOver unusedBytes allEntries in
  let overallUsagePercent :=
    if (0 <? totalBytes)%Z
    then (inject_Z usedBytes / inject_Z totalBytes * 100)%Q else 0%Q in
  let jsPaginationResult := paginate jsCoverage pagination in
  let cssPaginationResult := paginate cssCoverage pagination in
  {| jsCoverage := items jsPaginationResult;
     cssCoverage := items cssPaginationResult;
     summary := mkSummary (length allEntries) totalBytes usedBytes unusedBytes
                  overallUsagePercent;
     jsPagination := paginationInfo "JS" (length jsCoverage) jsPaginationResult;
     cssPagination := paginationInfo "CSS" (length cssCoverage) cssPaginationResult |}.

(** One of the two [if (options.include..)] blocks: stop the provider and
    classify what it hands back. *)
Definition collect (enabled : bool) (call : ProviderCall)
    (outcome : completion (list CoverageEntry)) (pageUrl : string)
  : M (list CoverageReportEntry) :=
  if enabled then
    p ← callProvider call outcome;
    entries ← await p;
    lift (mapCompletion (λ entry, calculateCoverageEntry entry pageUrl) entries)
  else mret [].

(** The [try] block of [stopCoverageAndAppendOutput]. *)
Definition stopCoverage_try (page : Page) (pagination : PaginationOptions) : M unit :=
  options ← readContext getCoverageOptions;
  let pageUrl := page_url page in
  jsCoverage ← collect (includeJS options) StopJSCoverage (stopJSCoverage page) pageUrl;
  cssCoverage ← collect (includeCSS options) StopCSSCoverage (stopCSSCoverage page) pageUrl;
  let report := buildReport jsCoverage cssCoverage pagination in
  _ ← appendResponseLine "Coverage tracking has been stopped.";
  _ ← appendResponseLine "";
  appendResponseLine (formatCoverageReport report).

Definition stopCoverageAndAppendOutput (page : Page) (pagination : PaginationOptions)
  : M unit :=
  tryCatchFinally
    (stopCoverage_try page pagination)
    (λ errorText,
       _ ← appendResponseLine "An error occurred generating the coverage report:";
       appendResponseLine errorText)
    (setIsRunningCoverage false).

(** The handler of [coverage_stop]. *)
Definition stopCoverage (params : StopParams) (page : Page) : M unit :=
  running ← readContext isRunningCoverage;
  if negb running then
    _ ← appendResponseLine "Error: No coverage tracking is running.";
    _ ← appendResponseLine "";
    _ ← appendResponseLine "To use coverage tracking:";
    _ ← appendResponseLine "1. First call coverage_start to begin tracking";
    _ ← appendResponseLine "2. Navigate or interact with the page";
    appendResponseLine "3. Then call coverage_stop to get the report"
  else
    let pagination :=
      mkPaginationOptions (default 5 (p_pageSize params)) (default 0 (p_pageIdx params)) in
    stopCoverageAndAppendOutput page pagination.

End CoverageTools.

(* ================================================================== *)
(** * bundleAnalysis.ts: suggest_code_splits *)
(* ================================================================== *)

Record CodeSplitSuggestion := mkCodeSplitSuggestion {
  cs_url : string;
  priority : Priority;
  cs_totalBytes : Z;
  cs_usedBytes : Z;
  cs_unusedBytes : Z;
  cs_usagePercent : Q;
  cs_isExternal : bool;
  detectedDependency : option string;
}.

Definition priorityOrder (p : Priority) : Z :=
  match p with critical => 0 | high => 1 | medium => 2 | low => 3 end.

Definition priorityName (p : Priority) : string :=
  match p with
  | critical => "critical" | high => "high" | medium => "medium" | low => "low"
  end.

Definition effortName (e : Effort) : string :=
  match e with
  | effort_low => "low" | effort_medium => "medium" | effort_high => "high"
  end.

Definition Priority_eqb (p q : Priority) : bool := (priorityOrder p =? priorityOrder q)%Z.

(** [heavyDeps.set(dep, entry)] on a [Map], which iterates in the order of
    first insertion. *)
Fixpoint mapSet {V} (key : string) (v : V) (m : list (string * V)) : list (string * V) :=
  match m with
  | [] => [(key, v)]
  | (k, v') :: m' =>
      if String.eqb k key then (k, v) :: m' else (k, v') :: mapSet key v m'
  end.

(** The candidate comparator is at most 0: [a] may stay in front of [b]. *)
Definition candidateLe (a b : CodeSplitSuggestion) : bool :=
  let priorityDiff := (priorityOrder (priority a) - priorityOrder (priority b))%Z in
  if negb (priorityDiff =? 0)%Z then (priorityDiff <=? 0)%Z
  else (cs_unusedBytes b - cs_unusedBytes a <=? 0)%Z.

Fixpoint insertCandidate (x : CodeSplitSuggestion) (l : list CodeSplitSuggestion)
  : list CodeSplitSuggestion :=
  match l with
  | [] => [x]
  | y :: l' => if candidateLe x y then x :: y :: l' else y :: insertCandidate x l'
  end.

Definition sortCandidates (l : list CodeSplitSuggestion) : list CodeSplitSuggestion :=
  foldr insertCandidate [] l.

(** [url.split('/').pop()]: what follows the last slash. *)
Fixpoint lastSegment (s : string) : string :=
  match s with
  | EmptyString => EmptyString
  | String c s' =>
      if includes "/" s' then lastSegment s'
      else if Ascii.eqb c "/" then s' else s
  end.

Definition dquote : string := String (ascii_of_nat 34) EmptyString.

Section CodeSplits.
Context `{Host}.

Definition generateLazyLoadAdvice (u : string) (unusedPercent : Q) : string :=
  let fileName := if String.eqb (lastSegment u) "" then "this module" else lastSegment u in
  let shortName :=
    if (40 <? String.length fileName)%nat
    then "..." +:+ sliceLast 37 fileName else fileName in
  "**" +:+ shortName +:+ "** has " +:+ toFixed unusedPercent 0
  +:+ "% unused code on initial load. Consider lazy loading this module so it's only fetched when actually needed. Convert static imports to dynamic imports and load the module on user interaction or route change.".

(** One iteration of the loop over [jsCoverage]; the state is [candidates]
    and [heavyDeps]. *)
Definition scanEntry (minBundleSizeKB minUnusedPercent : Q)
    (state : list CodeSplitSuggestion * list (string * CoverageReportEntry))
    (entry : CoverageReportEntry)
  : list CodeSplitSuggestion * list (string * CoverageReportEntry) :=
  let '(candidates, heavyDeps) := state in
  let sizeKB := (inject_Z (totalBytes entry) / 1024)%Q in
  let unusedPercent := (100 - usagePercent entry)%Q in
  if Qle_bool minBundleSizeKB sizeKB && Qle_bool minUnusedPercent unusedPercent then
    let detectedDep := detectHeavyDependency (url entry) in
    ( candidates ++
        [ {| cs_url := url entry;
             priority := determinePriority (unusedBytes entry) unusedPercent;
             cs_totalBytes := totalBytes entry;
             cs_usedBytes := usedBytes entry;
             cs_unusedBytes := unusedBytes entry;
             cs_usagePercent := usagePercent entry;
             cs_isExternal := isExternal entry;
             detectedDependency := detectedDep |} ],
      match detectedDep with
      | Some dep => mapSet dep entry heavyDeps
      | None => heavyDeps
      end )
  else state.

Definition alternativesOf (dep : string) : option (list DependencyAlternative) :=
  snd <$> find (λ kv, String.eqb (fst kv) dep) DEPENDENCY_ALTERNATIVES.

Definition heavyDepsTable (heavyDeps : list (string * CoverageReportEntry)) : list string :=
  if (0 <? length heavyDeps)%nat then
    [ "### Heavy Dependencies with Lighter Alternatives"; "";
      "| Current | Alternative | Savings | Effort |";
      "|---------|-------------|---------|--------|" ]
    ++ flat_map (λ kv : string * CoverageReportEntry,
         let dep := fst kv in
         match alternativesOf dep with
         | Some alternatives =>
             map (λ alt, "| " +:+ dep +:+ " | " +:+ alternative alt +:+ " | "
                         +:+ show_Z (sizeSavingsKB alt) +:+ "KB | "
                         +:+ effortName (effort alt) +:+ " |") alternatives
         | None => []
         end) heavyDeps
    ++ [ "" ]
  else [].

(** The two lines pushed for one lazy-load candidate. *)
Definition lazyLoadEntry (candidate : CodeSplitSuggestion) : list string :=
  let unusedPercent := (100 - cs_usagePercent candidate)%Q in
  [ "- " +:+ generateLazyLoadAdvice (cs_url candidate) unusedPercent
    +:+ " [" +:+ priorityName (priority candidate) +:+ "]";
    "" ].

Definition isLazyLoadCandidate (c : CodeSplitSuggestion) : bool :=
  Qltb (cs_usagePercent c) 50 && negb (cs_isExternal c).

Definition lazyLoadSection (candidates : list CodeSplitSuggestion) : list string :=
  let lazyLoadCandidates := List.filter isLazyLoadCandidate candidates in
  if (0 <? length lazyLoadCandidates)%nat then
    [ "### Lazy Load Candidates";
      "These modules have low initial usage and should be lazy loaded to improve initial page load:";
      "" ]
    ++ flat_map lazyLoadEntry (take 5 lazyLoadCandidates)
  else [].

Definition treeShakingSection (heavyDeps : list (string * CoverageReportEntry))
  : list string :=
  if (0 <? length heavyDeps)%nat then
    [ "### Tree Shaking Opportunities"; "";
      "The following heavy dependencies were detected. Consider these optimizations:";
      "" ]
    ++ flat_map (λ kv : string * CoverageReportEntry,
         let '(dep, entry) := kv in
         let unusedPercent := (100 - usagePercent entry)%Q in
         [ "**" +:+ dep +:+ "** (" +:+ toFixed unusedPercent 0 +:+ "% unused)";
           "";
           "- Only " +:+ toFixed (usagePercent entry) 0
           +:+ "% of this library is being used. Import only the specific functions you need instead of the entire library.";
           "- Check if there's an ES modules version (often named with " +:+ dquote
           +:+ "-es" +:+ dquote +:+ " suffix) that supports tree shaking.";
           "- Consider whether a lighter alternative from the table above would meet your needs.";
           "" ]) heavyDeps
  else [].

Definition candidateRow (candidate : CodeSplitSuggestion) : string :=
  let shortUrl :=
    if (35 <? String.length (cs_url candidate))%nat
    then "..." +:+ sliceLast 32 (cs_url candidate) else cs_url candidate in
  "| " +:+ shortUrl +:+ " | " +:+ priorityName (priority candidate) +:+ " | "
  +:+ toFixed (inject_Z (cs_totalBytes candidate) / 1024)%Q 1 +:+ "KB | "
  +:+ toFixed (inject_Z (cs_usedBytes candidate) / 1024)%Q 1 +:+ "KB | "
  +:+ toFixed (inject_Z (cs_unusedBytes candidate) / 1024)%Q 1 +:+ "KB | "
  +:+ toFixed (cs_usagePercent candidate) 1 +:+ "% |".

Definition allCandidatesTitle : string := "### All Optimization Opportunities".

Definition allCandidatesTable (candidates : list CodeSplitSuggestion) : list string :=
  [ allCandidatesTitle; "";
    "| URL | Priority | Size | Used | Unused | Usage % |";
    "|-----|----------|------|------|--------|---------|" ]
  ++ map candidateRow (take 15 candidates)
  ++ (if (15 <? length candidates)%nat
      then [ ""; "*...and " +:+ show_nat (length candidates - 15)
                 +:+ " more opportunities*" ]
      else []).

(** The array [lines] of the handler, for a report that has JavaScript
    entries. *)
Definition codeSplitLines (jsCoverage : list CoverageReportEntry)
    (minBundleSizeKB minUnusedPercent : Q) : list string :=
  let '(candidates, heavyDeps) :=
    fold_left (scanEntry minBundleSizeKB minUnusedPercent) jsCoverage ([], []) in
  let candidates := sortCandidates candidates in
  let totalUnused := fold_left (λ sum c, (sum + cs_unusedBytes c)%Z) candidates 0%Z in
  let criticalCount :=
    length (List.filter (λ c, Priority_eqb (priority c) critical) candidates) in
  let highCount :=
    length (List.filter (λ c, Priority_eqb (priority c) high) candidates) in
  [ "## Code Split Suggestions"; "";
    "### Summary";
    "- Total unused: " +:+ toFixed (inject_Z totalUnused / 1024)%Q 1 +:+ "KB";
    "- Potential savings: ~"
    +:+ toFixed (inject_Z totalUnused * (7 # 10) / 1024)%Q 1 +:+ "KB (estimated)";
    "- Critical issues: " +:+ show_nat criticalCount;
    "- High priority issues: " +:+ show_nat highCount;
    "- Total opportunities: " +:+ show_nat (length candidates);
    "" ]
  ++ (if (length candidates =? 0)%nat then
        [ "### No Optimization Opportunities Found"; "";
          "No bundles found with size >= " +:+ numberToString minBundleSizeKB
          +:+ "KB and unused >= " +:+ numberToString minUnusedPercent +:+ "%.";
          "Your bundles appear well-optimized!" ]
      else
        heavyDepsTable heavyDeps
        ++ lazyLoadSection candidates
        ++ treeShakingSection heavyDeps
        ++ allCandidatesTable candidates).

Record SplitParams := mkSplitParams {
  p_minBundleSizeKB : option Q;
  p_minUnusedPercent : option Q;
}.

(** The handler of [suggest_code_splits]. *)
Definition suggestCodeSplits (params : SplitParams) : M unit :=
  let minBundleSizeKB := default 50%Q (p_minBundleSizeKB params) in
  let minUnusedPercent := default 20%Q (p_minUnusedPercent params) in
  coverageReport ← readContext getLastCoverageReport;
  match coverageReport with
  | None =>
      _ ← appendResponseLine "## Error: No Coverage Data Available";
      _ ← appendResponseLine "";
      _ ← appendResponseLine "You must run coverage tracking before using this tool:";
      _ ← appendResponseLine "1. Call `coverage_start` to begin tracking";
      _ ← appendResponseLine "2. Navigate or interact with the page";
      _ ← appendResponseLine "3. Call `coverage_stop` to collect data";
      appendResponseLine "4. Then call `suggest_code_splits` to analyze"
  | Some coverageReport =>
      let jsCoverage := jsCoverage coverageReport in
      if (length jsCoverage =? 0)%nat then
        _ ← appendResponseLine "## No JavaScript Coverage Data";
        _ ← appendResponseLine "";
        appendResponseLine "No JavaScript files were captured in the coverage report."
      else
        appendResponseLine
          (join (String "010" "") (codeSplitLines jsCoverage minBundleSizeKB minUnusedPercent))
  end.

End CodeSplits.

(* ================================================================== *)
(** * Sample inputs *)
(* ================================================================== *)

(** [s.indexOf(pattern)] *)
Fixpoint indexOf (pattern s : string) : option nat :=
  if String.prefix pattern s then Some 0%nat
  else match s with
       | EmptyString => None
       | String _ s' => S <$> indexOf pattern s'
       end.

(** A small host for running the model on examples. It parses URLs of the
    shape scheme://authority/path, and prints a number by its integer
    part. *)
Definition sampleParseURL (s : string) : option URL :=
  match indexOf "://" s with
  | None => None
  | Some i =>
      match indexOf "/" (substring (i + 3) (String.length s) s) with
      | None => Some (mkURL s "/")
      | Some j =>
          Some (mkURL (substring 0 (i + 3 + j) s)
                  (substring (i + 3 + j) (String.length s) s))
      end
  end.

Definition sampleHost : Host :=
  {| parseURL := sampleParseURL;
     toLocaleString := show_Z;
     toFixed := λ q _, show_Z (Qnum q / Z.pos (Qden q));
     numberToString := λ q, show_Z (Qnum q / Z.pos (Qden q)) |}.

Fixpoint repeatChar (c : ascii) (n : nat) : string :=
  match n with
  | O => EmptyString
  | S n' => String c (repeatChar c n')
  end.

(** The record of the test "calculates usage percentage correctly". *)
Definition sampleEntry : CoverageEntry :=
  mkCoverageEntry "https://example.com/script.js" (repeatChar "x" 100)
    [ mkRange 0 50 ].

(* ================================================================== *)
(** * Well-formed coverage records *)
(* ================================================================== *)

(** The offset [p] lies in the half-open range. *)
Definition inRange (r : Range) (p : Z) : Prop := (r_start r ≤ p < r_end r)%Z.

#[global] Instance inRange_dec r p : Decision (inRange r p).
Proof. unfold inRange. apply _. Defined.

(** No offset lies in two of the ranges. *)
Definition nonOverlapping (ranges : list Range) : Prop :=
  ForallOrdPairs (λ a b, ∀ p, ¬ (inRange a p ∧ inRange b p)) ranges.

(** Every range is an interval within [0, len]. *)
Definition withinBounds (len : Z) (ranges : list Range) : Prop :=
  Forall (λ r, 0 ≤ r_start r ∧ r_start r ≤ r_end r ∧ r_end r ≤ len)%Z ranges.

(** The part of a range below the offset [n], and the sum of these parts. *)
Definition below (n : Z) (r : Range) : Z := (Z.min (r_end r) n - Z.min (r_start r) n)%Z.

Definition sumBelow (n : Z) (ranges : list Range) : Z :=
  foldr (λ r acc, (below n r + acc)%Z) 0%Z ranges.

(* ================================================================== *)
(** * Occurrences of a pattern across a concatenation *)
(* ================================================================== *)

(** All ways of cutting a string in two. *)
Fixpoint splits (s : string) : list (string * string) :=
  (EmptyString, s) ::
  match s with
  | EmptyString => []
  | String c s' => map (λ xy, (String c (fst xy), snd xy)) (splits s')
  end.

Fixpoint endsWithSlash (s : string) : bool :=
  match s with
  | EmptyString => false
  | String c EmptyString => Ascii.eqb c "/"
  | String _ s' => endsWithSlash s'
  end.

(** Some cut of [pattern] leaves a front part that ends in a slash and a
    non-empty rest that starts [b]: the pattern could sit across the end of
    a text that ends in a slash and the start of [b]. *)
Definition straddles (pattern b : string) : bool :=
  existsb (λ xy, endsWithSlash (fst xy)
                 && negb (String.eqb (snd xy) "")
                 && String.prefix (snd xy) b) (splits pattern).

(** The names of the table, in order. *)
Definition dependencyNames : list string := map fst DEPENDENCY_ALTERNATIVES.

(* ================================================================== *)
(** * Sample network records *)
(* ================================================================== *)

(** A finished script request, as the tests build it: times in
    milliseconds, the size in the content-length header. *)
Definition scriptRequest (u : string) (startTimeMs endTimeMs : float) (sizeBytes : Z)
  : HTTPRequest :=
  mkHTTPRequest u "script"
    (Some (mkHTTPResponse
             (Some (mkResourceTiming (startTimeMs / 1000) (endTimeMs - startTimeMs))%float)
             {[ "content-length" := show_Z sizeBytes ]})).

(** A document request that never got a response. *)
Definition documentRequest : HTTPRequest :=
  mkHTTPRequest "https://example.com/" "document" None.

(** A script that ends at 100ms and two scripts that start within 50ms
    of that and both end at 200ms, also after the rounding of the
    detector. *)
Definition reqA := scriptRequest "https://example.com/a.js" 0 100 50000.
Definition reqX := scriptRequest "https://example.com/x.js" 110 200 10000.
Definition reqY := scriptRequest "https://example.com/y.js" 120 200 10000.

(* ================================================================== *)
(** * Notions for the chain detector *)
(* ================================================================== *)

(** The URLs of the timed scripts, as a set. *)
Definition scriptUrls (scripts : list TimedScript) : gset string :=
  list_to_set (ts_url <$> scripts).

(** The place of a number that is not NaN in the order of the numbers, as
    an integer: a finite number m * 2^e stands at m * 2^(e + 1074), an
    infinity beyond all of them. *)
Definition ord (f : spec_float) : Z :=
  match f with
  | S754_zero _ => 0
  | S754_nan => 0
  | S754_infinity s => cond_Zopp s (2 ^ 2098)
  | S754_finite s m e => cond_Zopp s (Zpos m * 2 ^ (e + 1074))
  end.

Definition rank (x : float) : Z := ord (Prim2SF x).

Definition notNaN (f : spec_float) : Prop := f ≠ S754_nan.

(** A float of the given sign, not zero and no NaN. *)
Definition signed (s : bool) (f : spec_float) : Prop :=
  (∃ m e, f = S754_finite s m e) ∨ f = S754_infinity s.

(** Zero or a finite number other than zero. *)
Definition finite (f : spec_float) : Prop :=
  match f with
  | S754_zero _ | S754_finite _ _ _ => True
  | _ => False
  end.

(** [a] does not end after [b]. *)
Definition endsBefore (a b : TimedScript) : Prop :=
  (rank (ts_endTimeMs a) ≤ rank (ts_endTimeMs b))%Z.

(** The end times of the scripts are finite numbers. *)
Definition finiteEndTimes (scripts : list TimedScript) : Prop :=
  Forall (λ s, is_finite (ts_endTimeMs s) = true) scripts.

(** No two of the scripts end at the same time. *)
Definition distinctEndTimes (scripts : list TimedScript) : Prop :=
  ForallOrdPairs (λ a b, (ts_endTimeMs a =? ts_endTimeMs b)%float = false) scripts.

(** The URLs of all chains, chain after chain. *)
Definition allChainUrls (chains : list BundleChain) : list string :=
  concat (urls <$> chains).

(** The linked nodes of a chain spell out its URL list. *)
Definition chainLinked (c : BundleChain) : Prop :=
  nodeUrls (root c) = urls c ∧ depth c = length (urls c).

(** The two scripts of the test "detects simple A->B chain", as the first
    loop of the detector times them, and a late variant of the second. *)
Definition timedSample (u : string) (startTimeMs endTimeMs : float) (sizeBytes : Z)
  : TimedScript :=
  mkTimedScript (scriptRequest u startTimeMs endTimeMs sizeBytes) u
    (startTimeMs / 1000 * 1000)%float
    (startTimeMs / 1000 * 1000 + (endTimeMs - startTimeMs))%float
    (parseInt10 (show_Z sizeBytes)).

Definition appUrl : string := "https://example.com/app.js".
Definition vendorUrl : string := "https://example.com/vendor.js".
Definition reqApp := scriptRequest appUrl 0 100 50000.
Definition reqVendor := scriptRequest vendorUrl 110 250 80000.
Definition reqVendorLate := scriptRequest vendorUrl 160 250 80000.

(* ================================================================== *)
(** * Sample sessions *)
(* ================================================================== *)

(** A page whose provider hands back the sample record for JavaScript. *)
Definition samplePage : Page :=
  {| page_url := "https://example.com/";
     startJSCoverage := λ _, mkPromise 1 (Normal tt);
     startCSSCoverage := λ _, mkPromise 2 (Normal tt);
     stopJSCoverage := Normal [ sampleEntry ];
     stopCSSCoverage := Normal [] |}.

(** A page whose provider fails when JavaScript coverage is stopped. *)
Definition brokenPage : Page :=
  {| page_url := "https://example.com/";
     startJSCoverage := λ _, mkPromise 1 (Normal tt);
     startCSSCoverage := λ _, mkPromise 2 (Normal tt);
     stopJSCoverage := Throw "Target closed";
     stopCSSCoverage := Normal [] |}.

(** A session with coverage running for JavaScript and no report yet. *)
Definition runningWorld : World :=
  {| context := mkContext true (mkCoverageOptions true false) None;
     responseLines := [];
     providerCalls := [ StartJSCoverage true ] |}.

Definition idleWorld : World :=
  {| context := mkContext false (mkCoverageOptions true true) None;
     responseLines := [];
     providerCalls := [] |}.

Definition defaultStop : StopParams := mkStopParams None None.
Definition defaultStart : StartParams := mkStartParams None None None.
Definition defaultSplit : SplitParams := mkSplitParams None None.

Definition alreadyRunningLine : string :=
  "Error: coverage tracking is already running. Use coverage_stop to stop it. Only one coverage session can be running at any given time.".

Definition notRunningLines : list string :=
  [ "Error: No coverage tracking is running.";
    "";
    "To use coverage tracking:";
    "1. First call coverage_start to begin tracking";
    "2. Navigate or interact with the page";
    "3. Then call coverage_stop to get the report" ].

Definition reportErrorLines (errorText : string) : list string :=
  [ "An error occurred generating the coverage report:"; errorText ].

Definition paginationOf (params : StopParams) : PaginationOptions :=
  mkPaginationOptions (default 5%nat (p_pageSize params)) (default 0%nat (p_pageIdx params)).

(** A call of one of the three tools that deal with coverage, and a
    sequence of such calls in one session. *)
Inductive ToolCall :=
| CoverageStart (params : StartParams) (page : Page)
| CoverageStop (params : StopParams) (page : Page)
| SuggestCodeSplits (params : SplitParams).

Definition runCall `{Host} (call : ToolCall) (w : World) : World :=
  match call with
  | CoverageStart params page => (startCoverage params page w).1
  | CoverageStop params page => (stopCoverage params page w).1
  | SuggestCodeSplits params => (suggestCodeSplits params w).1
  end.

Definition runCalls `{Host} (calls : list ToolCall) (w : World) : World :=
  fold_left (λ w call, runCall call w) calls w.

(** Handler code that leaves the last-coverage-report slot as it is. *)
Definition keepsReport {A} (m : M A) : Prop :=
  ∀ w, getLastCoverageReport (context (m w).1) = getLastCoverageReport (context w).

(* ================================================================== *)
(** * Reading the lines of suggest_code_splits *)
(* ================================================================== *)

(** A line of lazy-load advice: a list item that opens with a bold name. *)
Definition isAdviceLine (line : string) : bool := startsWith "- **" line.

(** The title line of the table of all candidates. *)
Definition isAllCandidatesTitle (line : string) : bool :=
  String.eqb line allCandidatesTitle.

Section Candidates.
Context `{Host}.

(** The sorted [candidates] of the handler. *)
Definition candidatesOf (jsCoverage : list CoverageReportEntry)
    (minBundleSizeKB minUnusedPercent : Q) : list CodeSplitSuggestion :=
  sortCandidates
    (fold_left (scanEntry minBundleSizeKB minUnusedPercent) jsCoverage ([], [])).1.

Definition heavyDepsOf (jsCoverage : list CoverageReportEntry)
    (minBundleSizeKB minUnusedPercent : Q) : list (string * CoverageReportEntry) :=
  (fold_left (scanEntry minBundleSizeKB minUnusedPercent) jsCoverage ([], [])).2.

(** What the table of all candidates puts after its rows. *)
Definition moreOpportunities (candidates : list CodeSplitSuggestion) : list string :=
  if (15 <? length candidates)%nat
  then [ ""; "*...and " +:+ show_nat (length candidates - 15) +:+ " more opportunities*" ]
  else [].

End Candidates.

(** Entries of 60KB that are unused, first-party and named file0.js,
    file1.js, ... *)
Definition wastedEntry (i : nat) : CoverageReportEntry :=
  {| url := "https://example.com/file" +:+ show_nat i +:+ ".js";
     totalBytes := 61440; usedBytes := 0; unusedBytes := 61440;
     usagePercent := 0; isExternal := false |}.

Definition wastedEntries (n : nat) : list CoverageReportEntry :=
  wastedEntry <$> seq 0 n.

(* ================================================================== *)
(** * bundleAnalysis.ts: what is made of the chains *)
(* ================================================================== *)

(** [generatePreloadTags]: one tag for every URL of a chain but the first. *)
Definition preloadTag (u : string) : string :=
  "<link rel=" +:+ dquote +:+ "preload" +:+ dquote +:+ " href=" +:+ dquote +:+ u
  +:+ dquote +:+ " as=" +:+ dquote +:+ "script" +:+ dquote +:+ ">".

Definition generatePreloadTags (chains : list BundleChain) : list string :=
  flat_map (λ chain, map preloadTag (drop 1 (urls chain))) chains.

(** The loop [while (node) { combinedSize += node.sizeBytes;
    node = node.children[0]; }] of [identifyMergeCandidates]. *)
Fixpoint combinedSizeFrom (node : BundleChainNode) (combinedSize : float) : float :=
  let combinedSize := (combinedSize + node_sizeBytes node)%float in
  match children node with
  | [] => combinedSize
  | child :: _ => combinedSizeFrom child combinedSize
  end.

Record MergeCandidate := mkMergeCandidate {
  mc_urls : list string;
  combinedSizeKB : float;
  mc_reason : string;
}.

Definition identifyMergeCandidates (chains : list BundleChain) : list MergeCandidate :=
  flat_map (λ chain,
    if (2 <=? length (urls chain))%nat then
      [ {| mc_urls := urls chain;
           combinedSizeKB := (combinedSizeFrom (root chain) 0 / 1024)%float;
           mc_reason := "Always loaded together in sequence" |} ]
    else []) chains.

(* ================================================================== *)
(** * Notions for the further facts *)
(* ================================================================== *)

(** [y] starts when [x] has ended, at most the gap threshold later, and
    has another URL. *)
Definition follows (x y : TimedScript) : Prop :=
  ts_url x ≠ ts_url y
  ∧ (ts_endTimeMs x <=? ts_startTimeMs y)%float = true
  ∧ (ts_startTimeMs y <=? ts_endTimeMs x + CHAIN_GAP_THRESHOLD_MS)%float = true.

(** Each element of the list is in relation with the next one. *)
Fixpoint consecutive {A} (R : A → A → Prop) (l : list A) : Prop :=
  match l with
  | x :: ((y :: _) as rest) => R x y ∧ consecutive R rest
  | _ => True
  end.

(** The nodes along the [children[0]] links, from a node on. *)
Fixpoint chainNodesOf (n : BundleChainNode) : list BundleChainNode :=
  n ::
  match children n with
  | [] => []
  | child :: _ => chainNodesOf child
  end.

(** A node without its links. *)
Definition bare (n : BundleChainNode) : BundleChainNode := setChildren n [].

(** The chain [c] consists of the timed scripts [members], in this order:
    its nodes are theirs, its time runs from the start of the first to the
    end of the last. *)
Definition chainOf (members : list TimedScript) (c : BundleChain) : Prop :=
  depth c = length members
  ∧ urls c = ts_url <$> members
  ∧ bare <$> chainNodesOf (root c) = nodeOf <$> members
  ∧ match members with
    | [] => False
    | first :: _ =>
        totalTimeMs c
        = (ts_endTimeMs (List.last members first) - ts_startTimeMs first)%float
    end.

(** The two thresholds of the detector, as a test on a chain. *)
Definition meetsThresholds (minChainDepth : Z) (minChainTimeMs : float) (c : BundleChain)
  : bool :=
  (minChainDepth <=? Z.of_nat (depth c))%Z && (minChainTimeMs <=? totalTimeMs c)%float.

(** A request of resource type "script" that has a response with timing
    data. *)
Definition isTimedScript (r : HTTPRequest) : bool :=
  bool_decide (resourceType r = "script")
  && match response r with
     | Some resp => bool_decide (is_Some (timing resp))
     | None => false
     end.

(** What one of the two [if (options.include..)] blocks of coverage_stop
    gets from the provider: nothing when the kind is not enabled. *)
Definition collected (enabled : bool) (outcome : completion (list CoverageEntry))
  : completion (list CoverageEntry) :=
  if enabled then outcome else Normal [].

(** The promises that coverage_start gets from the provider. *)
Definition startedPromises (page : Page) (includeJS includeCSS resetOnNavigation : bool)
  : list (Promise unit) :=
  (if includeJS then [ startJSCoverage page resetOnNavigation ] else [])
  ++ (if includeCSS then [ startCSSCoverage page resetOnNavigation ] else []).

(** [p] rejects, and none of the promises rejects before it. *)
Definition rejectsFirst (p : Promise unit) (promises : list (Promise unit)) : Prop :=
  p ∈ promises
  ∧ (∃ e, outcome p = Throw e)
  ∧ ∀ q e, q ∈ promises → outcome q = Throw e → (settledAt p ≤ settledAt q)%nat.

(** How [await Promise.all] of coverage_start settles: with the reason of
    the start call that is the first to reject, normally when none does. *)
Definition startOutcome (page : Page) (includeJS includeCSS resetOnNavigation : bool)
  : completion unit :=
  match firstRejected (startedPromises page includeJS includeCSS resetOnNavigation) with
  | Some p => outcome p
  | None => Normal tt
  end.

(** The calls that coverage_start makes to the provider. *)
Definition startCalls (includeJS includeCSS resetOnNavigation : bool) : list ProviderCall :=
  (if includeJS then [ StartJSCoverage resetOnNavigation ] else [])
  ++ (if includeCSS then [ StartCSSCoverage resetOnNavigation ] else []).

Definition startedLine (includeJS includeCSS : bool) : string :=
  "Coverage tracking started for "
  +:+ join " and " ((if includeJS then [ "JavaScript" ] else [])
                    ++ (if includeCSS then [ "CSS" ] else []))
  +:+ ". Use coverage_stop to stop tracking and get the report.".

(** An entry has the same unused bytes as [k]. *)
Definition hasUnused (k : Z) (e : CoverageReportEntry) : bool := (unusedBytes e =? k)%Z.



(** [a] may stand in front of [b] among the sorted candidates: a more
    urgent priority, or the same priority and no fewer unused bytes. *)
Definition candidateBefore (a b : CodeSplitSuggestion) : Prop :=
  (priorityOrder (priority a) < priorityOrder (priority b))%Z
  ∨ (priorityOrder (priority a) = priorityOrder (priority b)
     ∧ (cs_unusedBytes b ≤ cs_unusedBytes a)%Z).




Definition noCoverageDataLines : list string :=
  [ "## Error: No Coverage Data Available";
    "";
    "You must run coverage tracking before using this tool:";
    "1. Call `coverage_start` to begin tracking";
    "2. Navigate or interact with the page";
    "3. Call `coverage_stop` to collect data";
    "4. Then call `suggest_code_splits` to analyze" ].

Definition noJavaScriptLines : list string :=
  [ "## No JavaScript Coverage Data";
    "";
    "No JavaScript files were captured in the coverage report." ].

(** One rung of the priority ladder. *)
Definition rung (bytes : Z) (percent : Q) (unusedBytes : Z) (unusedPercent : Q) : bool :=
  (bytes <? unusedBytes)%Z || Qltb percent unusedPercent.

(** The string occurs in the other one. *)
Definition occursIn (pattern s : string) : Prop := ∃ a b, s = a +:+ pattern +:+ b.

(** The text holds a slash. *)
Definition hasSlash (s : string) : bool := includes "/" s.

(* ================================================================== *)
(** * Facts *)
(* ================================================================== *)

(* ================================================================== *)
(** * Strings *)
(* ================================================================== *)

Lemma append_cons (c : ascii) (a b : string) : String c a +:+ b = String c (a +:+ b).
Proof. reflexivity. Qed.

Lemma append_nil_l (a : string) : "" +:+ a = a.
Proof. reflexivity. Qed.

Lemma append_assoc (a b c : string) : (a +:+ b) +:+ c = a +:+ (b +:+ c).
Proof.
  induction a as [|x a IH]; [reflexivity |].
  by rewrite !append_cons, IH.
Qed.

Lemma append_nil_r (a : string) : a +:+ "" = a.
Proof.
  induction a as [|x a IH]; [reflexivity |].
  by rewrite append_cons, IH.
Qed.

Lemma toLowerCase_app (a b : string) :
  toLowerCase (a +:+ b) = toLowerCase a +:+ toLowerCase b.
Proof.
  induction a as [|x a IH]; [reflexivity |].
  rewrite append_cons. cbn [toLowerCase]. by rewrite IH, append_cons.
Qed.

Lemma prefix_cons (c d : ascii) (p s : string) :
  String.prefix (String c p) (String d s) = true ↔ c = d ∧ String.prefix p s = true.
Proof.
  simpl. destruct (ascii_dec c d) as [->|Hne]; [tauto |].
  split; [discriminate | intros [? _]; contradiction].
Qed.

Lemma prefix_nil (s : string) : String.prefix "" s = true.
Proof. destruct s; reflexivity. Qed.

Lemma prefix_spec (p s : string) :
  String.prefix p s = true ↔ ∃ r, s = p +:+ r.
Proof.
  revert s. induction p as [|c p IH]; intros s.
  - rewrite prefix_nil. split; [eauto | done].
  - destruct s as [|d s].
    + split; [discriminate | intros [r Hr]; rewrite append_cons in Hr; discriminate].
    + rewrite prefix_cons, IH. split.
      * intros [-> [r ->]]. exists r. by rewrite append_cons.
      * intros [r Hr]. rewrite append_cons in Hr. simplify_eq. eauto.
Qed.

Lemma includes_prefix (pattern s : string) :
  String.prefix pattern s = true → includes pattern s = true.
Proof. intros Hp. destruct s; cbn [includes]; rewrite Hp; reflexivity. Qed.

Lemma includes_cons (pattern : string) (c : ascii) (s : string) :
  includes pattern s = true → includes pattern (String c s) = true.
Proof. intros Hs. cbn [includes]. rewrite Hs. apply orb_true_r. Qed.

Lemma includes_spec (pattern s : string) :
  includes pattern s = true ↔ ∃ a b, s = a +:+ pattern +:+ b.
Proof.
  split.
  - induction s as [|c s IH]; cbn [includes]; rewrite orb_true_iff.
    + intros [Hp | ?]; [| discriminate].
      apply prefix_spec in Hp as [r ->]. by exists "", r.
    + intros [Hp | Hs].
      * apply prefix_spec in Hp as [r ->]. by exists "", r.
      * destruct (IH Hs) as (a & b & ->). by exists (String c a), b.
  - intros (a & b & ->). induction a as [|c a IH].
    + apply includes_prefix, prefix_spec. eauto.
    + rewrite append_cons. by apply includes_cons.
Qed.

Lemma includes_app_r (pattern a b : string) :
  includes pattern b = true → includes pattern (a +:+ b) = true.
Proof.
  rewrite !includes_spec. intros (x & y & ->).
  exists (a +:+ x), y. by rewrite append_assoc.
Qed.

Lemma includes_app_l (pattern a b : string) :
  includes pattern a = true → includes pattern (a +:+ b) = true.
Proof.
  rewrite !includes_spec. intros (x & y & ->).
  exists x, (y +:+ b). by rewrite !append_assoc.
Qed.

Lemma includes_trans (p q s : string) :
  includes p q = true → includes q s = true → includes p s = true.
Proof.
  intros Hpq. rewrite (includes_spec q s). intros (a & b & ->).
  by apply includes_app_r, includes_app_l.
Qed.

Lemma includes_toLowerCase (pattern s : string) :
  includes pattern s = true → includes (toLowerCase pattern) (toLowerCase s) = true.
Proof.
  rewrite !includes_spec. intros (a & b & ->).
  exists (toLowerCase a), (toLowerCase b). by rewrite !toLowerCase_app.
Qed.

(** A prefix of [a +:+ b] lies within [a] or runs over all of [a]. *)
Lemma prefix_app_cases (pattern a b : string) :
  String.prefix pattern (a +:+ b) = true →
  String.prefix pattern a = true
  ∨ ∃ y, pattern = a +:+ y ∧ String.prefix y b = true.
Proof.
  revert pattern. induction a as [|c a IH]; intros pattern Hp.
  - right. by exists pattern.
  - destruct pattern as [|d pattern]; [left; reflexivity |].
    rewrite append_cons in Hp.
    apply prefix_cons in Hp as [-> Hp].
    destruct (IH _ Hp) as [Ha | (y & -> & Hy)].
    + left. by apply prefix_cons.
    + right. by exists y.
Qed.

Lemma splits_app (x y : string) : (x, y) ∈ splits (x +:+ y).
Proof.
  induction x as [|c x IH].
  - rewrite append_nil_l. destruct y; apply list_elem_of_here.
  - rewrite append_cons. cbn [splits]. apply list_elem_of_further.
    apply (list_elem_of_fmap_2 (λ xy, (String c (fst xy), snd xy)) _ (x, y)), IH.
Qed.

Lemma endsWithSlash_app (a x l : string) :
  x ≠ "" → a +:+ x = l +:+ "/" → endsWithSlash x = true.
Proof.
  intros Hx. revert l. induction a as [|c a IH]; intros l.
  - rewrite append_nil_l. intros ->. clear Hx.
    induction l as [|d l IHl]; [reflexivity |].
    rewrite append_cons. cbn [endsWithSlash].
    destruct (l +:+ "/") eqn:E; [by destruct l | exact IHl].
  - rewrite append_cons. destruct l as [|d l].
    + rewrite append_nil_l. intros E. simplify_eq.
      destruct a; [by destruct x | done].
    + rewrite append_cons. intros E. simplify_eq. eauto.
Qed.

(** An occurrence of [pattern] in [l +:+ "/" +:+ b] lies in the front part,
    in [b], or across the two. *)
Lemma includes_app_cases (pattern l b : string) :
  includes pattern ((l +:+ "/") +:+ b) = true →
  includes pattern (l +:+ "/") = true
  ∨ includes pattern b = true
  ∨ straddles pattern b = true.
Proof.
  assert (G : ∀ a a0, a0 +:+ a = l +:+ "/" →
    includes pattern (a +:+ b) = true →
    includes pattern a = true ∨ includes pattern b = true ∨ straddles pattern b = true).
  { induction a as [|c a IH]; intros a0 Ha0 Hin.
    - right. left. exact Hin.
    - rewrite append_cons in Hin.
      cbn [includes] in Hin. apply orb_true_iff in Hin as [Hp | Hin].
      + rewrite <- append_cons in Hp.
        apply prefix_app_cases in Hp as [Hp | (y & -> & Hy)].
        * left. by apply includes_prefix.
        * destruct (String.eqb y "") eqn:Ey.
          { apply String.eqb_eq in Ey as ->. left.
            rewrite append_nil_r. apply includes_prefix, prefix_spec.
            exists "". by rewrite append_nil_r. }
          right. right. unfold straddles. apply existsb_exists.
          exists (String c a, y). split; [apply list_elem_of_In, (splits_app (String c a) y) |].
          simpl fst. simpl snd. rewrite Ey, Hy.
          rewrite (endsWithSlash_app a0 (String c a) l); [reflexivity | done | done].
      + destruct (IH (a0 +:+ String c "")) as [Ha | Hrest]; [| done | |].
        * rewrite append_assoc. exact Ha0.
        * left. by apply includes_cons.
        * right. exact Hrest. }
  apply (G (l +:+ "/") ""). reflexivity.
Qed.

(* ================================================================== *)
(** * Heavy-dependency detection *)
(* ================================================================== *)

Lemma detectHeavyDependency_unfold (u : string) :
  detectHeavyDependency u = find (depMatches (toLowerCase u)) dependencyNames.
Proof. reflexivity. Qed.

Lemma depMatches_intro (lowerUrl dep pattern : string) :
  pattern ∈ depPatterns dep → includes pattern lowerUrl = true →
  depMatches lowerUrl dep = true.
Proof.
  intros Hin Hinc. unfold depMatches, some. apply existsb_exists.
  exists pattern. split; [by apply list_elem_of_In | done].
Qed.

(** Past "moment", the only name declared before it, "lodash" is found as
    soon as one of its patterns occurs. *)
Lemma detect_lodash (u pattern : string) :
  depMatches (toLowerCase u) "moment" = false →
  pattern ∈ depPatterns "lodash" → includes pattern (toLowerCase u) = true →
  detectHeavyDependency u = Some "lodash".
Proof.
  intros Hm Hin Hinc. rewrite detectHeavyDependency_unfold.
  change dependencyNames with ("moment" :: "lodash" :: drop 2 dependencyNames).
  cbn [find]. rewrite Hm, (depMatches_intro _ _ _ Hin Hinc). reflexivity.
Qed.

(** The file name my-lodashthing.js holds no pattern of the table, and no
    pattern can sit across the slash in front of it. *)
Lemma my_lodashthing_clean :
  forallb (λ dep,
    forallb (λ pattern,
      negb (includes pattern "my-lodashthing.js")
      && negb (straddles pattern "my-lodashthing.js")) (depPatterns dep))
    dependencyNames = true.
Proof. vm_compute. reflexivity. Qed.

(** C8 as stated does not hold for every such URL: a URL that ends in
    /lodash.js, or contains /node_modules/lodash/lodash.js, below a
    "moment" directory resolves the earlier entry "moment", and a URL
    that ends in /my-lodashthing.js below a "lodash" directory resolves
    "lodash". *)
Lemma detectHeavyDependency_lodash_other_matches :
  (∃ p, "https://example.com/moment/lodash.js" = p +:+ "/lodash.js")
  ∧ detectHeavyDependency "https://example.com/moment/lodash.js" = Some "moment"
  ∧ includes "/node_modules/lodash/lodash.js"
      "https://example.com/moment/node_modules/lodash/lodash.js" = true
  ∧ detectHeavyDependency "https://example.com/moment/node_modules/lodash/lodash.js"
    = Some "moment"
  ∧ (∃ p, "https://example.com/lodash/my-lodashthing.js" = p +:+ "/my-lodashthing.js")
  ∧ detectHeavyDependency "https://example.com/lodash/my-lodashthing.js" = Some "lodash".
Proof.
  split; [by exists "https://example.com/moment" |].
  split; [by vm_compute |]. split; [by vm_compute |]. split; [by vm_compute |].
  split; [by exists "https://example.com/lodash" | by vm_compute].
Qed.

(** C8 (amended): [detectHeavyDependency] resolves "lodash" for a URL
    ending in /lodash.js and for a URL containing
    /node_modules/lodash/lodash.js as long as no pattern of the earlier
    entry "moment" occurs in the URL, which then wins; and it resolves no
    dependency for a URL ending in /my-lodashthing.js whose part up to
    that file name resolves none. In particular for the three URLs under
    https://example.com. *)
Theorem detectHeavyDependency_lodash :
  (∀ u, depMatches (toLowerCase u) "moment" = false →
        (∃ p, u = p +:+ "/lodash.js") →
        detectHeavyDependency u = Some "lodash")
  ∧ (∀ u, depMatches (toLowerCase u) "moment" = false →
          includes "/node_modules/lodash/lodash.js" u = true →
          detectHeavyDependency u = Some "lodash")
  ∧ (∀ p, detectHeavyDependency (p +:+ "/") = None →
          detectHeavyDependency (p +:+ "/my-lodashthing.js") = None)
  ∧ detectHeavyDependency "https://example.com/lodash.js" = Some "lodash"
  ∧ detectHeavyDependency "https://example.com/node_modules/lodash/lodash.js"
    = Some "lodash"
  ∧ detectHeavyDependency "https://example.com/my-lodashthing.js" = None.
Proof.
  split; [| split; [| split; [| by vm_compute]]].
  - intros u Hm [p ->].
    apply (detect_lodash _ "/lodash."); [done | | ].
    + apply list_elem_of_In. simpl. tauto.
    + rewrite toLowerCase_app. by apply includes_app_r.
  - intros u Hm Hinc.
    apply (detect_lodash _ "/lodash/"); [done | | ].
    + apply list_elem_of_In. simpl. tauto.
    + apply includes_toLowerCase in Hinc.
      eapply includes_trans; [| exact Hinc]. reflexivity.
  - intros p Hnone.
    rewrite detectHeavyDependency_unfold in *.
    destruct (find _ dependencyNames) as [dep|] eqn:Hfind in |- *; [| reflexivity].
    exfalso. apply find_some in Hfind as [Hdep Hmatch].
    pose proof (find_none _ _ Hnone dep Hdep) as Hfront.
    pose proof my_lodashthing_clean as Hclean.
    rewrite forallb_forall in Hclean. specialize (Hclean dep Hdep).
    rewrite forallb_forall in Hclean.
    unfold depMatches, some in Hmatch, Hfront.
    apply existsb_exists in Hmatch as (pattern & Hpat & Hinc).
    specialize (Hclean pattern Hpat).
    apply andb_true_iff in Hclean as [Hb Hs].
    apply negb_true_iff in Hb, Hs.
    assert (Hno : includes pattern (toLowerCase (p +:+ "/")) = false).
    { destruct (includes pattern (toLowerCase (p +:+ "/"))) eqn:E; [| reflexivity].
      assert (existsb (λ pattern, includes pattern (toLowerCase (p +:+ "/")))
                (depPatterns dep) = true) as Hex
        by (apply existsb_exists; eauto).
      congruence. }
    change "/my-lodashthing.js" with ("/" +:+ "my-lodashthing.js") in Hinc.
    rewrite <- append_assoc, toLowerCase_app in Hinc.
    rewrite toLowerCase_app in Hinc, Hno.
    change (toLowerCase "/") with "/" in Hinc, Hno.
    change (toLowerCase "my-lodashthing.js") with "my-lodashthing.js" in Hinc.
    apply includes_app_cases in Hinc as [? | [? | ?]]; congruence.
Qed.

Lemma detectHeavyDependency_lodash_witness :
  detectHeavyDependency "https://cdn.example.org/js/lodash.js" = Some "lodash"
  ∧ detectHeavyDependency "https://cdn.example.org/js/my-lodashthing.js" = None.
Proof.
  split.
  - apply (proj1 detectHeavyDependency_lodash).
    + vm_compute. reflexivity.
    + exists "https://cdn.example.org/js". reflexivity.
  - apply (proj1 (proj2 (proj2 detectHeavyDependency_lodash)) "https://cdn.example.org/js").
    vm_compute. reflexivity.
Defined.

(* ================================================================== *)
(** * Priority scoring *)
(* ================================================================== *)

Lemma Qltb_lt (x y : Q) : Qltb x y = true ↔ (x < y)%Q.
Proof.
  unfold Qltb. rewrite negb_true_iff, <- not_true_iff_false, Qle_bool_iff.
  split; [apply Qnot_le_lt | apply Qlt_not_le].
Qed.

Lemma Qltb_ge (x y : Q) : Qltb x y = false ↔ (y <= x)%Q.
Proof. unfold Qltb. rewrite negb_false_iff. apply Qle_bool_iff. Qed.

(** C2 as stated does not hold: at exactly 100KB unused and
    exactly 50% unused neither strict comparison of the first rung
    succeeds, so the result is not [critical]. *)
Lemma determinePriority_boundary_not_critical :
  determinePriority (100 * 1024) 50 ≠ critical.
Proof. vm_compute. discriminate. Qed.

(** C2 (amended): a bundle with exactly 100KB (100*1024 bytes) unused and
    exactly 50% unused is assigned priority [high]; [critical] is assigned
    exactly when the unused bytes strictly exceed 100*1024 or the unused
    percentage strictly exceeds 50. *)
Theorem determinePriority_boundary_high :
  determinePriority (100 * 1024) 50 = high
  ∧ ∀ (unusedBytes : Z) (unusedPercent : Q),
      determinePriority unusedBytes unusedPercent = critical
      ↔ (100 * 1024 < unusedBytes)%Z ∨ (50 < unusedPercent)%Q.
Proof.
  split; [reflexivity |].
  intros b p. unfold determinePriority.
  destruct (100 * 1024 <? b)%Z eqn:Hb; simpl.
  - apply Z.ltb_lt in Hb. tauto.
  - apply Z.ltb_ge in Hb.
    destruct (Qltb 50 p) eqn:Hp.
    + apply Qltb_lt in Hp. tauto.
    + apply Qltb_ge in Hp.
      assert (Hno : ¬ ((100 * 1024 < b)%Z ∨ (50 < p)%Q)).
      { intros [?|?]; [lia | lra]. }
      repeat match goal with
             | |- context [if ?c then _ else _] => destruct c
             end; split; (discriminate || tauto).
Qed.

(* ================================================================== *)
(** * The coverage classifier *)
(* ================================================================== *)

Section ClassifierFacts.
Context `{Host}.

Lemma isThirdParty_total (u pageUrl : string) :
  ∃ b, isThirdParty u pageUrl = Normal b.
Proof.
  unfold isThirdParty, try_catch.
  destruct (isThirdParty_try u pageUrl); eauto.
Qed.

(** C6: [isThirdParty] returns a boolean for every pair of strings and
    never throws. It answers [false] when the URL starts with data: or
    blob:, [false] when either URL fails to parse, and, for a URL the
    first rule does not cover, [true] when both parse and the origins
    differ. *)
Theorem isThirdParty_never_throws (u pageUrl : string) :
  (∃ b, isThirdParty u pageUrl = Normal b)
  ∧ (startsWith "data:" u = true ∨ startsWith "blob:" u = true →
     isThirdParty u pageUrl = Normal false)
  ∧ (parseURL u = None ∨ parseURL pageUrl = None →
     isThirdParty u pageUrl = Normal false)
  ∧ (∀ urlObj pageUrlObj,
       startsWith "data:" u = false → startsWith "blob:" u = false →
       parseURL u = Some urlObj → parseURL pageUrl = Some pageUrlObj →
       origin urlObj ≠ origin pageUrlObj →
       isThirdParty u pageUrl = Normal true).
Proof.
  split; [apply isThirdParty_total |].
  unfold isThirdParty, isThirdParty_try, try_catch, newURL.
  split; [| split].
  - intros [-> | ->]; [reflexivity | rewrite orb_true_r; reflexivity].
  - intros Hfail.
    destruct (startsWith "data:" u || startsWith "blob:" u); [reflexivity |].
    destruct (parseURL u) as [a|]; simpl; [| reflexivity].
    destruct Hfail as [Hfail | Hfail]; [discriminate |].
    rewrite Hfail. reflexivity.
  - intros a b -> -> -> -> Hne. simpl.
    apply String.eqb_neq in Hne. rewrite Hne. reflexivity.
Qed.

(** ** Byte accounting *)

Lemma sumRanges_foldr (ranges : list Range) :
  sumRanges ranges = foldr (λ r acc, (r_end r - r_start r + acc)%Z) 0%Z ranges.
Proof.
  unfold sumRanges.
  assert (G : ∀ acc,
    fold_left (λ used range, (used + (r_end range - r_start range))%Z) ranges acc
    = (acc + foldr (λ r a, (r_end r - r_start r + a)%Z) 0%Z ranges)%Z).
  { induction ranges as [|r l IH]; intros acc; simpl; [lia |]. rewrite IH. lia. }
  rewrite G. lia.
Qed.

Lemma sumBelow_bound (len : Z) (ranges : list Range) :
  withinBounds len ranges → sumBelow len ranges = sumRanges ranges.
Proof.
  rewrite sumRanges_foldr. unfold withinBounds, sumBelow, below.
  induction 1 as [|r l Hr _ IH]; simpl; [reflexivity |].
  rewrite IH. lia.
Qed.

Lemma sumBelow_0 (len : Z) (ranges : list Range) :
  withinBounds len ranges → sumBelow 0 ranges = 0%Z.
Proof.
  unfold withinBounds, sumBelow, below.
  induction 1 as [|r l Hr _ IH]; simpl; [reflexivity |].
  rewrite IH. lia.
Qed.

Lemma sumBelow_nonneg (len n : Z) (ranges : list Range) :
  withinBounds len ranges → (0 ≤ sumBelow n ranges)%Z.
Proof.
  unfold withinBounds, sumBelow, below.
  induction 1 as [|r l Hr _ IH]; simpl; lia.
Qed.

(** An offset that no range holds adds nothing. *)
Lemma sumBelow_skip (len n : Z) (ranges : list Range) :
  withinBounds len ranges →
  Forall (λ r, ¬ inRange r n) ranges →
  sumBelow (n + 1) ranges = sumBelow n ranges.
Proof.
  unfold withinBounds, sumBelow, below, inRange.
  induction 1 as [|r l Hr _ IH]; simpl; [reflexivity |].
  intros Hn. apply Forall_cons in Hn as [Hrn Hl].
  rewrite (IH Hl). lia.
Qed.

(** Ranges that do not overlap hold an offset at most once. *)
Lemma sumBelow_step (len n : Z) (ranges : list Range) :
  withinBounds len ranges → nonOverlapping ranges →
  (sumBelow (n + 1) ranges ≤ sumBelow n ranges + 1)%Z.
Proof.
  intros Hb Hd. revert Hb.
  induction Hd as [|r l Hr Hl IH]; intros Hb; simpl; [lia |].
  apply Forall_cons in Hb as [Hrb Hlb].
  destruct (decide (inRange r n)) as [Hin | Hout].
  - assert (Hskip : Forall (λ r', ¬ inRange r' n) l).
    { eapply Forall_impl; [exact Hr |]. intros r' Hrr' Hin'. exact (Hrr' n (conj Hin Hin')). }
    fold (sumBelow (n + 1) l). fold (sumBelow n l).
    rewrite (sumBelow_skip len n l Hlb Hskip).
    unfold below, inRange in *. lia.
  - specialize (IH Hlb).
    fold (sumBelow (n + 1) l). fold (sumBelow n l).
    unfold below, inRange in *. lia.
Qed.

Lemma sumBelow_le (len : Z) (ranges : list Range) (n : nat) :
  withinBounds len ranges → nonOverlapping ranges →
  (sumBelow (Z.of_nat n) ranges ≤ Z.of_nat n)%Z.
Proof.
  intros Hb Hd. induction n as [|n IH].
  - simpl. rewrite (sumBelow_0 len); [lia | done].
  - rewrite Nat2Z.inj_succ, <- Z.add_1_r.
    pose proof (sumBelow_step len (Z.of_nat n) ranges Hb Hd). lia.
Qed.

(** Well-formed executed ranges cover at most the whole text. *)
Lemma sumRanges_bounds (len : nat) (ranges : list Range) :
  withinBounds (Z.of_nat len) ranges → nonOverlapping ranges →
  (0 ≤ sumRanges ranges ≤ Z.of_nat len)%Z.
Proof.
  intros Hb Hd. rewrite <- (sumBelow_bound _ _ Hb). split.
  - eapply sumBelow_nonneg; eauto.
  - eapply sumBelow_le; eauto.
Qed.

Lemma percent_bounds (used total : Z) :
  (0 ≤ used ≤ total)%Z → (0 < total)%Z →
  (0 <= inject_Z used / inject_Z total * 100 <= 100)%Q.
Proof.
  intros [H0 H1] Ht.
  assert (Hq0 : (0 <= inject_Z used)%Q) by (change 0%Q with (inject_Z 0); by rewrite <- Zle_Qle).
  assert (Hq1 : (inject_Z used <= inject_Z total)%Q) by (by rewrite <- Zle_Qle).
  assert (Hqt : (0 < inject_Z total)%Q) by (change 0%Q with (inject_Z 0); by rewrite <- Zlt_Qlt).
  assert (Hlo : (0 <= inject_Z used / inject_Z total)%Q).
  { apply Qle_shift_div_l; [done | lra]. }
  assert (Hhi : (inject_Z used / inject_Z total <= 1)%Q).
  { apply Qle_shift_div_r; [done | lra]. }
  split; lra.
Qed.

(** C5: for every coverage record whose executed ranges are non-overlapping
    half-open intervals within [0, sourceLength], [calculateCoverageEntry]
    produces an entry with usedBytes + unusedBytes = totalBytes and
    0 <= usagePercent <= 100. *)
Theorem calculateCoverageEntry_invariant (entry : CoverageEntry) (pageUrl : string) :
  withinBounds (Z.of_nat (String.length (ce_text entry))) (ce_ranges entry) →
  nonOverlapping (ce_ranges entry) →
  ∃ e, calculateCoverageEntry entry pageUrl = Normal e
       ∧ (usedBytes e + unusedBytes e = totalBytes e)%Z
       ∧ (0 <= usagePercent e <= 100)%Q.
Proof.
  intros Hb Hd.
  destruct (isThirdParty_total (ce_url entry) pageUrl) as [ext Hext].
  unfold calculateCoverageEntry. rewrite Hext. simpl.
  eexists. split; [reflexivity |]. simpl. split; [lia |].
  pose proof (sumRanges_bounds _ _ Hb Hd) as Hs.
  destruct (0 <? Z.of_nat (String.length (ce_text entry)))%Z eqn:Hpos.
  - apply Z.ltb_lt in Hpos. by apply percent_bounds.
  - split; lra.
Qed.

End ClassifierFacts.

Lemma calculateCoverageEntry_invariant_witness :
  ∃ e, @calculateCoverageEntry sampleHost sampleEntry "https://example.com/" = Normal e
       ∧ (usedBytes e + unusedBytes e = totalBytes e)%Z
       ∧ (0 <= usagePercent e <= 100)%Q.
Proof.
  apply (@calculateCoverageEntry_invariant sampleHost sampleEntry "https://example.com/").
  - repeat constructor; simpl; lia.
  - repeat constructor.
Defined.

Lemma isThirdParty_never_throws_witness :
  @isThirdParty sampleHost "https://cdn.example.org/lib.js" "https://example.com/" = Normal true.
Proof.
  refine (proj2 (proj2 (proj2
    (@isThirdParty_never_throws sampleHost "https://cdn.example.org/lib.js"
       "https://example.com/"))) (mkURL "https://cdn.example.org" "/lib.js")
       (mkURL "https://example.com" "/") _ _ _ _ _);
    [reflexivity | reflexivity | reflexivity | reflexivity | discriminate].
Defined.

(* ================================================================== *)
(** * The order of the binary64 numbers *)
(* ================================================================== *)

(** Derived from the specification of the binary64 operations
    ([SpecFloat]): the comparisons of numbers that are no NaN are the
    comparisons of their ranks, and the rounded difference of two numbers
    has the sign of the exact one. This is what the sort by end time and
    the threshold tests of the chain detector rest on. *)

Section NumberOrder.
Local Open Scope Z_scope.

Lemma digits2_pos_bounds (m : positive) :
  2 ^ (Zpos (digits2_pos m) - 1) <= Zpos m < 2 ^ Zpos (digits2_pos m).
Proof.
  induction m as [m IH|m IH|]; cbn [digits2_pos].
  - rewrite Pos2Z.inj_succ, Z.pow_succ_r by lia.
    replace (Z.succ (Zpos (digits2_pos m)) - 1) with (Z.succ (Zpos (digits2_pos m) - 1)) by lia.
    rewrite Z.pow_succ_r by lia. lia.
  - rewrite Pos2Z.inj_succ, Z.pow_succ_r by lia.
    replace (Z.succ (Zpos (digits2_pos m)) - 1) with (Z.succ (Zpos (digits2_pos m) - 1)) by lia.
    rewrite Z.pow_succ_r by lia. lia.
  - simpl. lia.
Qed.

Lemma bounded_inv (m : positive) (e : Z) :
  bounded prec emax m e = true →
  -1074 <= e <= 971 ∧ Zpos (digits2_pos m) <= 53
  ∧ (Zpos (digits2_pos m) = 53 ∨ e = -1074).
Proof.
  unfold bounded, canonical_mantissa, fexp, SpecFloat.emin, prec, emax.
  rewrite andb_true_iff, Z.eqb_eq, Z.leb_le. lia.
Qed.

Lemma pow2_pos (k : Z) : 0 <= k → 0 < 2 ^ k.
Proof. intros. apply Z.pow_pos_nonneg; lia. Qed.

Lemma mantissa_lt_53 (m : positive) (e : Z) :
  bounded prec emax m e = true → Zpos m < 2 ^ 53.
Proof.
  intros (He & Hd & _)%bounded_inv.
  pose proof (digits2_pos_bounds m) as [_ Hm].
  eapply Z.lt_le_trans; [exact Hm |]. apply Z.pow_le_mono_r; lia.
Qed.

Lemma mag_bound (m : positive) (e : Z) :
  bounded prec emax m e = true →
  0 < Zpos m * 2 ^ (e + 1074) < 2 ^ 2098.
Proof.
  intros Hb. pose proof (mantissa_lt_53 m e Hb) as Hm.
  apply bounded_inv in Hb as (He & _).
  pose proof (pow2_pos (e + 1074) ltac:(lia)) as Hp.
  assert (2 ^ (e + 1074) <= 2 ^ 2045) as Hle by (apply Z.pow_le_mono_r; lia).
  replace (2 ^ 2098) with (2 ^ 53 * 2 ^ 2045) by (rewrite <- Z.pow_add_r by lia; reflexivity).
  split; [lia |].
  apply Z.lt_le_trans with (2 ^ 53 * 2 ^ (e + 1074)).
  - apply Z.mul_lt_mono_pos_r; lia.
  - apply Z.mul_le_mono_nonneg_l; [| lia]. apply Z.pow_nonneg. lia.
Qed.

Lemma mag_lt (m1 m2 : positive) (e1 e2 : Z) :
  bounded prec emax m1 e1 = true → bounded prec emax m2 e2 = true →
  e1 < e2 → Zpos m1 * 2 ^ (e1 + 1074) < Zpos m2 * 2 ^ (e2 + 1074).
Proof.
  intros Hb1 Hb2 Hlt. pose proof (mantissa_lt_53 m1 e1 Hb1) as Hm1.
  apply bounded_inv in Hb1 as (He1 & _).
  apply bounded_inv in Hb2 as (He2 & Hd2 & Hn2).
  assert (Zpos (digits2_pos m2) = 53) as Hd by lia.
  pose proof (digits2_pos_bounds m2) as [Hm2 _]. rewrite Hd in Hm2.
  change (53 - 1) with 52 in Hm2.
  pose proof (pow2_pos (e1 + 1074) ltac:(lia)) as Hp.
  replace (e2 + 1074) with ((e2 - e1 - 1) + 1 + (e1 + 1074)) by lia.
  rewrite (Z.pow_add_r 2 (e2 - e1 - 1 + 1) (e1 + 1074)), (Z.pow_add_r 2 (e2 - e1 - 1) 1) by lia.
  pose proof (pow2_pos (e2 - e1 - 1) ltac:(lia)) as Hq.
  change (2 ^ 1) with 2.
  replace (2 ^ 53) with (2 ^ 52 * 2) in Hm1 by reflexivity.
  set (P := 2 ^ (e1 + 1074)) in *. set (Q := 2 ^ (e2 - e1 - 1)) in *.
  set (T := 2 ^ 52) in *.
  assert (Zpos m1 * P < T * 2 * P) by (apply Z.mul_lt_mono_pos_r; lia).
  assert (T * 2 * P <= Zpos m2 * (Q * 2 * P)); [| lia].
  replace (Zpos m2 * (Q * 2 * P)) with ((Zpos m2 * Q) * (2 * P)) by ring.
  replace (T * 2 * P) with (T * (2 * P)) by ring.
  apply Z.mul_le_mono_nonneg_r; [lia |].
  assert (T <= Z.pos m2 * 1) by lia.
  eapply Z.le_trans; [exact H0 |]. apply Z.mul_le_mono_nonneg_l; lia.
Qed.

Lemma mul_compare_r (a b p : Z) : 0 < p → (a * p ?= b * p) = (a ?= b).
Proof.
  intros Hp. destruct (Z.compare_spec a b) as [-> | Hlt | Hgt].
  - apply Z.compare_refl.
  - apply Z.compare_lt_iff. nia.
  - apply Z.compare_gt_iff. nia.
Qed.

Lemma switch_Eq_Eq (c : comparison) : Pos.switch_Eq Eq c = c.
Proof. by destruct c. Qed.

Lemma SFcompare_ord (f1 f2 : spec_float) :
  valid_binary f1 = true → valid_binary f2 = true → notNaN f1 → notNaN f2 →
  SFcompare f1 f2 = Some (ord f1 ?= ord f2).
Proof.
  intros Hv1 Hv2 Hn1 Hn2.
  assert (0 < 2 ^ 2098) as Hinf by (apply pow2_pos; lia).
  destruct f1 as [s1|s1| |s1 m1 e1], f2 as [s2|s2| |s2 m2 e2];
    unfold notNaN in *; try congruence; cbn [SFcompare ord valid_binary] in *.
  - reflexivity.
  - f_equal. destruct s2; cbn [cond_Zopp]; symmetry;
      [apply Z.compare_gt_iff | apply Z.compare_lt_iff]; lia.
  - pose proof (mag_bound m2 e2 Hv2). f_equal.
    destruct s2; cbn [cond_Zopp]; symmetry;
      [apply Z.compare_gt_iff | apply Z.compare_lt_iff]; lia.
  - f_equal. destruct s1; cbn [cond_Zopp]; symmetry;
      [apply Z.compare_lt_iff | apply Z.compare_gt_iff]; lia.
  - f_equal. destruct s1, s2; cbn [cond_Zopp]; symmetry;
      [apply Z.compare_eq_iff | apply Z.compare_lt_iff
       | apply Z.compare_gt_iff | apply Z.compare_eq_iff]; lia.
  - pose proof (mag_bound m2 e2 Hv2). f_equal.
    destruct s1; cbn [cond_Zopp]; destruct s2; cbn [cond_Zopp]; symmetry;
      first [apply Z.compare_lt_iff; lia | apply Z.compare_gt_iff; lia].
  - pose proof (mag_bound m1 e1 Hv1). f_equal.
    destruct s1; cbn [cond_Zopp]; symmetry;
      [apply Z.compare_lt_iff | apply Z.compare_gt_iff]; lia.
  - pose proof (mag_bound m1 e1 Hv1). f_equal.
    destruct s2; cbn [cond_Zopp]; destruct s1; cbn [cond_Zopp]; symmetry;
      first [apply Z.compare_lt_iff; lia | apply Z.compare_gt_iff; lia].
  - pose proof (mag_bound m1 e1 Hv1) as B1. pose proof (mag_bound m2 e2 Hv2) as B2.
    f_equal.
    destruct s1, s2; cbn [cond_Zopp].
    + destruct (Z.compare_spec e1 e2) as [-> | Hlt | Hgt].
      * rewrite Z.compare_opp, Pos.compare_cont_spec, switch_Eq_Eq.
        rewrite mul_compare_r by (apply pow2_pos; apply bounded_inv in Hv2; lia).
        rewrite Pos2Z.inj_compare. symmetry. apply Z.compare_antisym.
      * pose proof (mag_lt m1 m2 e1 e2 Hv1 Hv2 Hlt). symmetry. apply Z.compare_gt_iff. lia.
      * pose proof (mag_lt m2 m1 e2 e1 Hv2 Hv1 ltac:(lia)). symmetry. apply Z.compare_lt_iff. lia.
    + symmetry. apply Z.compare_lt_iff. lia.
    + symmetry. apply Z.compare_gt_iff. lia.
    + destruct (Z.compare_spec e1 e2) as [-> | Hlt | Hgt].
      * rewrite Pos.compare_cont_spec, switch_Eq_Eq.
        rewrite mul_compare_r by (apply pow2_pos; apply bounded_inv in Hv2; lia).
        by rewrite Pos2Z.inj_compare.
      * pose proof (mag_lt m1 m2 e1 e2 Hv1 Hv2 Hlt). symmetry. by apply Z.compare_lt_iff.
      * pose proof (mag_lt m2 m1 e2 e1 Hv2 Hv1 ltac:(lia)). symmetry. apply Z.compare_gt_iff. lia.
Qed.

(** ** The sign of a rounded number *)

Lemma shr_1_m (mrs : shr_record) :
  0 <= shr_m mrs → shr_m (shr_1 mrs) = shr_m mrs / 2.
Proof.
  destruct mrs as [m r s]. cbn [shr_m]. intros Hm.
  destruct m as [|[p|p|]|p]; cbn [shr_1 shr_m]; [reflexivity | | | reflexivity | lia].
  - rewrite Pos2Z.inj_xI. apply Z.div_unique with 1; lia.
  - rewrite Pos2Z.inj_xO. apply Z.div_unique with 0; lia.
Qed.

Lemma pow2_xO (p : positive) : 2 ^ Zpos p~0 = 2 ^ Zpos p * 2 ^ Zpos p.
Proof. rewrite <- Z.pow_add_r by lia. f_equal. lia. Qed.

Lemma pow2_xI (p : positive) : 2 ^ Zpos p~1 = 2 * (2 ^ Zpos p * 2 ^ Zpos p).
Proof.
  replace (Zpos p~1) with (1 + (Zpos p + Zpos p)) by lia.
  rewrite !Z.pow_add_r by lia. reflexivity.
Qed.

Lemma iter_pos_shr_1_m (p : positive) (mrs : shr_record) :
  0 <= shr_m mrs → shr_m (SpecFloat.iter_pos shr_1 p mrs) = shr_m mrs / 2 ^ Zpos p.
Proof.
  revert mrs. induction p as [p IH|p IH|]; intros mrs Hm; cbn [SpecFloat.iter_pos].
  - assert (0 <= shr_m (shr_1 mrs)) as H1
      by (rewrite shr_1_m by done; apply Z.div_pos; lia).
    assert (0 < 2 ^ Zpos p) as Hp by (apply pow2_pos; lia).
    assert (0 <= shr_m (SpecFloat.iter_pos shr_1 p (shr_1 mrs))) as H2
      by (rewrite IH by done; apply Z.div_pos; lia).
    rewrite IH, IH, shr_1_m by done.
    rewrite !Z.div_div by lia. by rewrite pow2_xI.
  - assert (0 < 2 ^ Zpos p) as Hp by (apply pow2_pos; lia).
    assert (0 <= shr_m (SpecFloat.iter_pos shr_1 p mrs)) as H2
      by (rewrite IH by done; apply Z.div_pos; lia).
    rewrite IH, IH by done. rewrite Z.div_div by lia. by rewrite pow2_xO.
  - rewrite shr_1_m by done. reflexivity.
Qed.

Lemma shr_record_of_loc_m (m : Z) (l : location) : shr_m (shr_record_of_loc m l) = m.
Proof. by destruct l as [|[]]. Qed.

Lemma shr_fexp_pos (m : positive) (e : Z) (l : location) :
  -1074 <= e →
  0 < shr_m (shr_fexp prec emax (Zpos m) e l).1
  ∧ -1074 <= (shr_fexp prec emax (Zpos m) e l).2.
Proof.
  intros He. unfold shr_fexp, shr, fexp, SpecFloat.emin, prec, emax, Zdigits2.
  pose proof (digits2_pos_bounds m) as [Hlo _].
  destruct (Z.max (Zpos (digits2_pos m) + e - 53) (3 - 1024 - 53) - e) as [|p|p] eqn:Hn;
    cbn [fst snd]; rewrite ?shr_record_of_loc_m; [lia | | lia].
  rewrite iter_pos_shr_1_m by (rewrite shr_record_of_loc_m; lia).
  rewrite shr_record_of_loc_m. split; [| lia].
  apply Z.div_str_pos. split; [apply pow2_pos; lia |].
  eapply Z.le_trans; [| exact Hlo]. apply Z.pow_le_mono_r; lia.
Qed.

Lemma round_nearest_even_pos (m : Z) (l : location) :
  0 < m → 0 < round_nearest_even m l.
Proof. intros Hm. destruct l as [|[]]; cbn [round_nearest_even]; try destruct (Z.even m); lia. Qed.

Lemma binary_round_aux_signed (sx : bool) (m : positive) (e : Z) (l : location) :
  -1074 <= e → signed sx (binary_round_aux prec emax sx (Zpos m) e l).
Proof.
  intros He. unfold binary_round_aux.
  pose proof (shr_fexp_pos m e l He) as [Hm1 He1].
  destruct (shr_fexp prec emax (Zpos m) e l) as [mrs' e']. cbn [fst snd] in *.
  pose proof (round_nearest_even_pos (shr_m mrs') (loc_of_shr_record mrs') Hm1) as Hr.
  destruct (round_nearest_even (shr_m mrs') (loc_of_shr_record mrs')) as [|r|r]; [lia | | lia].
  pose proof (shr_fexp_pos r e' loc_Exact He1) as [Hm2 He2].
  destruct (shr_fexp prec emax (Zpos r) e' loc_Exact) as [mrs'' e'']. cbn [fst snd] in *.
  destruct (shr_m mrs'') as [|m''|m'']; [lia | | lia].
  destruct (e'' <=? emax - prec); [left; eauto | by right].
Qed.

Lemma shl_align_exp (m : positive) (e e' : Z) :
  -1074 <= e → -1074 <= e' → -1074 <= (shl_align m e e').2.
Proof. intros. unfold shl_align. by destruct (e' - e). Qed.

Lemma binary_round_signed (sx : bool) (m : positive) (e : Z) :
  -1074 <= e → signed sx (binary_round prec emax sx m e).
Proof.
  intros He. unfold binary_round.
  assert (-1074 <= fexp prec emax (Zpos (digits2_pos m) + e)) as Hf
    by (unfold fexp, SpecFloat.emin, prec, emax; lia).
  pose proof (shl_align_exp m e _ He Hf) as Hz.
  destruct (shl_align m e _) as [mz ez]. cbn [snd] in Hz.
  by apply binary_round_aux_signed.
Qed.

Lemma binary_normalize_sign (M e : Z) :
  -1074 <= e →
  SFltb (S754_zero false) (binary_normalize prec emax M e false) = (0 <? M)
  ∧ SFltb (binary_normalize prec emax M e false) (S754_zero false) = (M <? 0)
  ∧ notNaN (binary_normalize prec emax M e false).
Proof.
  intros He. destruct M as [|m|m]; cbn [binary_normalize].
  - done.
  - destruct (binary_round_signed false m e He) as [(m' & e' & ->) | ->]; done.
  - destruct (binary_round_signed true m e He) as [(m' & e' & ->) | ->]; done.
Qed.

Lemma shl_align_fst (m : positive) (e e' : Z) :
  e' <= e → Zpos (shl_align m e e').1 = Zpos m * 2 ^ (e - e').
Proof.
  intros Hle. unfold shl_align. destruct (e' - e) as [|d|d] eqn:Hd; cbn [fst].
  - replace (e - e') with 0 by lia. lia.
  - lia.
  - change (Pos.iter xO m d) with (shift_pos d m). rewrite shift_pos_correct.
    replace (e - e') with (Zpos d) by lia. change (Z.pow_pos 2 d) with (2 ^ Zpos d). ring.
Qed.

Lemma SFsub_sign (fx fy : spec_float) :
  valid_binary fx = true → valid_binary fy = true →
  notNaN fx → notNaN fy → finite fx ∨ finite fy →
  SFltb (S754_zero false) (SF64sub fx fy) = (ord fy <? ord fx)
  ∧ SFltb (SF64sub fx fy) (S754_zero false) = (ord fx <? ord fy)
  ∧ notNaN (SF64sub fx fy).
Proof.
  intros Hvx Hvy Hx Hy Hfin.
  assert (0 < 2 ^ 2098) as Hinf by (apply pow2_pos; lia).
  destruct fx as [sx|sx| |sx mx ex], fy as [sy|sy| |sy my ey];
    try done; try (by destruct Hfin);
    cbn [SF64sub SFsub ord valid_binary] in *.
  - by destruct sx, sy.
  - destruct sy; cbn [negb cond_Zopp]; (split; [| split; [| done]]);
      cbn [SFltb SFcompare]; symmetry; first [apply Z.ltb_lt; lia | apply Z.ltb_ge; lia].
  - pose proof (mag_bound my ey Hvy).
    destruct sy; cbn [negb cond_Zopp]; (split; [| split; [| done]]);
      cbn [SFltb SFcompare]; symmetry; first [apply Z.ltb_lt; lia | apply Z.ltb_ge; lia].
  - destruct sx; cbn [negb cond_Zopp]; (split; [| split; [| done]]);
      cbn [SFltb SFcompare]; symmetry; first [apply Z.ltb_lt; lia | apply Z.ltb_ge; lia].
  - pose proof (mag_bound my ey Hvy).
    destruct sx, sy; cbn [negb cond_Zopp]; (split; [| split; [| done]]);
      cbn [SFltb SFcompare]; symmetry; first [apply Z.ltb_lt; lia | apply Z.ltb_ge; lia].
  - pose proof (mag_bound mx ex Hvx).
    destruct sx; cbn [negb cond_Zopp]; (split; [| split; [| done]]);
      cbn [SFltb SFcompare]; symmetry; first [apply Z.ltb_lt; lia | apply Z.ltb_ge; lia].
  - pose proof (mag_bound mx ex Hvx).
    destruct sx, sy; cbn [negb cond_Zopp]; (split; [| split; [| done]]);
      cbn [SFltb SFcompare]; symmetry; first [apply Z.ltb_lt; lia | apply Z.ltb_ge; lia].
  - pose proof (bounded_inv mx ex Hvx) as (Hex & _).
    pose proof (bounded_inv my ey Hvy) as (Hey & _).
    set (ez := Z.min ex ey).
    assert (ez <= ex ∧ ez <= ey ∧ -1074 <= ez) as (Hzx & Hzy & Hz) by (unfold ez; lia).
    set (M := cond_Zopp sx (Zpos (shl_align mx ex ez).1)
              - cond_Zopp sy (Zpos (shl_align my ey ez).1)).
    destruct (binary_normalize_sign M ez ltac:(lia)) as (Hpos & Hneg & Hnan).
    unfold SF64sub, SFsub. fold ez. fold M. rewrite Hpos, Hneg.
    assert (M * 2 ^ (ez + 1074)
            = cond_Zopp sx (Zpos mx * 2 ^ (ex + 1074))
              - cond_Zopp sy (Zpos my * 2 ^ (ey + 1074))) as HM.
    { unfold M. rewrite !shl_align_fst by lia.
      replace (ex + 1074) with ((ex - ez) + (ez + 1074)) by lia.
      replace (ey + 1074) with ((ey - ez) + (ez + 1074)) by lia.
      rewrite (Z.pow_add_r 2 (ex - ez) (ez + 1074)), (Z.pow_add_r 2 (ey - ez) (ez + 1074))
        by lia.
      destruct sx, sy; cbn [cond_Zopp]; ring. }
    pose proof (pow2_pos (ez + 1074) ltac:(lia)) as Hp.
    split; [| split; [| done]].
    + destruct (Z.ltb_spec 0 M), (Z.ltb_spec (cond_Zopp sy (Zpos my * 2 ^ (ey + 1074)))
                                     (cond_Zopp sx (Zpos mx * 2 ^ (ex + 1074)))); try done; nia.
    + destruct (Z.ltb_spec M 0), (Z.ltb_spec (cond_Zopp sx (Zpos mx * 2 ^ (ex + 1074)))
                                     (cond_Zopp sy (Zpos my * 2 ^ (ey + 1074)))); try done; nia.
Qed.

(** ** Primitive numbers *)

Lemma compare_notNaN (f1 f2 : spec_float) :
  SFcompare f1 f2 ≠ None ↔ notNaN f1 ∧ notNaN f2.
Proof. unfold notNaN. destruct f1 as [?|?| |[] ? ?], f2 as [?|?| |[] ? ?]; cbn; naive_solver. Qed.

Lemma leb_rank (x y : float) :
  (x <=? y)%float = true ↔
  notNaN (Prim2SF x) ∧ notNaN (Prim2SF y) ∧ rank x <= rank y.
Proof.
  rewrite FloatAxioms.leb_spec. unfold SFleb, rank. split.
  - intros Hle. assert (notNaN (Prim2SF x) ∧ notNaN (Prim2SF y)) as [Hx Hy].
    { apply compare_notNaN. by destruct (SFcompare _ _). }
    rewrite SFcompare_ord in Hle by (done || apply Prim2SF_valid).
    split; [done |]. split; [done |].
    destruct (Z.compare_spec (ord (Prim2SF x)) (ord (Prim2SF y))); [lia | lia | done].
  - intros (Hx & Hy & Hle).
    rewrite SFcompare_ord by (done || apply Prim2SF_valid).
    destruct (Z.compare_spec (ord (Prim2SF x)) (ord (Prim2SF y))); [done | done | lia].
Qed.

Lemma ltb_rank (x y : float) :
  (x <? y)%float = true ↔
  notNaN (Prim2SF x) ∧ notNaN (Prim2SF y) ∧ rank x < rank y.
Proof.
  rewrite FloatAxioms.ltb_spec. unfold SFltb, rank. split.
  - intros Hle. assert (notNaN (Prim2SF x) ∧ notNaN (Prim2SF y)) as [Hx Hy].
    { apply compare_notNaN. by destruct (SFcompare _ _). }
    rewrite SFcompare_ord in Hle by (done || apply Prim2SF_valid).
    split; [done |]. split; [done |].
    destruct (Z.compare_spec (ord (Prim2SF x)) (ord (Prim2SF y))); [done | lia | done].
  - intros (Hx & Hy & Hle).
    rewrite SFcompare_ord by (done || apply Prim2SF_valid).
    destruct (Z.compare_spec (ord (Prim2SF x)) (ord (Prim2SF y))); [lia | done | lia].
Qed.

Lemma eqb_rank (x y : float) :
  (x =? y)%float = true ↔
  notNaN (Prim2SF x) ∧ notNaN (Prim2SF y) ∧ rank x = rank y.
Proof.
  rewrite FloatAxioms.eqb_spec. unfold SFeqb, rank. split.
  - intros Hle. assert (notNaN (Prim2SF x) ∧ notNaN (Prim2SF y)) as [Hx Hy].
    { apply compare_notNaN. by destruct (SFcompare _ _). }
    rewrite SFcompare_ord in Hle by (done || apply Prim2SF_valid).
    split; [done |]. split; [done |].
    destruct (Z.compare_spec (ord (Prim2SF x)) (ord (Prim2SF y))); [done | done | done].
  - intros (Hx & Hy & Hle).
    rewrite SFcompare_ord by (done || apply Prim2SF_valid).
    destruct (Z.compare_spec (ord (Prim2SF x)) (ord (Prim2SF y))); [done | lia | lia].
Qed.

Lemma leb_trans (x y z : float) :
  (x <=? y)%float = true → (y <=? z)%float = true → (x <=? z)%float = true.
Proof. rewrite !leb_rank. intros (? & ? & ?) (? & ? & ?). repeat split; [done | done | lia]. Qed.

Lemma is_finite_spec (x : float) : is_finite x = true ↔ finite (Prim2SF x).
Proof.
  unfold is_finite, is_nan, is_infinity.
  rewrite !FloatAxioms.eqb_spec, abs_spec.
  change (Prim2SF infinity) with (S754_infinity false).
  destruct (Prim2SF x) as [s|s| |s m e]; cbn; try done.
  - by destruct s.
  - pose proof (Pos.compare_cont_refl m Eq) as Hm.
    destruct s; rewrite Z.compare_refl; rewrite Hm; done.
Qed.

Lemma finite_notNaN (f : spec_float) : finite f → notNaN f.
Proof. by destruct f. Qed.

(** The sign of a difference, the comparator of a sort: when neither
    number is NaN and one of them is finite, the difference is positive,
    negative or zero as the first number is greater than, less than or
    equal to the second one. *)
Lemma sub_sign_notNaN (x y : float) :
  notNaN (Prim2SF x) → notNaN (Prim2SF y) →
  finite (Prim2SF x) ∨ finite (Prim2SF y) →
  (0 <? x - y)%float = (rank y <? rank x)
  ∧ (x - y <? 0)%float = (rank x <? rank y).
Proof.
  intros Hx Hy Hfin.
  rewrite !FloatAxioms.ltb_spec, FloatAxioms.sub_spec.
  change (Prim2SF 0) with (S754_zero false).
  destruct (SFsub_sign (Prim2SF x) (Prim2SF y)) as (H1 & H2 & _);
    [apply Prim2SF_valid | apply Prim2SF_valid | done | done | done |].
  by rewrite H1, H2.
Qed.

Lemma sub_sign (x y : float) :
  is_finite x = true → is_finite y = true →
  (0 <? x - y)%float = (rank y <? rank x)
  ∧ (x - y <? 0)%float = (rank x <? rank y).
Proof.
  rewrite !is_finite_spec. intros Hx Hy.
  apply sub_sign_notNaN; [by apply finite_notNaN | by apply finite_notNaN | by left].
Qed.

Lemma is_nan_spec (x : float) : is_nan x = true ↔ Prim2SF x = S754_nan.
Proof.
  unfold is_nan. rewrite negb_true_iff, FloatAxioms.eqb_spec. unfold SFeqb.
  destruct (Prim2SF x) as [s|s| |s m e] eqn:Hx; [by cbn | by destruct s | by cbn |].
  rewrite SFcompare_ord; [| rewrite <- Hx; apply Prim2SF_valid .. | done | done].
  by rewrite Z.compare_refl.
Qed.

(** NaN goes through sums and quotients. *)
Lemma add_nan (x y : float) :
  is_nan x = true ∨ is_nan y = true → is_nan (x + y) = true.
Proof.
  rewrite !is_nan_spec, FloatAxioms.add_spec. unfold SF64add.
  intros [-> | ->]; [done |]. by destruct (Prim2SF x).
Qed.

Lemma div_nan (x y : float) : is_nan x = true → is_nan (x / y) = true.
Proof.
  rewrite !is_nan_spec, FloatAxioms.div_spec. unfold SF64div. by intros ->.
Qed.

End NumberOrder.

(* ================================================================== *)
(** * The chain detector *)
(* ================================================================== *)

(** ** The inner loop *)

Lemma isNextScript_true (usedUrls : gset string) (cur s : TimedScript) :
  isNextScript usedUrls cur s = true ↔
  ((ts_url s ∉ usedUrls)
   ∧ (ts_endTimeMs cur <=? ts_startTimeMs s)%float = true
   ∧ (ts_startTimeMs s <=? ts_endTimeMs cur + CHAIN_GAP_THRESHOLD_MS)%float = true).
Proof.
  unfold isNextScript.
  rewrite !andb_true_iff, negb_true_iff, bool_decide_eq_false.
  tauto.
Qed.

Lemma isNextScript_used (usedUrls : gset string) (cur s : TimedScript) :
  ts_url s ∈ usedUrls → isNextScript usedUrls cur s = false.
Proof.
  intros Hin. apply not_true_iff_false. rewrite isNextScript_true. tauto.
Qed.

Lemma find_isNextScript (usedUrls : gset string) (cur nxt : TimedScript)
    (scripts : list TimedScript) :
  find (isNextScript usedUrls cur) scripts = Some nxt →
  ts_url nxt ∈ scriptUrls scripts ∧ ts_url nxt ∉ usedUrls.
Proof.
  intros Hf. apply find_some in Hf as [Hin Hnext].
  apply isNextScript_true in Hnext as [Hfresh _]. split; [| done].
  apply elem_of_list_to_set, list_elem_of_fmap_2, list_elem_of_In, Hin.
Qed.

Lemma size_scriptUrls (scripts : list TimedScript) :
  (size (scriptUrls scripts) ≤ length scripts)%nat.
Proof.
  unfold scriptUrls. induction scripts as [|s l IH].
  - rewrite fmap_nil, list_to_set_nil, size_empty. done.
  - rewrite fmap_cons, list_to_set_cons, size_union_alt, size_singleton. simpl.
    pose proof (subseteq_size (list_to_set (ts_url <$> l) ∖ {[ts_url s]})
                  (list_to_set (ts_url <$> l) : gset string)) as Hle.
    assert ((size (list_to_set (ts_url <$> l) ∖ {[ts_url s]} : gset string)
             ≤ size (list_to_set (ts_url <$> l) : gset string))%nat)
      by (apply Hle; set_solver).
    lia.
Qed.

(** Every pass of the inner loop marks a URL that was free, so the loop
    leaves before the fuel is used up. *)
Lemma growChain_is_Some (fuel : nat) (scripts : list TimedScript)
    (chainNodes : list BundleChainNode) (chainUrls : list string)
    (usedUrls : gset string) (cur : TimedScript) :
  ts_url cur ∈ scriptUrls scripts → ts_url cur ∉ usedUrls →
  (size (scriptUrls scripts ∖ usedUrls) ≤ fuel)%nat →
  is_Some (growChain fuel scripts chainNodes chainUrls usedUrls cur).
Proof.
  revert chainNodes chainUrls usedUrls cur.
  induction fuel as [|fuel IH]; intros chainNodes chainUrls usedUrls cur Hin Hfresh Hsize.
  - exfalso.
    assert (Hempty : scriptUrls scripts ∖ usedUrls ≡ ∅) by (apply size_empty_iff; lia).
    set_solver.
  - cbn [growChain].
    destruct (find _ scripts) as [nxt|] eqn:Hfind; [| eauto].
    apply find_isNextScript in Hfind as [Hnin Hnfresh].
    apply IH; [done | done |].
    assert (Hlt : (size (scriptUrls scripts ∖ (usedUrls ∪ {[ts_url cur]}))
                   < size (scriptUrls scripts ∖ usedUrls))%nat).
    { apply subset_size. split; [set_solver |].
      intros Hsub. specialize (Hsub (ts_url cur)). set_solver. }
    lia.
Qed.

(** What the inner loop adds: the scripts of the chain, each with a URL
    that was free, no URL twice. *)
Lemma growChain_spec (fuel : nat) (scripts : list TimedScript)
    (chainNodes : list BundleChainNode) (chainUrls : list string)
    (usedUrls : gset string) (cur : TimedScript)
    (chainNodes' : list BundleChainNode) (chainUrls' : list string)
    (usedUrls' : gset string) :
  growChain fuel scripts chainNodes chainUrls usedUrls cur
    = Some (chainNodes', chainUrls', usedUrls') →
  ts_url cur ∉ usedUrls →
  ∃ added : list TimedScript,
    chainNodes' = chainNodes ++ (nodeOf <$> cur :: added)
    ∧ chainUrls' = chainUrls ++ (ts_url <$> cur :: added)
    ∧ usedUrls' = usedUrls ∪ list_to_set (ts_url <$> cur :: added)
    ∧ NoDup (ts_url <$> cur :: added)
    ∧ ∀ u, u ∈ (ts_url <$> cur :: added) → u ∉ usedUrls.
Proof.
  revert chainNodes chainUrls usedUrls cur.
  induction fuel as [|fuel IH]; intros chainNodes chainUrls usedUrls cur Hrun Hfresh;
    [discriminate |].
  cbn [growChain] in Hrun.
  destruct (find _ scripts) as [nxt|] eqn:Hfind.
  - apply find_isNextScript in Hfind as [_ Hnfresh].
    destruct (IH _ _ _ _ Hrun Hnfresh) as (added & -> & -> & -> & Hnd & Hnew).
    exists (nxt :: added). rewrite <- !app_assoc. simpl.
    split; [done |]. split; [done |]. split; [set_solver |].
    split.
    + apply NoDup_cons. split; [| done].
      intros Hin. apply Hnew in Hin. set_solver.
    + intros u Hu. apply elem_of_cons in Hu as [-> | Hu]; [done |].
      apply Hnew in Hu. set_solver.
  - exists []. simplify_eq. simpl.
    split; [done |]. split; [done |]. split; [set_solver |].
    split; [apply NoDup_singleton | set_solver].
Qed.

(** ** Linking and keeping a chain *)

Lemma linkChain_nodeOf (s : TimedScript) (rest : list TimedScript) :
  ∃ r, linkChain (nodeOf <$> s :: rest) = [r]
       ∧ nodeUrls r = ts_url <$> s :: rest.
Proof.
  revert s. induction rest as [|s' rest IH]; intros s.
  - exists (nodeOf s). done.
  - destruct (IH s') as (r' & Hlink & Hurls).
    exists (setChildren (nodeOf s) [r']). split.
    + change (nodeOf <$> s :: s' :: rest)
        with (nodeOf s :: (nodeOf <$> s' :: rest)).
      cbn [linkChain]. rewrite Hlink. reflexivity.
    + cbn [nodeUrls setChildren children node_url]. rewrite Hurls. reflexivity.
Qed.

Lemma keepChain_spec (minChainDepth : Z) (minChainTimeMs : float)
    (s : TimedScript) (rest : list TimedScript) (chainUrls : list string) :
  chainUrls = ts_url <$> s :: rest →
  keepChain minChainDepth minChainTimeMs (nodeOf <$> s :: rest) chainUrls = []
  ∨ ∃ c, keepChain minChainDepth minChainTimeMs (nodeOf <$> s :: rest) chainUrls = [c]
         ∧ urls c = chainUrls ∧ chainLinked c.
Proof.
  intros ->. unfold keepChain.
  destruct (minChainDepth <=? _)%Z; [| by left].
  destruct (linkChain_nodeOf s rest) as (r & -> & Hurls).
  change (nodeOf <$> s :: rest) with (nodeOf s :: (nodeOf <$> rest)).
  cbv beta iota zeta.
  destruct (minChainTimeMs <=? _)%float; [| by left].
  right. eexists. split; [reflexivity |]. split; [reflexivity |].
  split; simpl; [done |]. by rewrite !length_fmap.
Qed.

(** ** The outer loop *)

Lemma buildChains_spec (scripts remaining : list TimedScript)
    (minChainDepth : Z) (minChainTimeMs : float)
    (chains : list BundleChain) (usedUrls : gset string) :
  (∀ s, s ∈ remaining → s ∈ scripts) →
  NoDup (allChainUrls chains) →
  (∀ u, u ∈ allChainUrls chains → u ∈ usedUrls) →
  Forall chainLinked chains →
  ∃ result,
    buildChains scripts remaining minChainDepth minChainTimeMs chains usedUrls
      = Some result
    ∧ NoDup (allChainUrls result) ∧ Forall chainLinked result.
Proof.
  revert chains usedUrls.
  induction remaining as [|script remaining IH];
    intros chains usedUrls Hsub Hnd Hused Hlinked.
  - exists chains. done.
  - cbn [buildChains].
    assert (Hsub' : ∀ s, s ∈ remaining → s ∈ scripts)
      by (intros s Hs; apply Hsub; by right).
    case_bool_decide as Hseen; [by apply IH |].
    assert (Hin : ts_url script ∈ scriptUrls scripts).
    { apply elem_of_list_to_set, list_elem_of_fmap_2, Hsub. by left. }
    destruct (growChain_is_Some (length scripts) scripts [] [] usedUrls script)
      as [[[chainNodes chainUrls] usedUrls'] Hgrow]; [done | done | |].
    { pose proof (size_scriptUrls scripts).
      pose proof (subseteq_size (scriptUrls scripts ∖ usedUrls) (scriptUrls scripts)) as Hle.
      assert ((size (scriptUrls scripts ∖ usedUrls) ≤ size (scriptUrls scripts))%nat)
        by (apply Hle; set_solver).
      lia. }
    rewrite Hgrow.
    destruct (growChain_spec _ _ _ _ _ _ _ _ _ Hgrow Hseen)
      as (added & -> & -> & -> & Hnd' & Hnew).
    rewrite !app_nil_l.
    apply IH; [done | | |].
    + unfold allChainUrls in *. rewrite fmap_app, concat_app.
      destruct (keepChain_spec minChainDepth minChainTimeMs script added _ eq_refl)
        as [-> | (c & -> & Hc & _)]; simpl.
      * by rewrite app_nil_r.
      * rewrite Hc, app_nil_r. apply NoDup_app. split; [done |]. split; [| done].
        intros u Hu Hu'. apply Hused in Hu. by apply Hnew in Hu'.
    + unfold allChainUrls in *. rewrite fmap_app, concat_app.
      intros u Hu. apply elem_of_app in Hu as [Hu | Hu]; [apply Hused in Hu; set_solver |].
      destruct (keepChain_spec minChainDepth minChainTimeMs script added _ eq_refl)
        as [Hk | (c & Hk & Hc & _)]; rewrite Hk in Hu; simpl in Hu.
      * by apply elem_of_nil in Hu.
      * rewrite Hc, app_nil_r in Hu. set_solver.
    + apply Forall_app. split; [done |].
      destruct (keepChain_spec minChainDepth minChainTimeMs script added _ eq_refl)
        as [-> | (c & -> & _ & Hc)]; [constructor | constructor; [exact Hc | constructor]].
Qed.

(** The detector returns for every input. *)
Lemma detectBundleChains_total (requests : list HTTPRequest)
    (minChainDepth : Z) (minChainTimeMs : float) :
  is_Some (detectBundleChains requests minChainDepth minChainTimeMs).
Proof.
  unfold detectBundleChains.
  set (scripts := sortByEndTime (scriptsWithTiming requests)).
  destruct (buildChains_spec scripts scripts minChainDepth minChainTimeMs [] ∅)
    as (chains & -> & _); try done.
  - apply NoDup_nil_2.
  - intros u Hu. by apply elem_of_nil in Hu.
Qed.

(** C9: chain membership goes by URL. Over all chains that
    [detectBundleChains] returns, each URL occurs at most once, and the
    nodes linked below the root of a chain carry exactly the URLs of the
    chain, one node per URL; so no chain holds a URL twice, and of several
    records with one URL at most one becomes a node. *)
Theorem detectBundleChains_urls_once (requests : list HTTPRequest)
    (minChainDepth : Z) (minChainTimeMs : float) :
  ∃ chains,
    detectBundleChains requests minChainDepth minChainTimeMs = Some chains
    ∧ NoDup (concat (urls <$> chains))
    ∧ Forall (λ c, nodeUrls (root c) = urls c ∧ depth c = length (urls c)) chains.
Proof.
  unfold detectBundleChains.
  set (scripts := sortByEndTime (scriptsWithTiming requests)).
  apply (buildChains_spec scripts scripts minChainDepth minChainTimeMs [] ∅).
  - intros s Hs. exact Hs.
  - apply NoDup_nil_2.
  - intros u Hu. by apply elem_of_nil in Hu.
  - apply Forall_nil_2.
Qed.

(** ** Sorting by end time *)

Lemma insertByEndTime_Permutation (x : TimedScript) (l : list TimedScript) :
  insertByEndTime x l ≡ₚ x :: l.
Proof.
  induction l as [|y l IH]; simpl; [done |].
  destruct (0 <? _)%float; [| done].
  rewrite IH. apply Permutation_swap.
Qed.

Lemma sortByEndTime_Permutation (l : list TimedScript) : sortByEndTime l ≡ₚ l.
Proof.
  induction l as [|x l IH]; simpl; [done |].
  by rewrite insertByEndTime_Permutation, IH.
Qed.

(** For finite end times the comparator of the sort is the order of the
    end times. *)
Lemma comparator_rank (x y : TimedScript) :
  is_finite (ts_endTimeMs x) = true → is_finite (ts_endTimeMs y) = true →
  (0 <? ts_endTimeMs x - ts_endTimeMs y)%float
  = (rank (ts_endTimeMs y) <? rank (ts_endTimeMs x))%Z.
Proof. intros Hx Hy. by destruct (sub_sign (ts_endTimeMs x) (ts_endTimeMs y) Hx Hy). Qed.

Lemma insertByEndTime_sorted (x : TimedScript) (l : list TimedScript) :
  is_finite (ts_endTimeMs x) = true → finiteEndTimes l →
  StronglySorted endsBefore l → StronglySorted endsBefore (insertByEndTime x l).
Proof.
  intros Hx Hfin. induction 1 as [|y l Hl IH Hy]; simpl.
  - repeat constructor.
  - apply Forall_cons in Hfin as [Hfy Hfl].
    rewrite comparator_rank by done.
    destruct (Z.ltb_spec (rank (ts_endTimeMs y)) (rank (ts_endTimeMs x))) as [Hlt | Hge].
    + constructor; [by apply IH |].
      rewrite insertByEndTime_Permutation. constructor; [| done].
      unfold endsBefore. lia.
    + constructor; [by constructor |].
      constructor; [done |].
      eapply Forall_impl; [exact Hy |]. intros z Hz. unfold endsBefore in *. lia.
Qed.

Lemma sortByEndTime_sorted (l : list TimedScript) :
  finiteEndTimes l → StronglySorted endsBefore (sortByEndTime l).
Proof.
  induction l as [|x l IH]; simpl; [constructor |].
  intros [Hx Hl]%Forall_cons. apply insertByEndTime_sorted; [done | | by apply IH].
  unfold finiteEndTimes. by rewrite sortByEndTime_Permutation.
Qed.

Lemma filter_Permutation {A} (f : A → bool) (l l' : list A) :
  l ≡ₚ l' → List.filter f l ≡ₚ List.filter f l'.
Proof.
  induction 1 as [|x l l' _ IH|x y l|l l' l'' _ IH1 _ IH2]; simpl.
  - done.
  - destruct (f x); [by constructor | done].
  - destruct (f x), (f y); try done. apply Permutation_swap.
  - by etrans.
Qed.

Lemma scriptsWithTiming_Permutation (requests requests' : list HTTPRequest) :
  requests ≡ₚ requests' → scriptsWithTiming requests ≡ₚ scriptsWithTiming requests'.
Proof.
  intros Hp. unfold scriptsWithTiming.
  by apply omap_Permutation, filter_Permutation.
Qed.

(** With finite, pairwise distinct end times the sorted array does not
    depend on the order of the input. *)
Lemma sortByEndTime_unique (l l' : list TimedScript) :
  l ≡ₚ l' → finiteEndTimes l → distinctEndTimes l →
  sortByEndTime l = sortByEndTime l'.
Proof.
  intros Hp Hfin Hd.
  assert (finiteEndTimes l') as Hfin' by (unfold finiteEndTimes; by rewrite <- Hp).
  apply (StronglySorted_unique_strong endsBefore).
  - intros x1 x2 Hx1 Hx2 H12 H21.
    rewrite sortByEndTime_Permutation in Hx1.
    rewrite sortByEndTime_Permutation, <- Hp in Hx2.
    assert ((ts_endTimeMs x1 =? ts_endTimeMs x2)%float = true
            ∧ (ts_endTimeMs x2 =? ts_endTimeMs x1)%float = true) as [He12 He21].
    { unfold finiteEndTimes in Hfin. rewrite Forall_forall in Hfin.
      pose proof (Hfin x1 Hx1) as H1%is_finite_spec%finite_notNaN.
      pose proof (Hfin x2 Hx2) as H2%is_finite_spec%finite_notNaN.
      unfold endsBefore in *. rewrite !eqb_rank. repeat split; try done; lia. }
    apply list_elem_of_In in Hx1, Hx2.
    destruct (ForallOrdPairs_In Hd x1 x2 Hx1 Hx2) as [? | [Hne | Hne]]; [done | |];
      congruence.
  - by apply sortByEndTime_sorted.
  - by apply sortByEndTime_sorted.
  - by rewrite !sortByEndTime_Permutation.
Qed.

(** C4 as stated does not hold: two scripts that end at the
    same time keep their input order, and which of them extends the chain
    depends on that order. *)
Lemma detectBundleChains_order_dependent :
  [reqA; reqX; reqY] ≡ₚ [reqA; reqY; reqX]
  ∧ (map urls <$> detectBundleChains [reqA; reqX; reqY] 2 100)
    = Some [["https://example.com/a.js"; "https://example.com/x.js"]]
  ∧ (map urls <$> detectBundleChains [reqA; reqY; reqX] 2 100)
    = Some [["https://example.com/a.js"; "https://example.com/y.js"]].
Proof.
  split; [apply perm_skip, perm_swap |].
  split; vm_compute; reflexivity.
Qed.

(** C4 (amended): when the end times that the detector computes for the
    timed script records are finite numbers and no two of them are
    equal, [detectBundleChains] returns the same list of chains for every
    permutation of the input list. *)
Theorem detectBundleChains_order_independent
    (requests requests' : list HTTPRequest) (minChainDepth : Z) (minChainTimeMs : float) :
  requests ≡ₚ requests' →
  finiteEndTimes (scriptsWithTiming requests) →
  distinctEndTimes (scriptsWithTiming requests) →
  ∃ chains,
    detectBundleChains requests minChainDepth minChainTimeMs = Some chains
    ∧ detectBundleChains requests' minChainDepth minChainTimeMs = Some chains.
Proof.
  intros Hp Hfin Hd.
  destruct (detectBundleChains_total requests minChainDepth minChainTimeMs)
    as (chains & Hrun).
  exists chains. split; [done |].
  rewrite <- Hrun. unfold detectBundleChains.
  by rewrite (sortByEndTime_unique _ _ (scriptsWithTiming_Permutation _ _ Hp) Hfin Hd).
Qed.

Lemma detectBundleChains_order_independent_witness :
  ∃ chains,
    detectBundleChains [documentRequest; reqA; reqX] 2 100 = Some chains
    ∧ detectBundleChains [reqX; documentRequest; reqA] 2 100 = Some chains.
Proof.
  apply detectBundleChains_order_independent.
  - change [reqX; documentRequest; reqA] with ([reqX] ++ [documentRequest; reqA]).
    change [documentRequest; reqA; reqX] with ([documentRequest; reqA] ++ [reqX]).
    apply Permutation_app_comm.
  - repeat constructor.
  - repeat constructor.
Defined.

(** ** Two scripts *)

Lemma sortByEndTime_pair (a b : TimedScript) :
  notNaN (Prim2SF (ts_endTimeMs a)) → notNaN (Prim2SF (ts_endTimeMs b)) →
  finite (Prim2SF (ts_endTimeMs a)) →
  (rank (ts_endTimeMs a) < rank (ts_endTimeMs b))%Z →
  ∀ l, l ≡ₚ [a; b] → sortByEndTime l = [a; b].
Proof.
  intros Hna Hnb Hfa Hab l Hl. symmetry in Hl.
  destruct (sub_sign_notNaN (ts_endTimeMs a) (ts_endTimeMs b)) as [Hab' _];
    [done | done | by left |].
  destruct (sub_sign_notNaN (ts_endTimeMs b) (ts_endTimeMs a)) as [Hba' _];
    [done | done | by right |].
  apply Permutation_length_2_inv in Hl as [-> | ->]; simpl.
  - rewrite Hab'. by destruct (Z.ltb_spec (rank (ts_endTimeMs b)) (rank (ts_endTimeMs a))); [lia |].
  - rewrite Hba'. by destruct (Z.ltb_spec (rank (ts_endTimeMs a)) (rank (ts_endTimeMs b))); [| lia].
Qed.

(** C7: the input holds exactly two timed script records, [a] ending at
    100ms and [b] (another URL) starting at 110ms, 10ms later, the times
    being those that the detector computes. With minChainDepth = 2 and
    minChainTimeMs at most b.end - a.start the detector returns exactly
    one chain, of depth 2, with the URLs of [a] and [b] in this order.
    When [b] starts at 160ms instead, 60ms later, it returns no chain at
    these thresholds. *)
Theorem detectBundleChains_two_scripts
    (requests : list HTTPRequest) (a b : TimedScript) (minChainTimeMs : float) :
  scriptsWithTiming requests ≡ₚ [a; b] →
  ts_url a ≠ ts_url b →
  ts_endTimeMs a = 100%float →
  (ts_startTimeMs b <=? ts_endTimeMs b)%float = true →
  (minChainTimeMs <=? ts_endTimeMs b - ts_startTimeMs a)%float = true →
  (ts_startTimeMs b = 110%float →
   ∃ chain,
     detectBundleChains requests 2 minChainTimeMs = Some [chain]
     ∧ depth chain = 2%nat
     ∧ urls chain = [ts_url a; ts_url b]
     ∧ nodeUrls (root chain) = [ts_url a; ts_url b]
     ∧ totalTimeMs chain = (ts_endTimeMs b - ts_startTimeMs a)%float)
  ∧ (ts_startTimeMs b = 160%float →
     detectBundleChains requests 2 minChainTimeMs = Some []).
Proof.
  intros Hperm Hurl Ha Hb Hmin.
  assert (Hsorted : ts_startTimeMs b = 110%float ∨ ts_startTimeMs b = 160%float →
            sortByEndTime (scriptsWithTiming requests) = [a; b]).
  { intros Hs. apply leb_rank in Hb as (_ & Hnb & Hle).
    assert ((100 <? ts_startTimeMs b)%float = true) as (Hna & _ & Hlt)%ltb_rank
      by (by destruct Hs as [-> | ->]).
    apply sortByEndTime_pair; [by rewrite Ha | done | | rewrite Ha; lia | done].
    rewrite Ha. by apply is_finite_spec. }
  assert (Haa : ∀ used, isNextScript (used ∪ {[ts_url a]}) a a = false)
    by (intros; apply isNextScript_used; set_solver).
  assert (Hbb : ∀ used cur, isNextScript (used ∪ {[ts_url b]}) cur b = false)
    by (intros; apply isNextScript_used; set_solver).
  assert (Hba : ∀ used cur, isNextScript (used ∪ {[ts_url a]} ∪ {[ts_url b]}) cur a = false)
    by (intros; apply isNextScript_used; set_solver).
  split; intros Hstart; unfold detectBundleChains;
    rewrite Hsorted by eauto; cbn [buildChains length].
  - rewrite bool_decide_eq_false_2 by set_solver.
    cbn [growChain find]. rewrite Haa.
    assert (Hab : isNextScript (∅ ∪ {[ts_url a]}) a b = true).
    { apply isNextScript_true. rewrite Ha, Hstart.
      split; [set_solver |]. split; reflexivity. }
    rewrite Hab. cbn [growChain find]. rewrite Hba, Hbb.
    rewrite bool_decide_eq_true_2 by set_solver.
    unfold keepChain.
    cbn [app fmap list_fmap length Z.of_nat Pos.of_succ_nat Pos.succ Z.leb Z.compare
         Pos.compare Pos.compare_cont linkChain List.last nodeOf node_endTimeMs
         node_startTimeMs].
    rewrite Hmin. eexists. split; [reflexivity |].
    cbn [depth urls root length nodeUrls setChildren children node_url totalTimeMs].
    repeat split; reflexivity.
  - rewrite bool_decide_eq_false_2 by set_solver.
    cbn [growChain find]. rewrite Haa.
    assert (Hab : isNextScript (∅ ∪ {[ts_url a]}) a b = false).
    { apply not_true_iff_false. rewrite isNextScript_true.
      rewrite Ha, Hstart. intros (_ & _ & Hgap). discriminate Hgap. }
    rewrite Hab.
    rewrite bool_decide_eq_false_2 by set_solver.
    cbn [growChain find]. rewrite Hba, Hbb.
    reflexivity.
Qed.

Lemma detectBundleChains_two_scripts_witness :
  (map urls <$> detectBundleChains [documentRequest; reqApp; reqVendor] 2 100)
  = Some [[appUrl; vendorUrl]]
  ∧ detectBundleChains [reqVendorLate; reqApp] 2 100 = Some [].
Proof.
  split.
  - destruct (detectBundleChains_two_scripts [documentRequest; reqApp; reqVendor]
                (timedSample appUrl 0 100 50000) (timedSample vendorUrl 110 250 80000)
                100) as [Hchain _].
    + vm_compute. reflexivity.
    + discriminate.
    + vm_compute. reflexivity.
    + vm_compute. reflexivity.
    + vm_compute. reflexivity.
    + destruct Hchain as (chain & -> & _ & Hurls & _).
      * vm_compute. reflexivity.
      * simpl. rewrite Hurls. reflexivity.
  - apply (detectBundleChains_two_scripts [reqVendorLate; reqApp]
             (timedSample appUrl 0 100 50000) (timedSample vendorUrl 160 250 80000) 100).
    + vm_compute. apply perm_swap.
    + discriminate.
    + vm_compute. reflexivity.
    + vm_compute. reflexivity.
    + vm_compute. reflexivity.
    + vm_compute. reflexivity.
Defined.

(* ================================================================== *)
(** * The coverage session *)
(* ================================================================== *)

Section SessionFacts.
Context `{Host}.

(** Stopping and classifying one kind of coverage touches neither the
    context nor the response. *)
Lemma collect_frame (enabled : bool) (call : ProviderCall)
    (outcome : completion (list CoverageEntry)) (pageUrl : string) (w : World) :
  context (collect enabled call outcome pageUrl w).1 = context w
  ∧ responseLines (collect enabled call outcome pageUrl w).1 = responseLines w.
Proof.
  unfold collect. destruct enabled; [| done].
  unfold mbind, M_bind, callProvider, await, lift. simpl.
  destruct outcome as [entries|e]; simpl; [| done].
  destruct (mapCompletion (λ entry, calculateCoverageEntry entry pageUrl) entries); done.
Qed.

(** Without coverage enabled for a kind, the provider is not called. *)
Lemma collect_disabled (call : ProviderCall)
    (outcome : completion (list CoverageEntry)) (pageUrl : string) (w : World) :
  collect false call outcome pageUrl w = (w, Normal []).
Proof. reflexivity. Qed.

(** The [try] block of [stopCoverageAndAppendOutput] leaves the context
    alone; when it throws it has not written to the response, and when
    it completes it has appended the three lines of the report. *)
Lemma stopCoverage_try_frame (page : Page) (pagination : PaginationOptions)
    (w w1 : World) (r : completion unit) :
  stopCoverage_try page pagination w = (w1, r) →
  context w1 = context w
  ∧ match r with
    | Throw _ => responseLines w1 = responseLines w
    | Normal _ =>
        ∃ report,
          responseLines w1
          = responseLines w
            ++ [ "Coverage tracking has been stopped."; ""; formatCoverageReport report ]
    end.
Proof.
  unfold stopCoverage_try, readContext, mbind, M_bind. cbv beta iota.
  set (options := getCoverageOptions (context w)).
  pose proof (collect_frame (includeJS options) StopJSCoverage (stopJSCoverage page)
                (page_url page) w) as [Hc1 Hr1].
  destruct (collect (includeJS options) StopJSCoverage _ _ w) as [w2 [js|e]];
    simpl in Hc1, Hr1; [| by intros [= <- <-]].
  pose proof (collect_frame (includeCSS options) StopCSSCoverage (stopCSSCoverage page)
                (page_url page) w2) as [Hc2 Hr2].
  destruct (collect (includeCSS options) StopCSSCoverage _ _ w2) as [w3 [css|e]];
    simpl in Hc2, Hr2; [| intros [= <- <-]; split; congruence].
  unfold appendResponseLine. simpl. intros [= <- <-]. simpl.
  split; [congruence |].
  eexists. rewrite Hr2, Hr1, <- !app_assoc. reflexivity.
Qed.

Lemma stopCoverageAndAppendOutput_spec (page : Page) (pagination : PaginationOptions)
    (w : World) :
  let w' := (stopCoverageAndAppendOutput page pagination w).1 in
  (stopCoverageAndAppendOutput page pagination w).2 = Normal tt
  ∧ isRunningCoverage (context w') = false
  ∧ getCoverageOptions (context w') = getCoverageOptions (context w)
  ∧ getLastCoverageReport (context w') = getLastCoverageReport (context w)
  ∧ ∀ errorText,
      (stopCoverage_try page pagination w).2 = Throw errorText →
      responseLines w' = responseLines w ++ reportErrorLines errorText.
Proof.
  unfold stopCoverageAndAppendOutput, tryCatchFinally, tryCatch.
  pose proof (stopCoverage_try_frame page pagination w) as Hframe.
  destruct (stopCoverage_try page pagination w) as [w1 [[]|e]];
    destruct (Hframe _ _ eq_refl) as [Hc Hr].
  - simpl. rewrite Hc. repeat split; try done.
  - unfold mbind, M_bind, appendResponseLine, setIsRunningCoverage. simpl.
    rewrite Hc, Hr. repeat split; try done.
    intros errorText [= ->]. unfold reportErrorLines. by rewrite <- app_assoc.
Qed.

(** The three ways the two handlers start. *)
Lemma startCoverage_running (params : StartParams) (page : Page) (w : World) :
  isRunningCoverage (context w) = true →
  startCoverage params page w = appendResponseLine alreadyRunningLine w.
Proof.
  intros Hrun. unfold startCoverage, readContext, mbind, M_bind.
  cbv beta iota. rewrite Hrun. reflexivity.
Qed.

Lemma stopCoverage_idle (params : StopParams) (page : Page) (w : World) :
  isRunningCoverage (context w) = false →
  stopCoverage params page w
  = (mkWorld (context w) (responseLines w ++ notRunningLines) (providerCalls w),
     Normal tt).
Proof.
  intros Hrun. unfold stopCoverage, readContext, mbind, M_bind.
  cbv beta iota. rewrite Hrun. unfold appendResponseLine. simpl.
  by rewrite <- !app_assoc.
Qed.

Lemma stopCoverage_running (params : StopParams) (page : Page) (w : World) :
  isRunningCoverage (context w) = true →
  stopCoverage params page w
  = stopCoverageAndAppendOutput page (paginationOf params) w.
Proof.
  intros Hrun. unfold stopCoverage, readContext, mbind, M_bind.
  cbv beta iota. rewrite Hrun. reflexivity.
Qed.

(** ** The last-coverage-report slot *)

Lemma keepsReport_bind {A B} (m : M A) (f : A → M B) :
  keepsReport m → (∀ a, keepsReport (f a)) → keepsReport (m ≫= f).
Proof.
  intros Hm Hf w. unfold mbind, M_bind. specialize (Hm w).
  destruct (m w) as [w1 [a|e]]; simpl in *; [| done].
  by rewrite Hf.
Qed.

Lemma keepsReport_ret {A} (a : A) : keepsReport (mret a).
Proof. by intros w. Qed.

Lemma keepsReport_lift {A} (c : completion A) : keepsReport (lift c).
Proof. by intros w. Qed.

Lemma keepsReport_appendResponseLine (line : string) :
  keepsReport (appendResponseLine line).
Proof. by intros w. Qed.

Lemma keepsReport_setIsRunningCoverage (b : bool) :
  keepsReport (setIsRunningCoverage b).
Proof. by intros w. Qed.

Lemma keepsReport_setCoverageOptions (o : CoverageOptions) :
  keepsReport (setCoverageOptions o).
Proof. by intros w. Qed.

Lemma keepsReport_readContext {A} (get : Context → A) : keepsReport (readContext get).
Proof. by intros w. Qed.

Lemma keepsReport_callProvider {P} (call : ProviderCall) (promise : P) :
  keepsReport (callProvider call promise).
Proof. by intros w. Qed.

Lemma keepsReport_tryCatch {A} (body : M A) (handler : string → M A) :
  keepsReport body → (∀ e, keepsReport (handler e)) → keepsReport (tryCatch body handler).
Proof.
  intros Hb Hh w. unfold tryCatch. specialize (Hb w).
  destruct (body w) as [w1 [a|e]]; simpl in *; [done |].
  by rewrite Hh.
Qed.

Lemma keepsReport_tryCatchFinally {A} (body : M A) (handler : string → M A)
    (finalizer : M unit) :
  keepsReport body → (∀ e, keepsReport (handler e)) → keepsReport finalizer →
  keepsReport (tryCatchFinally body handler finalizer).
Proof.
  intros Hb Hh Hf w. unfold tryCatchFinally.
  pose proof (keepsReport_tryCatch body handler Hb Hh w) as Ht.
  destruct (tryCatch body handler w) as [w1 r1]. simpl in Ht.
  specialize (Hf w1). destruct (finalizer w1) as [w2 [[]|e]]; simpl in *; congruence.
Qed.

Lemma keepsReport_awaitAll (promises : list (Promise unit)) :
  keepsReport (awaitAll promises).
Proof.
  unfold awaitAll. destruct (firstRejected promises);
    [apply keepsReport_lift | apply keepsReport_ret].
Qed.

Create HintDb keeps.

#[local] Hint Resolve keepsReport_ret keepsReport_lift keepsReport_appendResponseLine
  keepsReport_setIsRunningCoverage keepsReport_setCoverageOptions
  keepsReport_readContext keepsReport_callProvider keepsReport_awaitAll : keeps.

Ltac keeps :=
  repeat first
    [ progress eauto with keeps
    | apply keepsReport_bind; [| intros ?]
    | apply keepsReport_tryCatchFinally; [| intros ? |]
    | apply keepsReport_tryCatch; [| intros ?]
    | match goal with
      | |- keepsReport (if ?b then _ else _) => destruct b
      | |- keepsReport (match ?o with Some _ => _ | None => _ end) => destruct o
      end ].

Lemma keepsReport_startCoverage (params : StartParams) (page : Page) :
  keepsReport (startCoverage params page).
Proof. unfold startCoverage, startCoverage_try. keeps. Qed.

Lemma keepsReport_stopCoverage (params : StopParams) (page : Page) :
  keepsReport (stopCoverage params page).
Proof.
  unfold stopCoverage, stopCoverageAndAppendOutput, stopCoverage_try, collect, await.
  keeps.
Qed.

Lemma keepsReport_suggestCodeSplits (params : SplitParams) :
  keepsReport (suggestCodeSplits params).
Proof. unfold suggestCodeSplits. keeps. Qed.

(** C1 does not hold of the code: the handler of coverage_stop never writes the
    last-coverage-report slot. Whatever the session, the page and the
    parameters, the slot holds after the call what it held before; the
    report that a successful stop computes only goes to the response. *)
Theorem stopCoverage_keeps_lastCoverageReport
    (params : StopParams) (page : Page) (w : World) :
  getLastCoverageReport (context (stopCoverage params page w).1)
  = getLastCoverageReport (context w).
Proof.
  destruct (isRunningCoverage (context w)) eqn:Hrun.
  - rewrite stopCoverage_running by done.
    apply stopCoverageAndAppendOutput_spec.
  - by rewrite stopCoverage_idle.
Qed.

(** No sequence of calls of the three tools changes the slot: a session
    that starts without a report never gets one. *)
Lemma runCalls_keeps_lastCoverageReport (calls : list ToolCall) (w : World) :
  getLastCoverageReport (context (runCalls calls w))
  = getLastCoverageReport (context w).
Proof.
  unfold runCalls. revert w. induction calls as [|call calls IH]; intros w; [done |].
  cbn [fold_left]. rewrite IH. destruct call as [params page|params page|params]; simpl.
  - apply keepsReport_startCoverage.
  - apply keepsReport_stopCoverage.
  - apply keepsReport_suggestCodeSplits.
Qed.

(** C3: the coverage session state machine, from every session state
    (hence along every call sequence).
    - coverage_start while the running flag is set leaves the flag set,
      makes no provider call and appends the rejection.
    - coverage_stop while the flag is clear leaves the context as it was
      (the flag clear), makes no provider call and appends the rejection.
    - coverage_stop that begins the report computation returns normally
      with the flag clear; when the computation throws, what it appended
      to the response is the error description and nothing else. *)
Theorem coverage_state_machine (page : Page) (w : World) :
  (∀ params,
     isRunningCoverage (context w) = true →
     let w' := (startCoverage params page w).1 in
     (startCoverage params page w).2 = Normal tt
     ∧ context w' = context w
     ∧ providerCalls w' = providerCalls w
     ∧ responseLines w' = responseLines w ++ [ alreadyRunningLine ])
  ∧ (∀ params,
       isRunningCoverage (context w) = false →
       let w' := (stopCoverage params page w).1 in
       (stopCoverage params page w).2 = Normal tt
       ∧ context w' = context w
       ∧ providerCalls w' = providerCalls w
       ∧ responseLines w' = responseLines w ++ notRunningLines)
  ∧ (∀ params,
       isRunningCoverage (context w) = true →
       let w' := (stopCoverage params page w).1 in
       (stopCoverage params page w).2 = Normal tt
       ∧ isRunningCoverage (context w') = false
       ∧ ∀ errorText,
           (stopCoverage_try page (paginationOf params) w).2 = Throw errorText →
           responseLines w' = responseLines w ++ reportErrorLines errorText).
Proof.
  split; [| split]; intros params Hrun.
  - by rewrite startCoverage_running.
  - by rewrite stopCoverage_idle.
  - rewrite stopCoverage_running by done.
    pose proof (stopCoverageAndAppendOutput_spec page (paginationOf params) w)
      as (Hret & Hflag & _ & _ & Herr).
    done.
Qed.

End SessionFacts.

Lemma coverage_state_machine_witness :
  let w' := (@stopCoverage sampleHost defaultStop brokenPage runningWorld).1 in
  isRunningCoverage (context w') = false
  ∧ responseLines w' = reportErrorLines "Target closed".
Proof.
  destruct (proj2 (proj2 (@coverage_state_machine sampleHost brokenPage runningWorld))
              defaultStop eq_refl) as (_ & Hflag & Herr).
  split; [exact Hflag |].
  exact (Herr "Target closed" eq_refl).
Defined.

(** A session for C1: coverage is running, the
    provider hands back one JavaScript record, and no report is stored.
    After coverage_stop the response holds the report, the slot is still
    empty, and suggest_code_splits answers that there is no data. *)
Example coverage_stop_then_suggest :
  let w' := (@stopCoverage sampleHost defaultStop samplePage runningWorld).1 in
  length (responseLines w') = 3%nat
  ∧ getLastCoverageReport (context w') = None
  ∧ head (responseLines
            (@suggestCodeSplits sampleHost defaultSplit
               (mkWorld (context w') [] (providerCalls w'))).1)
    = Some "## Error: No Coverage Data Available".
Proof. vm_compute. done. Qed.

(* ================================================================== *)
(** * The rendering of suggest_code_splits *)
(* ================================================================== *)

Lemma filter_flat_map_nil {A B} (p : B → bool) (f : A → list B) (l : list A) :
  (∀ x, List.filter p (f x) = []) → List.filter p (flat_map f l) = [].
Proof.
  intros Hf. induction l as [|x l IH]; simpl; [done |].
  by rewrite List.filter_app, Hf, IH.
Qed.

Lemma filter_map_nil {A B} (p : B → bool) (f : A → B) (l : list A) :
  (∀ x, p (f x) = false) → List.filter p (map f l) = [].
Proof.
  intros Hf. induction l as [|x l IH]; simpl; [done |].
  by rewrite Hf, IH.
Qed.

Section RenderingFacts.
Context `{Host}.

(** Neither a line of advice nor the title of the last table occurs in
    the table of heavy dependencies or in the tree-shaking section. *)
Lemma heavyDepsTable_plain (p : string → bool) (heavyDeps : list (string * CoverageReportEntry)) :
  p = isAdviceLine ∨ p = isAllCandidatesTitle →
  List.filter p (heavyDepsTable heavyDeps) = [].
Proof.
  intros Hp. unfold heavyDepsTable. destruct (0 <? length heavyDeps)%nat; [| done].
  rewrite !List.filter_app.
  rewrite filter_flat_map_nil.
  - destruct Hp as [-> | ->]; reflexivity.
  - intros [dep entry]. simpl. destruct (alternativesOf dep); [| done].
    apply filter_map_nil. intros alt. destruct Hp as [-> | ->]; reflexivity.
Qed.

Lemma treeShakingSection_plain (p : string → bool)
    (heavyDeps : list (string * CoverageReportEntry)) :
  p = isAdviceLine ∨ p = isAllCandidatesTitle →
  List.filter p (treeShakingSection heavyDeps) = [].
Proof.
  intros Hp. unfold treeShakingSection. destruct (0 <? length heavyDeps)%nat; [| done].
  rewrite !List.filter_app.
  rewrite filter_flat_map_nil.
  - destruct Hp as [-> | ->]; reflexivity.
  - intros [dep entry]. destruct Hp as [-> | ->]; reflexivity.
Qed.

Lemma isAdviceLine_lazyLoadEntry (c : CodeSplitSuggestion) :
  List.filter isAdviceLine (lazyLoadEntry c) = [ hd "" (lazyLoadEntry c) ].
Proof.
  unfold lazyLoadEntry. cbn [List.filter hd].
  match goal with
  | |- context [isAdviceLine ?line] =>
      assert (isAdviceLine line = true) as ->
        by (apply prefix_spec; eexists; reflexivity)
  end.
  reflexivity.
Qed.

Lemma advice_flat_map (l : list CodeSplitSuggestion) :
  length (List.filter isAdviceLine (flat_map lazyLoadEntry l)) = length l.
Proof.
  induction l as [|c l IH]; [done |].
  cbn [flat_map]. rewrite List.filter_app, isAdviceLine_lazyLoadEntry.
  rewrite length_app, IH. reflexivity.
Qed.

(** The lazy-load section holds one line of advice for each of the first
    five lazy-load candidates. *)
Lemma lazyLoadSection_advice (candidates : list CodeSplitSuggestion) :
  length (List.filter isAdviceLine (lazyLoadSection candidates))
  = Nat.min 5 (length (List.filter isLazyLoadCandidate candidates)).
Proof.
  unfold lazyLoadSection.
  destruct (List.filter isLazyLoadCandidate candidates) as [|c l] eqn:E; [done |].
  cbn [length Nat.ltb Nat.leb].
  rewrite List.filter_app, length_app, advice_flat_map, length_take.
  reflexivity.
Qed.

Lemma lazyLoadSection_no_title (candidates : list CodeSplitSuggestion) :
  List.filter isAllCandidatesTitle (lazyLoadSection candidates) = [].
Proof.
  unfold lazyLoadSection.
  destruct (0 <? _)%nat; [| done].
  rewrite List.filter_app, filter_flat_map_nil; [reflexivity |].
  intros c. reflexivity.
Qed.

Lemma allCandidatesTable_no_advice (candidates : list CodeSplitSuggestion) :
  List.filter isAdviceLine (allCandidatesTable candidates) = [].
Proof.
  unfold allCandidatesTable. rewrite !List.filter_app.
  rewrite filter_map_nil by (intros c; reflexivity).
  destruct (15 <? length candidates)%nat; reflexivity.
Qed.

(** With at least one candidate, the lines are the summary, the three
    optional sections and the table of all candidates. *)
Lemma codeSplitLines_sections (jsCoverage : list CoverageReportEntry)
    (minBundleSizeKB minUnusedPercent : Q) :
  let candidates := candidatesOf jsCoverage minBundleSizeKB minUnusedPercent in
  let heavyDeps := heavyDepsOf jsCoverage minBundleSizeKB minUnusedPercent in
  candidates ≠ [] →
  ∃ summaryLines,
    length summaryLines = 9%nat
    ∧ List.filter isAdviceLine summaryLines = []
    ∧ List.filter isAllCandidatesTitle summaryLines = []
    ∧ codeSplitLines jsCoverage minBundleSizeKB minUnusedPercent
      = summaryLines ++ heavyDepsTable heavyDeps ++ lazyLoadSection candidates
        ++ treeShakingSection heavyDeps ++ allCandidatesTable candidates.
Proof.
  unfold candidatesOf, heavyDepsOf, codeSplitLines.
  destruct (fold_left _ jsCoverage ([], [])) as [candidates heavyDeps].
  cbn [fst snd]. intros Hne.
  destruct (sortCandidates candidates) as [|c l] eqn:E; [done |].
  cbn [length Nat.eqb].
  eexists. split; [| split; [| split; [| reflexivity]]]; reflexivity.
Qed.

Lemma codeSplitLines_none (jsCoverage : list CoverageReportEntry)
    (minBundleSizeKB minUnusedPercent : Q) :
  candidatesOf jsCoverage minBundleSizeKB minUnusedPercent = [] →
  List.filter isAdviceLine (codeSplitLines jsCoverage minBundleSizeKB minUnusedPercent) = [].
Proof.
  unfold candidatesOf, codeSplitLines.
  destruct (fold_left _ jsCoverage ([], [])) as [candidates heavyDeps].
  cbn [fst snd]. intros ->. reflexivity.
Qed.

(** C10: the rendering of suggest_code_splits is truncated. Among the
    lines rendered for a report, the lines of lazy-load advice number the
    lazy-load candidates but at most 5. With at least one candidate the
    lines end in the one table titled All Optimization Opportunities,
    whose rows are those of the first 15 candidates; past 15 candidates
    the rest is only counted, in a closing line. *)
Theorem codeSplitLines_truncated (jsCoverage : list CoverageReportEntry)
    (minBundleSizeKB minUnusedPercent : Q) :
  let lines := codeSplitLines jsCoverage minBundleSizeKB minUnusedPercent in
  let candidates := candidatesOf jsCoverage minBundleSizeKB minUnusedPercent in
  let lazyLoadCandidates := List.filter isLazyLoadCandidate candidates in
  length (List.filter isAdviceLine lines) = Nat.min 5 (length lazyLoadCandidates)
  ∧ (candidates ≠ [] →
     ∃ before rows trailer,
       lines = before
               ++ [ allCandidatesTitle; "";
                    "| URL | Priority | Size | Used | Unused | Usage % |";
                    "|-----|----------|------|------|--------|---------|" ]
               ++ rows ++ trailer
       ∧ List.filter isAllCandidatesTitle before = []
       ∧ rows = candidateRow <$> take 15 candidates
       ∧ length rows = Nat.min 15 (length candidates)
       ∧ ((length candidates ≤ 15)%nat → trailer = [])
       ∧ ((15 < length candidates)%nat →
          trailer = [ ""; "*...and " +:+ show_nat (length candidates - 15)
                          +:+ " more opportunities*" ])).
Proof.
  intros lines candidates lazyLoadCandidates.
  assert (Hsections := codeSplitLines_sections jsCoverage minBundleSizeKB minUnusedPercent).
  cbv zeta in Hsections. fold candidates in Hsections. fold lines in Hsections.
  split.
  - destruct (decide (candidates = [])) as [Hnil | Hne].
    + subst lines lazyLoadCandidates. rewrite codeSplitLines_none by done.
      fold candidates. by rewrite Hnil.
    + destruct (Hsections Hne) as (summaryLines & _ & Hadvice & _ & ->).
      rewrite !List.filter_app, !length_app, Hadvice.
      rewrite heavyDepsTable_plain, treeShakingSection_plain by eauto.
      rewrite allCandidatesTable_no_advice, lazyLoadSection_advice.
      simpl. subst lazyLoadCandidates. lia.
  - intros Hne.
    destruct (Hsections Hne) as (summaryLines & _ & _ & Htitle & ->).
    exists (summaryLines
            ++ heavyDepsTable (heavyDepsOf jsCoverage minBundleSizeKB minUnusedPercent)
            ++ lazyLoadSection candidates
            ++ treeShakingSection (heavyDepsOf jsCoverage minBundleSizeKB minUnusedPercent)),
      (candidateRow <$> take 15 candidates),
      (if (15 <? length candidates)%nat
       then [ ""; "*...and " +:+ show_nat (length candidates - 15)
                  +:+ " more opportunities*" ]
       else []).
    split; [| split; [| split; [| split; [| split]]]].
    + unfold allCandidatesTable. by rewrite <- !app_assoc.
    + rewrite !List.filter_app, Htitle.
      rewrite heavyDepsTable_plain, treeShakingSection_plain by eauto.
      by rewrite lazyLoadSection_no_title.
    + reflexivity.
    + by rewrite length_fmap, length_take.
    + intros Hle. destruct (Nat.ltb_spec 15 (length candidates)); [lia | done].
    + intros Hlt. destruct (Nat.ltb_spec 15 (length candidates)); [done | lia].
Qed.

(** The handler appends these lines, joined, when the session holds a
    report with JavaScript entries. *)
Lemma suggestCodeSplits_lines (params : SplitParams) (w : World) (report : CoverageReport) :
  getLastCoverageReport (context w) = Some report →
  jsCoverage report ≠ [] →
  suggestCodeSplits params w
  = appendResponseLine
      (join (String "010" "")
         (codeSplitLines (jsCoverage report)
            (default 50%Q (p_minBundleSizeKB params))
            (default 20%Q (p_minUnusedPercent params)))) w.
Proof.
  intros Hreport Hjs. unfold suggestCodeSplits, readContext, mbind, M_bind.
  cbv beta iota zeta. rewrite Hreport.
  destruct (jsCoverage report); [done | reflexivity].
Qed.

End RenderingFacts.

Lemma codeSplitLines_truncated_witness :
  let lines := @codeSplitLines sampleHost (wastedEntries 17) 50 20 in
  length (List.filter isAdviceLine lines) = 5%nat
  ∧ ∃ before rows trailer,
      lines = before
              ++ [ allCandidatesTitle; "";
                   "| URL | Priority | Size | Used | Unused | Usage % |";
                   "|-----|----------|------|------|--------|---------|" ]
              ++ rows ++ trailer
      ∧ length rows = 15%nat
      ∧ trailer = [ ""; "*...and 2 more opportunities*" ].
Proof.
  destruct (@codeSplitLines_truncated sampleHost (wastedEntries 17) 50 20)
    as [Hadvice Htable].
  split; [exact Hadvice |].
  destruct Htable as (before & rows & trailer & Hlines & _ & _ & Hrows & _ & Htrailer).
  { vm_compute. discriminate. }
  exists before, rows, trailer. split; [exact Hlines |]. split; [exact Hrows |].
  apply Htrailer. vm_compute. lia.
Defined.

(* ================================================================== *)
(** * Further facts: the chains of the detector *)
(* ================================================================== *)

Lemma consecutive_cons {A} (R : A → A → Prop) (x y : A) (l : list A) :
  consecutive R (x :: y :: l) ↔ R x y ∧ consecutive R (y :: l).
Proof. reflexivity. Qed.

Lemma consecutive_fmap {A B} (f : A → B) (R : A → A → Prop) (S : B → B → Prop)
    (l : list A) :
  (∀ x y, R x y → S (f x) (f y)) → consecutive R l → consecutive S (f <$> l).
Proof.
  intros HRS. induction l as [|x [|y l] IH]; [done | done |].
  intros [Hxy Hl]. split; [by apply HRS | by apply IH].
Qed.

(** What the inner loop adds, with where it comes from: scripts of the
    array, each following the one before. *)
Lemma growChain_steps (fuel : nat) (scripts : list TimedScript)
    (chainNodes : list BundleChainNode) (chainUrls : list string)
    (usedUrls : gset string) (cur : TimedScript)
    (chainNodes' : list BundleChainNode) (chainUrls' : list string)
    (usedUrls' : gset string) :
  growChain fuel scripts chainNodes chainUrls usedUrls cur
    = Some (chainNodes', chainUrls', usedUrls') →
  cur ∈ scripts →
  ∃ added : list TimedScript,
    chainNodes' = chainNodes ++ (nodeOf <$> cur :: added)
    ∧ chainUrls' = chainUrls ++ (ts_url <$> cur :: added)
    ∧ Forall (λ s, s ∈ scripts) (cur :: added)
    ∧ consecutive follows (cur :: added).
Proof.
  revert chainNodes chainUrls usedUrls cur.
  induction fuel as [|fuel IH]; intros chainNodes chainUrls usedUrls cur Hrun Hcur;
    [discriminate |].
  cbn [growChain] in Hrun.
  destruct (find _ scripts) as [nxt|] eqn:Hfind.
  - apply find_some in Hfind as [Hin Hnext].
    apply list_elem_of_In in Hin.
    apply isNextScript_true in Hnext as (Hfresh & Hlo & Hhi).
    destruct (IH _ _ _ _ Hrun Hin) as (added & -> & -> & Hall & Hcons).
    exists (nxt :: added). rewrite <- !app_assoc.
    split; [done |]. split; [done |]. split; [by constructor |].
    split; [| done]. split; [set_solver | done].
  - exists []. simplify_eq. split; [done |]. split; [done |].
    split; [by repeat constructor | done].
Qed.

Lemma linkChain_nodes (s : TimedScript) (rest : list TimedScript) :
  ∃ r, linkChain (nodeOf <$> s :: rest) = [r]
       ∧ bare <$> chainNodesOf r = nodeOf <$> s :: rest.
Proof.
  revert s. induction rest as [|s' rest IH]; intros s.
  - exists (nodeOf s). done.
  - destruct (IH s') as (r' & Hlink & Hnodes).
    exists (setChildren (nodeOf s) [r']). split.
    + change (nodeOf <$> s :: s' :: rest)
        with (nodeOf s :: (nodeOf <$> s' :: rest)).
      cbn [linkChain]. rewrite Hlink. reflexivity.
    + cbn [chainNodesOf setChildren children fmap list_fmap].
      change (list_fmap _ _ bare (chainNodesOf r')) with (bare <$> chainNodesOf r').
      rewrite Hnodes. reflexivity.
Qed.

Lemma last_fmap {A B} (f : A → B) (l : list A) (d : A) :
  List.last (f <$> l) (f d) = f (List.last l d).
Proof.
  induction l as [|x [|y l] IH]; [done | done |].
  change (f <$> x :: y :: l) with (f x :: (f <$> y :: l)).
  cbn [List.last]. exact IH.
Qed.

(** A kept chain consists of the scripts of the grown chain and meets
    both thresholds. *)
Lemma keepChain_chainOf (minChainDepth : Z) (minChainTimeMs : float)
    (s : TimedScript) (rest : list TimedScript) (c : BundleChain) :
  c ∈ keepChain minChainDepth minChainTimeMs (nodeOf <$> s :: rest)
        (ts_url <$> s :: rest) →
  chainOf (s :: rest) c ∧ meetsThresholds minChainDepth minChainTimeMs c = true.
Proof.
  unfold keepChain, meetsThresholds, chainOf.
  destruct (minChainDepth <=? _)%Z eqn:Hdepth; [| by intros ?%elem_of_nil].
  destruct (linkChain_nodes s rest) as (r & -> & Hnodes).
  change (nodeOf <$> s :: rest) with (nodeOf s :: (nodeOf <$> rest)) in *.
  cbv beta iota zeta.
  change (nodeOf s :: (nodeOf <$> rest)) with (nodeOf <$> s :: rest) in *.
  rewrite (last_fmap nodeOf (s :: rest) s).
  destruct (minChainTimeMs <=? _)%float eqn:Htime; [| by intros ?%elem_of_nil].
  intros ->%list_elem_of_singleton. cbn [depth urls root totalTimeMs].
  rewrite length_fmap in *. rewrite Hdepth, Htime. done.
Qed.

Lemma keepChain_depth_0 (minChainDepth : Z) (minChainTimeMs : float) (chainUrls : list string) :
  keepChain minChainDepth minChainTimeMs [] chainUrls = [].
Proof. unfold keepChain. by destruct (minChainDepth <=? _)%Z. Qed.

(** The chains that the outer loop adds, one by one. *)
Lemma buildChains_chains (scripts remaining : list TimedScript)
    (minChainDepth : Z) (minChainTimeMs : float)
    (chains : list BundleChain) (usedUrls : gset string) (result : list BundleChain) :
  (∀ s, s ∈ remaining → s ∈ scripts) →
  buildChains scripts remaining minChainDepth minChainTimeMs chains usedUrls
    = Some result →
  ∃ new,
    result = chains ++ new
    ∧ Forall (λ c, ∃ members,
                chainOf members c
                ∧ Forall (λ s, s ∈ scripts) members
                ∧ consecutive follows members
                ∧ meetsThresholds minChainDepth minChainTimeMs c = true) new.
Proof.
  revert chains usedUrls.
  induction remaining as [|script remaining IH]; intros chains usedUrls Hsub Hrun.
  - exists []. simplify_eq/=. by rewrite app_nil_r.
  - cbn [buildChains] in Hrun.
    assert (Hsub' : ∀ s, s ∈ remaining → s ∈ scripts)
      by (intros s Hs; apply Hsub; by right).
    case_bool_decide as Hseen; [by apply (IH chains usedUrls) |].
    destruct (growChain _ scripts [] [] usedUrls script)
      as [[[chainNodes chainUrls] usedUrls']|] eqn:Hgrow; [| discriminate].
    destruct (growChain_steps _ _ _ _ _ _ _ _ _ Hgrow) as (added & -> & -> & Hall & Hcons).
    { apply Hsub. by left. }
    rewrite !app_nil_l in Hrun.
    destruct (IH _ _ Hsub' Hrun) as (new & -> & Hnew).
    eexists. rewrite <- app_assoc. split; [reflexivity |].
    apply Forall_app. split; [| done].
    apply Forall_forall. intros c Hc.
    apply keepChain_chainOf in Hc as [Hc Hmeets]. eauto.
Qed.

(** Every chain that the detector returns consists of timed scripts of the
    input, each following the one before, and meets the thresholds. *)
Lemma detectBundleChains_chains (requests : list HTTPRequest)
    (minChainDepth : Z) (minChainTimeMs : float) (chains : list BundleChain) :
  detectBundleChains requests minChainDepth minChainTimeMs = Some chains →
  Forall (λ c, ∃ members,
            chainOf members c
            ∧ Forall (λ s, s ∈ scriptsWithTiming requests) members
            ∧ consecutive follows members
            ∧ meetsThresholds minChainDepth minChainTimeMs c = true) chains.
Proof.
  unfold detectBundleChains. intros Hrun.
  apply buildChains_chains in Hrun as (new & -> & Hnew); [| done].
  simpl. eapply Forall_impl; [exact Hnew |].
  intros c (members & Hc & Hall & Hcons & Hmeets). exists members.
  split; [done |]. split; [| done].
  eapply Forall_impl; [exact Hall |]. intros s Hs. cbv beta in *.
  eapply elem_of_Permutation_proper; [| exact Hs].
  symmetry. apply sortByEndTime_Permutation.
Qed.

Lemma consecutive_fmap_inv {A B} (f : A → B) (R : A → A → Prop) (S : B → B → Prop)
    (l : list A) :
  (∀ x y, S (f x) (f y) → R x y) → consecutive S (f <$> l) → consecutive R l.
Proof.
  intros HSR. induction l as [|x [|y l] IH]; [done | done |].
  intros [Hxy Hl]. split; [by apply HSR | by apply IH].
Qed.

Lemma chainNodesOf_head (n : BundleChainNode) : ∃ tl, chainNodesOf n = n :: tl.
Proof. destruct n. simpl. eauto. Qed.

Lemma chainOf_nonempty (members : list TimedScript) (c : BundleChain) :
  chainOf members c → ∃ first rest, members = first :: rest.
Proof. intros (_ & _ & _ & H). destruct members; [done | eauto]. Qed.

Lemma meetsThresholds_true (minChainDepth : Z) (minChainTimeMs : float) (c : BundleChain) :
  meetsThresholds minChainDepth minChainTimeMs c = true
  ↔ (minChainDepth ≤ Z.of_nat (depth c))%Z
    ∧ (minChainTimeMs <=? totalTimeMs c)%float = true.
Proof.
  unfold meetsThresholds. by rewrite andb_true_iff, Z.leb_le.
Qed.

(** X1: every chain that [detectBundleChains] returns meets both
    thresholds: it has at least minChainDepth nodes and its total time is
    at least minChainTimeMs. Its depth is the number of its linked nodes
    and of its URLs, at least 1, and its total time is the difference, as
    the code rounds it, between the end of its last node and the start of
    its root. *)
Theorem detectBundleChains_thresholds (requests : list HTTPRequest)
    (minChainDepth : Z) (minChainTimeMs : float) :
  ∃ chains,
    detectBundleChains requests minChainDepth minChainTimeMs = Some chains
    ∧ Forall (λ c,
        (minChainDepth ≤ Z.of_nat (depth c))%Z
        ∧ (minChainTimeMs <=? totalTimeMs c)%float = true
        ∧ (1 ≤ depth c)%nat
        ∧ length (chainNodesOf (root c)) = depth c
        ∧ length (urls c) = depth c
        ∧ totalTimeMs c
          = (node_endTimeMs (List.last (chainNodesOf (root c)) (root c))
             - node_startTimeMs (root c))%float) chains.
Proof.
  destruct (detectBundleChains_total requests minChainDepth minChainTimeMs)
    as [chains Hrun].
  exists chains. split; [done |].
  eapply Forall_impl; [exact (detectBundleChains_chains _ _ _ _ Hrun) |].
  intros c (members & Hc & _ & _ & Hmeets).
  apply meetsThresholds_true in Hmeets as [Hd Ht].
  destruct (chainOf_nonempty _ _ Hc) as (first & rest & ->).
  destruct Hc as (Hdepth & Hurls & Hnodes & Htotal).
  assert (Hlen : length (chainNodesOf (root c)) = length (first :: rest)).
  { rewrite <- (length_fmap bare), Hnodes. apply length_fmap. }
  split; [done |]. split; [done |]. split; [rewrite Hdepth; simpl; lia |].
  split; [congruence |]. split; [by rewrite Hurls, length_fmap |].
  rewrite Htotal.
  assert (Hroot : bare (root c) = nodeOf first).
  { destruct (chainNodesOf_head (root c)) as [tl Htl].
    pose proof Hnodes as Hhead. rewrite Htl, !fmap_cons in Hhead.
    apply (f_equal head) in Hhead. by apply (inj Some). }
  assert (Hlast : bare (List.last (chainNodesOf (root c)) (root c))
                  = nodeOf (List.last (first :: rest) first)).
  { rewrite <- (last_fmap bare), <- (last_fmap nodeOf), Hnodes, Hroot. reflexivity. }
  apply (f_equal node_endTimeMs) in Hlast.
  apply (f_equal node_startTimeMs) in Hroot.
  simpl in Hlast, Hroot. by rewrite Hlast, Hroot.
Qed.

(** X2: in every chain that [detectBundleChains] returns, each node after
    the root belongs to another URL than the node before it and passes
    the two tests of the code against it: its start time is at least the
    end time of that node and at most that end time plus 50, the sum
    rounded as the code rounds it. *)
Theorem detectBundleChains_adjacent (requests : list HTTPRequest)
    (minChainDepth : Z) (minChainTimeMs : float) :
  ∃ chains,
    detectBundleChains requests minChainDepth minChainTimeMs = Some chains
    ∧ Forall (λ c,
        consecutive (λ n m,
          node_url n ≠ node_url m
          ∧ (node_endTimeMs n <=? node_startTimeMs m)%float = true
          ∧ (node_startTimeMs m <=? node_endTimeMs n + 50)%float = true)
          (chainNodesOf (root c))) chains.
Proof.
  destruct (detectBundleChains_total requests minChainDepth minChainTimeMs)
    as [chains Hrun].
  exists chains. split; [done |].
  eapply Forall_impl; [exact (detectBundleChains_chains _ _ _ _ Hrun) |].
  intros c (members & (_ & _ & Hnodes & _) & _ & Hcons & _).
  apply (consecutive_fmap_inv bare _
           (λ n m, node_url n ≠ node_url m
                   ∧ (node_endTimeMs n <=? node_startTimeMs m)%float = true
                   ∧ (node_startTimeMs m <=? node_endTimeMs n + 50)%float = true));
    [done |].
  rewrite Hnodes. eapply consecutive_fmap; [| exact Hcons].
  intros x y Hxy. exact Hxy.
Qed.

(** ** Where the nodes come from *)

Lemma scriptsWithTiming_elem (requests : list HTTPRequest) (s : TimedScript) :
  s ∈ scriptsWithTiming requests →
  ∃ r tm, r ∈ requests ∧ resourceType r = "script" ∧ getRequestTiming r = Some tm
          ∧ s = mkTimedScript r (req_url r) (rt_startTimeMs tm) (rt_endTimeMs tm)
                  (rt_sizeBytes tm).
Proof.
  unfold scriptsWithTiming. intros Hs.
  apply list_elem_of_omap in Hs as (r & Hr & Hts).
  apply list_elem_of_In, filter_In in Hr as [Hr Hscript].
  unfold timedScript in Hts.
  destruct (getRequestTiming r) as [tm|] eqn:Htm; [| discriminate].
  exists r, tm. split; [by apply list_elem_of_In |].
  split; [by apply String.eqb_eq |]. by simplify_eq.
Qed.

(** The requests that the detector times are the scripts with a response
    and timing data. *)
Lemma isTimedScript_spec (r : HTTPRequest) :
  isTimedScript r = isScript r && bool_decide (is_Some (timedScript r)).
Proof.
  unfold isTimedScript, isScript, timedScript, getRequestTiming. f_equal.
  - destruct (String.eqb_spec (resourceType r) "script");
      [by apply bool_decide_eq_true_2 | by apply bool_decide_eq_false_2].
  - destruct (response r) as [resp|]; [| by rewrite bool_decide_eq_false_2 by by inversion 1].
    destruct (timing resp) as [tm|].
    + by rewrite !bool_decide_eq_true_2 by eauto.
    + by rewrite !bool_decide_eq_false_2 by by inversion 1.
Qed.

Lemma scriptsWithTiming_filter (requests : list HTTPRequest) :
  scriptsWithTiming (List.filter isTimedScript requests) = scriptsWithTiming requests.
Proof.
  unfold scriptsWithTiming.
  induction requests as [|r l IH]; [done |].
  cbn [List.filter]. rewrite isTimedScript_spec.
  destruct (isScript r) eqn:Hscript; cbn [andb]; [| exact IH].
  case_bool_decide as Htimed.
  - cbn [List.filter]. rewrite Hscript. cbn [omap list_omap].
    fold (omap timedScript (List.filter isScript (List.filter isTimedScript l))).
    fold (omap timedScript (List.filter isScript l)).
    by rewrite IH.
  - cbn [omap list_omap].
    destruct (timedScript r) eqn:E; [by destruct Htimed |].
    exact IH.
Qed.

(** X3: the chains are made of the requests of resource type "script"
    that have a response with timing data, and of nothing else. Every
    node of a returned chain carries the URL, the size and the times that
    [getRequestTiming] gives for one such request of the input, its load
    time being the rounded difference of end and start; and the requests
    of another resource type or without response or timing data can be
    left out of the input without changing the result. *)
Theorem detectBundleChains_provenance (requests : list HTTPRequest)
    (minChainDepth : Z) (minChainTimeMs : float) :
  (∃ chains,
     detectBundleChains requests minChainDepth minChainTimeMs = Some chains
     ∧ Forall (λ c,
         Forall (λ n, ∃ r tm,
           r ∈ requests ∧ resourceType r = "script" ∧ getRequestTiming r = Some tm
           ∧ node_url n = req_url r
           ∧ node_sizeBytes n = rt_sizeBytes tm
           ∧ node_startTimeMs n = rt_startTimeMs tm
           ∧ node_endTimeMs n = rt_endTimeMs tm
           ∧ node_loadTimeMs n = (rt_endTimeMs tm - rt_startTimeMs tm)%float)
           (chainNodesOf (root c))) chains)
  ∧ detectBundleChains (List.filter isTimedScript requests) minChainDepth minChainTimeMs
    = detectBundleChains requests minChainDepth minChainTimeMs.
Proof.
  split.
  - destruct (detectBundleChains_total requests minChainDepth minChainTimeMs)
      as [chains Hrun].
    exists chains. split; [done |].
    eapply Forall_impl; [exact (detectBundleChains_chains _ _ _ _ Hrun) |].
    intros c (members & (_ & _ & Hnodes & _) & Hall & _).
    apply Forall_forall. intros n Hn.
    apply (list_elem_of_fmap_2 bare) in Hn. rewrite Hnodes in Hn.
    apply list_elem_of_fmap in Hn as (s & Hbare & Hs).
    rewrite Forall_forall in Hall. apply Hall, scriptsWithTiming_elem in Hs
      as (r & tm & Hr & Hscript & Htm & ->).
    exists r, tm. split; [done |]. split; [done |]. split; [done |].
    destruct n as [u sz st en ld ch]. unfold bare, setChildren, nodeOf in Hbare.
    simpl in *. by simplify_eq.
  - unfold detectBundleChains. by rewrite scriptsWithTiming_filter.
Qed.

(** ** The thresholds only filter *)

Lemma keepChain_meets (minChainDepth : Z) (minChainTimeMs : float)
    (chainNodes : list BundleChainNode) (chainUrls : list string) (c : BundleChain) :
  c ∈ keepChain minChainDepth minChainTimeMs chainNodes chainUrls →
  depth c = length chainNodes
  ∧ ∀ d t, keepChain d t chainNodes chainUrls
           = if meetsThresholds d t c then [c] else [].
Proof.
  unfold keepChain, meetsThresholds.
  destruct (minChainDepth <=? _)%Z; [| by intros ?%elem_of_nil].
  destruct (linkChain chainNodes) as [|rootNode ?]; [by intros ?%elem_of_nil |].
  destruct chainNodes as [|first chainNodes]; [by intros ?%elem_of_nil |].
  destruct (minChainTimeMs <=? _)%float; [| by intros ?%elem_of_nil].
  intros ->%list_elem_of_singleton. cbn [depth totalTimeMs].
  split; [done |]. intros d t.
  destruct (d <=? _)%Z; [| done]. cbn [andb].
  by destruct (t <=? _)%float.
Qed.

Lemma keepChain_filter (d d' : Z) (t t' : float)
    (chainNodes : list BundleChainNode) (chainUrls : list string) :
  (d ≤ d')%Z → (t <=? t')%float = true →
  keepChain d' t' chainNodes chainUrls
  = List.filter (meetsThresholds d' t') (keepChain d t chainNodes chainUrls).
Proof.
  intros Hd Ht.
  destruct (keepChain d t chainNodes chainUrls) as [|c l] eqn:Hk.
  - unfold keepChain in *.
    destruct (d' <=? _)%Z eqn:Hd'; [| done].
    assert (Hd0 : (d <=? Z.of_nat (length chainNodes))%Z = true).
    { apply Z.leb_le. apply Z.leb_le in Hd'. lia. }
    rewrite Hd0 in Hk.
    destruct (linkChain chainNodes) as [|rootNode ?]; [done |].
    destruct chainNodes as [|first chainNodes]; [done |].
    destruct (t <=? node_endTimeMs _ - _)%float eqn:Ht0; [done |].
    destruct (t' <=? node_endTimeMs _ - _)%float eqn:Ht'; [| done].
    pose proof (leb_trans _ _ _ Ht Ht'). congruence.
  - assert (Hc : c ∈ keepChain d t chainNodes chainUrls) by (rewrite Hk; by left).
    apply keepChain_meets in Hc as [_ Hc].
    rewrite (Hc d t) in Hk. rewrite (Hc d' t').
    destruct (meetsThresholds d t c); [| done]. simplify_eq.
    cbn [List.filter]. by destruct (meetsThresholds d' t' c).
Qed.

Lemma buildChains_filter (scripts remaining : list TimedScript)
    (d d' : Z) (t t' : float) (chains : list BundleChain) (usedUrls : gset string) :
  (d ≤ d')%Z → (t <=? t')%float = true →
  buildChains scripts remaining d' t'
    (List.filter (meetsThresholds d' t') chains) usedUrls
  = List.filter (meetsThresholds d' t')
      <$> buildChains scripts remaining d t chains usedUrls.
Proof.
  intros Hd Ht. revert chains usedUrls.
  induction remaining as [|script remaining IH]; intros chains usedUrls; [done |].
  cbn [buildChains]. case_bool_decide; [apply IH |].
  destruct (growChain _ scripts [] [] usedUrls script)
    as [[[chainNodes chainUrls] usedUrls']|]; [| done].
  rewrite <- IH, List.filter_app. by rewrite <- (keepChain_filter d d' t t').
Qed.

(** X4: the thresholds only filter. Which scripts go into which chain
    does not depend on minChainDepth and minChainTimeMs: with stricter
    thresholds the detector returns exactly those chains of the laxer run
    that meet them, in the same order; a chain that is dropped does not
    free its scripts for another chain. *)
Theorem detectBundleChains_thresholds_filter (requests : list HTTPRequest)
    (d d' : Z) (t t' : float) :
  (d ≤ d')%Z → (t <=? t')%float = true →
  detectBundleChains requests d' t'
  = List.filter (meetsThresholds d' t') <$> detectBundleChains requests d t.
Proof.
  intros Hd Ht. unfold detectBundleChains.
  by rewrite <- (buildChains_filter _ _ d d' t t').
Qed.

Lemma detectBundleChains_thresholds_filter_witness :
  detectBundleChains [reqApp; reqVendor] 3 100
  = List.filter (meetsThresholds 3 100) <$> detectBundleChains [reqApp; reqVendor] 2 100.
Proof.
  apply detectBundleChains_thresholds_filter; [lia | reflexivity].
Defined.

(** X5: scripts that load in parallel form no chain. When no timed script
    of the input passes the two tests of the code against another one of
    another URL (start at least its end, and at most its end plus 50 as
    the code rounds the sum), the detector returns no chain for a minimum
    depth of 2 or more. *)
Theorem detectBundleChains_parallel (requests : list HTTPRequest)
    (minChainDepth : Z) (minChainTimeMs : float) :
  (2 ≤ minChainDepth)%Z →
  (∀ x y, x ∈ scriptsWithTiming requests → y ∈ scriptsWithTiming requests →
          ¬ follows x y) →
  detectBundleChains requests minChainDepth minChainTimeMs = Some [].
Proof.
  intros Hdepth Hpar.
  destruct (detectBundleChains_total requests minChainDepth minChainTimeMs)
    as [chains Hrun].
  rewrite Hrun. f_equal.
  pose proof (detectBundleChains_chains _ _ _ _ Hrun) as Hchains.
  destruct chains as [|c chains]; [done |]. exfalso.
  apply Forall_cons in Hchains as [(members & Hc & Hall & Hcons & Hmeets) _].
  apply meetsThresholds_true in Hmeets as [Hd _].
  destruct Hc as (Hlen & _).
  destruct members as [|x [|y members]]; simpl in Hlen; [lia | lia |].
  destruct Hcons as [Hxy _].
  apply Forall_cons in Hall as [Hx Hall]. apply Forall_cons in Hall as [Hy _].
  exact (Hpar x y Hx Hy Hxy).
Qed.

Lemma detectBundleChains_parallel_witness :
  detectBundleChains [documentRequest; reqApp; reqVendorLate] 2 0 = Some [].
Proof.
  apply detectBundleChains_parallel; [lia |].
  assert (E : scriptsWithTiming [documentRequest; reqApp; reqVendorLate]
              = [timedSample appUrl 0 100 50000; timedSample vendorUrl 160 250 80000])
    by (vm_compute; reflexivity).
  rewrite E. intros x y Hx Hy (Hurl & Hlo & Hhi).
  apply elem_of_cons in Hx as [-> | Hx%list_elem_of_singleton];
    apply elem_of_cons in Hy as [-> | Hy%list_elem_of_singleton]; subst;
    try (by apply Hurl);
    vm_compute in Hlo, Hhi; first [discriminate Hlo | discriminate Hhi].
Defined.

(* ================================================================== *)
(** * Further facts: preload tags and merge candidates *)
(* ================================================================== *)

Lemma length_append (a b : string) :
  String.length (a +:+ b) = (String.length a + String.length b)%nat.
Proof.
  induction a as [|c a IH]; [done |].
  rewrite append_cons. simpl. by rewrite IH.
Qed.

Lemma append_cancel_r (s u v : string) : u +:+ s = v +:+ s → u = v.
Proof.
  revert v. induction u as [|c u IH]; intros [|d v] Heq.
  - done.
  - apply (f_equal String.length) in Heq.
    rewrite append_cons, append_nil_l in Heq. simpl in Heq.
    rewrite length_append in Heq. lia.
  - apply (f_equal String.length) in Heq.
    rewrite append_cons, append_nil_l in Heq. simpl in Heq.
    rewrite length_append in Heq. lia.
  - rewrite !append_cons in Heq. injection Heq as -> Heq. f_equal. by apply IH.
Qed.

Lemma preloadTag_inj (u v : string) : preloadTag u = preloadTag v → u = v.
Proof.
  unfold preloadTag. intros Heq.
  repeat apply String.app_inj in Heq.
  by apply append_cancel_r in Heq.
Qed.

Lemma generatePreloadTags_fmap (chains : list BundleChain) :
  generatePreloadTags chains
  = preloadTag <$> concat ((λ c, drop 1 (urls c)) <$> chains).
Proof.
  unfold generatePreloadTags. induction chains as [|c chains IH]; [done |].
  cbn [flat_map fmap list_fmap concat]. rewrite fmap_app. by rewrite IH.
Qed.

Lemma elem_of_concat {A} (x : A) (ls : list (list A)) :
  x ∈ concat ls ↔ ∃ l, x ∈ l ∧ l ∈ ls.
Proof.
  induction ls as [|l ls IH]; simpl.
  - split; [intros ?%elem_of_nil; done | intros (l & _ & ?%elem_of_nil); done].
  - rewrite elem_of_app, IH. split.
    + intros [Hx | (l' & Hx & Hl')]; [exists l; split; [done | by left] |].
      exists l'. split; [done | by right].
    + intros (l' & Hx & [-> | Hl']%elem_of_cons); [by left |]. right. eauto.
Qed.

Lemma tails_of_chains (chains : list BundleChain) :
  Forall (λ c, urls c ≠ []) chains →
  NoDup (concat (urls <$> chains)) →
  NoDup (concat ((λ c, drop 1 (urls c)) <$> chains))
  ∧ length (concat ((λ c, drop 1 (urls c)) <$> chains))
    = (length (concat (urls <$> chains)) - length chains)%nat
  ∧ (∀ c u, c ∈ chains → head (urls c) = Some u →
            u ∉ concat ((λ c, drop 1 (urls c)) <$> chains))
  ∧ (∀ u, u ∈ concat ((λ c, drop 1 (urls c)) <$> chains) →
          u ∈ concat (urls <$> chains))
  ∧ (length chains ≤ length (concat (urls <$> chains)))%nat.
Proof.
  induction 1 as [|c chains Hc _ IH]; cbn [fmap list_fmap concat].
  - intros _. split; [constructor |]. split; [done |].
    split; [intros c u Hin; by apply elem_of_nil in Hin |].
    split; [intros u Hu; by apply elem_of_nil in Hu | done].
  - fold (urls <$> chains). fold ((λ c, drop 1 (urls c)) <$> chains).
    destruct (urls c) as [|first rest] eqn:Hurls; [done |].
    change (drop 1 (first :: rest)) with rest.
    intros Hnd. change ((first :: rest) ++ concat (urls <$> chains))
      with (first :: (rest ++ concat (urls <$> chains))) in *.
    apply NoDup_cons in Hnd as [Hfirst Hnd].
    apply NoDup_app in Hnd as (Hrest & Hdisj & Hnd).
    destruct (IH Hnd) as (IH1 & IH2 & IH3 & IH4 & IH5).
    split; [| split; [| split; [| split]]].
    + apply NoDup_app. split; [done |]. split; [| done].
      intros u Hu Hu'. exact (Hdisj u Hu (IH4 u Hu')).
    + rewrite length_app, IH2. cbn [length]. rewrite length_app. lia.
    + intros c' u Hc' Hhead Hu.
      apply elem_of_app in Hu as [Hu | Hu].
      * apply elem_of_cons in Hc' as [-> | Hc'].
        -- rewrite Hurls in Hhead. simplify_eq/=.
           apply Hfirst, elem_of_app. by left.
        -- assert (u ∈ concat (urls <$> chains)).
           { apply elem_of_concat. exists (urls c'). split.
             - destruct (urls c'); simplify_eq/=. by left.
             - by apply list_elem_of_fmap_2. }
           by apply (Hdisj u).
      * apply elem_of_cons in Hc' as [-> | Hc'].
        -- rewrite Hurls in Hhead. simplify_eq/=.
           apply Hfirst, elem_of_app. right. by apply IH4.
        -- by apply (IH3 c' u).
    + intros u Hu. apply elem_of_app in Hu as [Hu | Hu].
      * right. apply elem_of_app. by left.
      * right. apply elem_of_app. right. by apply IH4.
    + simpl. rewrite length_app. lia.
Qed.

Lemma chainOf_root (first : TimedScript) (rest : list TimedScript) (c : BundleChain) :
  chainOf (first :: rest) c → bare (root c) = nodeOf first.
Proof.
  intros (_ & _ & Hnodes & _).
  destruct (chainNodesOf_head (root c)) as [tl Htl].
  rewrite Htl, !fmap_cons in Hnodes.
  apply (f_equal head) in Hnodes. by apply (inj Some).
Qed.

(** The URLs of the returned chains are pairwise different, and the URL
    list of a chain starts with the URL of its root. *)
Lemma detectBundleChains_heads (requests : list HTTPRequest)
    (minChainDepth : Z) (minChainTimeMs : float) :
  ∃ chains,
    detectBundleChains requests minChainDepth minChainTimeMs = Some chains
    ∧ NoDup (concat (urls <$> chains))
    ∧ Forall (λ c, head (urls c) = Some (node_url (root c))) chains.
Proof.
  destruct (detectBundleChains_total requests minChainDepth minChainTimeMs)
    as [chains Hrun].
  exists chains. split; [done |]. split.
  - unfold detectBundleChains in Hrun.
    set (scripts := sortByEndTime (scriptsWithTiming requests)) in *.
    destruct (buildChains_spec scripts scripts minChainDepth minChainTimeMs [] ∅)
      as (result & Hres & Hnd & _); try done.
    + apply NoDup_nil_2.
    + intros u Hu. by apply elem_of_nil in Hu.
    + by simplify_eq.
  - eapply Forall_impl; [exact (detectBundleChains_chains _ _ _ _ Hrun) |].
    intros c (members & Hc & _).
    destruct (chainOf_nonempty _ _ Hc) as (first & rest & ->).
    pose proof (chainOf_root _ _ _ Hc) as Hroot.
    destruct Hc as (_ & -> & _). simpl.
    apply (f_equal node_url) in Hroot. simpl in Hroot. by rewrite Hroot.
Qed.

(** X6: for the chains that [detectBundleChains] returns,
    [generatePreloadTags] gives one tag for every script of a chain but
    the first of each chain: as many tags as chained URLs less the number
    of chains, no tag twice, and none for the URL of a root. *)
Theorem generatePreloadTags_detected (requests : list HTTPRequest)
    (minChainDepth : Z) (minChainTimeMs : float) :
  ∃ chains,
    detectBundleChains requests minChainDepth minChainTimeMs = Some chains
    ∧ length (generatePreloadTags chains)
      = (length (concat (urls <$> chains)) - length chains)%nat
    ∧ NoDup (generatePreloadTags chains)
    ∧ Forall (λ c, preloadTag (node_url (root c)) ∉ generatePreloadTags chains) chains
    ∧ ∀ tag, tag ∈ generatePreloadTags chains →
             ∃ c u, c ∈ chains ∧ u ∈ urls c ∧ tag = preloadTag u.
Proof.
  destruct (detectBundleChains_heads requests minChainDepth minChainTimeMs)
    as (chains & Hrun & Hnd & Hfirst).
  exists chains. split; [done |].
  assert (Hne : Forall (λ c, urls c ≠ []) chains).
  { eapply Forall_impl; [exact Hfirst |]. intros c Hu Hnil. cbv beta in Hu. by rewrite Hnil in Hu. }
  destruct (tails_of_chains chains Hne Hnd) as (Htails & Hlen & Hheads & Hsub & _).
  rewrite generatePreloadTags_fmap.
  split; [by rewrite length_fmap |].
  split; [apply NoDup_fmap_2; [intros u v; apply preloadTag_inj | done] |].
  split.
  - apply Forall_forall. intros c Hc Htag.
    apply list_elem_of_fmap in Htag as (u & Heq%preloadTag_inj & Hu). subst u.
    rewrite Forall_forall in Hfirst.
    exact (Hheads c _ Hc (Hfirst c Hc) Hu).
  - intros tag Htag.
    apply list_elem_of_fmap in Htag as (u & -> & Hu).
    apply elem_of_concat in Hu as (us & Hu & Hus).
    apply list_elem_of_fmap in Hus as (c & -> & Hc).
    exists c, u. split; [done |]. split; [| done].
    destruct (urls c); [done |]. by right.
Qed.

Lemma combinedSizeFrom_foldl (n : BundleChainNode) (combinedSize : float) :
  combinedSizeFrom n combinedSize
  = foldl PrimFloat.add combinedSize (node_sizeBytes <$> chainNodesOf n).
Proof.
  revert n combinedSize. fix IH 1. intros [u sz st en ld ch] combinedSize.
  destruct ch as [|child ch]; [reflexivity |].
  cbn [combinedSizeFrom chainNodesOf children node_sizeBytes].
  rewrite fmap_cons. cbn [foldl node_sizeBytes]. apply IH.
Qed.

Lemma foldl_add_nan (sizes : list float) (combinedSize : float) :
  is_nan combinedSize = true ∨ Exists (λ size, is_nan size = true) sizes →
  is_nan (foldl PrimFloat.add combinedSize sizes) = true.
Proof.
  revert combinedSize. induction sizes as [|size sizes IH]; intros combinedSize.
  - intros [H | H%Exists_nil]; done.
  - cbn [foldl]. intros [H | [H | H]%Exists_cons].
    + apply IH. left. apply add_nan. by left.
    + apply IH. left. apply add_nan. by right.
    + apply IH. by right.
Qed.

Lemma identifyMergeCandidates_all (chains : list BundleChain) :
  Forall (λ c, (2 ≤ length (urls c))%nat) chains →
  mc_urls <$> identifyMergeCandidates chains = urls <$> chains
  ∧ Forall2 (λ c m,
      combinedSizeKB m
      = (foldl PrimFloat.add 0 (node_sizeBytes <$> chainNodesOf (root c)) / 1024)%float
      ∧ (Exists (λ n, is_nan (node_sizeBytes n) = true) (chainNodesOf (root c)) →
         is_nan (combinedSizeKB m) = true))
      chains (identifyMergeCandidates chains).
Proof.
  unfold identifyMergeCandidates.
  induction 1 as [|c chains Hc _ [IH1 IH2]]; [by split; constructor |].
  cbn [flat_map]. apply Nat.leb_le in Hc. rewrite Hc.
  change ([?x] ++ ?l) with (x :: l). split.
  - rewrite !fmap_cons. by rewrite IH1.
  - constructor; [| done]. cbn [combinedSizeKB]. rewrite combinedSizeFrom_foldl.
    split; [done |]. intros Hnan. apply div_nan, foldl_add_nan. right.
    by apply Exists_fmap.
Qed.

(** X7: with a minimum depth of 2 or more, every chain that
    [detectBundleChains] returns is a merge candidate of
    [identifyMergeCandidates], in the same order and with the same URL
    list; its combined size in KB is the sum of the sizes of the nodes of
    the chain, added up from 0 in chain order, divided by 1024 (not a
    number as soon as one size is not a number). *)
Theorem identifyMergeCandidates_detected (requests : list HTTPRequest)
    (minChainDepth : Z) (minChainTimeMs : float) :
  (2 ≤ minChainDepth)%Z →
  ∃ chains,
    detectBundleChains requests minChainDepth minChainTimeMs = Some chains
    ∧ mc_urls <$> identifyMergeCandidates chains = urls <$> chains
    ∧ Forall2 (λ c m,
        combinedSizeKB m
        = (foldl PrimFloat.add 0 (node_sizeBytes <$> chainNodesOf (root c)) / 1024)%float
        ∧ (Exists (λ n, is_nan (node_sizeBytes n) = true) (chainNodesOf (root c)) →
           is_nan (combinedSizeKB m) = true))
        chains (identifyMergeCandidates chains).
Proof.
  intros Hdepth.
  destruct (detectBundleChains_total requests minChainDepth minChainTimeMs)
    as [chains Hrun].
  exists chains. split; [done |].
  apply identifyMergeCandidates_all.
  eapply Forall_impl; [exact (detectBundleChains_chains _ _ _ _ Hrun) |].
  intros c (members & (Hlen & -> & _) & _ & _ & Hmeets).
  apply meetsThresholds_true in Hmeets as [Hd _].
  rewrite length_fmap. lia.
Qed.

Lemma identifyMergeCandidates_detected_witness :
  ∃ chains,
    detectBundleChains [documentRequest; reqApp; reqVendor] 2 100 = Some chains
    ∧ mc_urls <$> identifyMergeCandidates chains = urls <$> chains
    ∧ Forall2 (λ c m,
        combinedSizeKB m
        = (foldl PrimFloat.add 0 (node_sizeBytes <$> chainNodesOf (root c)) / 1024)%float
        ∧ (Exists (λ n, is_nan (node_sizeBytes n) = true) (chainNodesOf (root c)) →
           is_nan (combinedSizeKB m) = true))
        chains (identifyMergeCandidates chains).
Proof. apply identifyMergeCandidates_detected. lia. Defined.

(** A chain of one script is no merge candidate. *)
Example identifyMergeCandidates_single :
  (identifyMergeCandidates <$> detectBundleChains [reqApp] 1 0) = Some [].
Proof. vm_compute. reflexivity. Qed.

(* ================================================================== *)
(** * Further facts: coverage reports *)
(* ================================================================== *)

Section CoverageFacts.
Context `{Host}.

Lemma calculateCoverageEntry_returns (entry : CoverageEntry) (pageUrl : string) :
  ∃ e, calculateCoverageEntry entry pageUrl = Normal e.
Proof.
  destruct (isThirdParty_total (ce_url entry) pageUrl) as [ext Hext].
  unfold calculateCoverageEntry. rewrite Hext. simpl. eauto.
Qed.

Lemma mapCompletion_classified (pageUrl : string) (entries : list CoverageEntry) :
  ∃ classified,
    mapCompletion (λ entry, calculateCoverageEntry entry pageUrl) entries
    = Normal classified
    ∧ Forall2 (λ entry e, calculateCoverageEntry entry pageUrl = Normal e)
        entries classified.
Proof.
  induction entries as [|entry entries (classified & IH & Hall)].
  - exists []. split; [done | constructor].
  - destruct (calculateCoverageEntry_returns entry pageUrl) as (e & He).
    exists (e :: classified). cbn [mapCompletion]. rewrite He, IH.
    split; [done | by constructor].
Qed.

End CoverageFacts.

(** ** Sorting by unused bytes *)

Lemma insertByUnused_Permutation (x : CoverageReportEntry) (l : list CoverageReportEntry) :
  insertByUnused x l ≡ₚ x :: l.
Proof.
  induction l as [|y l IH]; simpl; [done |].
  destruct (_ <=? _)%Z; [done |]. rewrite IH. apply Permutation_swap.
Qed.

Lemma sortByUnused_Permutation (l : list CoverageReportEntry) : sortByUnused l ≡ₚ l.
Proof.
  induction l as [|x l IH]; simpl; [done |].
  by rewrite insertByUnused_Permutation, IH.
Qed.

Lemma insertByUnused_sorted (x : CoverageReportEntry) (l : list CoverageReportEntry) :
  StronglySorted (λ a b, (unusedBytes b ≤ unusedBytes a)%Z) l →
  StronglySorted (λ a b, (unusedBytes b ≤ unusedBytes a)%Z) (insertByUnused x l).
Proof.
  induction 1 as [|y l Hl IH Hy]; simpl.
  - repeat constructor.
  - destruct (unusedBytes y <=? unusedBytes x)%Z eqn:Hxy.
    + apply Z.leb_le in Hxy. constructor; [by constructor |].
      constructor; [done |].
      eapply Forall_impl; [exact Hy |]. intros z Hz. simpl in *. lia.
    + apply Z.leb_gt in Hxy. constructor; [done |].
      rewrite insertByUnused_Permutation. constructor; [lia | done].
Qed.

Lemma insertByUnused_stable (k : Z) (x : CoverageReportEntry) (l : list CoverageReportEntry) :
  List.filter (hasUnused k) (insertByUnused x l) = List.filter (hasUnused k) (x :: l).
Proof.
  induction l as [|y l IH]; [done |].
  cbn [insertByUnused]. destruct (unusedBytes y <=? unusedBytes x)%Z eqn:Hxy; [done |].
  apply Z.leb_gt in Hxy. cbn [List.filter] in *. rewrite IH. unfold hasUnused.
  destruct (unusedBytes x =? k)%Z eqn:Hx; [| done].
  destruct (unusedBytes y =? k)%Z eqn:Hy; [| done].
  apply Z.eqb_eq in Hx, Hy. lia.
Qed.

(** X9: the sort of coverage_stop puts the entries in descending order of
    unused bytes, loses and adds none, and is stable: entries with equal
    unused bytes keep the order in which the provider gave them. *)
Theorem sortByUnused_sorted (l : list CoverageReportEntry) :
  StronglySorted (λ a b, (unusedBytes b ≤ unusedBytes a)%Z) (sortByUnused l)
  ∧ sortByUnused l ≡ₚ l
  ∧ ∀ k, List.filter (hasUnused k) (sortByUnused l) = List.filter (hasUnused k) l.
Proof.
  split; [| split; [apply sortByUnused_Permutation |]].
  - induction l as [|x l IH]; simpl; [constructor |].
    by apply insertByUnused_sorted.
  - intros k. induction l as [|x l IH]; [done |].
    cbn [sortByUnused foldr]. rewrite insertByUnused_stable.
    cbn [List.filter]. fold (sortByUnused l). by rewrite IH.
Qed.

(** ** The summary *)

Lemma sumOver_foldr (f : CoverageReportEntry → Z) (l : list CoverageReportEntry) :
  sumOver f l = foldr (λ e acc, (f e + acc)%Z) 0%Z l.
Proof.
  unfold sumOver.
  assert (G : ∀ acc, fold_left (λ sum e, (sum + f e)%Z) l acc
                     = (acc + foldr (λ e a, (f e + a)%Z) 0%Z l)%Z).
  { induction l as [|e l IH]; intros acc; simpl; [lia |]. rewrite IH. lia. }
  rewrite G. lia.
Qed.

Lemma sumOver_Permutation (f : CoverageReportEntry → Z) (l l' : list CoverageReportEntry) :
  l ≡ₚ l' → sumOver f l = sumOver f l'.
Proof.
  rewrite !sumOver_foldr.
  induction 1 as [|x l l' _ IH|x y l|l l' l'' _ IH1 _ IH2]; simpl; lia.
Qed.

Lemma sumOver_app (f : CoverageReportEntry → Z) (l l' : list CoverageReportEntry) :
  sumOver f (l ++ l') = (sumOver f l + sumOver f l')%Z.
Proof.
  rewrite !sumOver_foldr. induction l as [|e l IH]; simpl; lia.
Qed.

Lemma sumOver_accounting (l : list CoverageReportEntry) :
  Forall (λ e, usedBytes e + unusedBytes e = totalBytes e)%Z l →
  (sumOver usedBytes l + sumOver unusedBytes l = sumOver totalBytes l)%Z.
Proof.
  rewrite !sumOver_foldr. induction 1 as [|e l He _ IH]; simpl; lia.
Qed.

(** X10: the summary of a report counts all entries of both kinds and
    totals their bytes, whatever the page that is shown: the totals are
    the sums over the classified entries as given (the sort does not
    change them) and do not depend on pageSize and pageIdx; when every
    entry has usedBytes + unusedBytes = totalBytes, so has the summary. *)
Theorem buildReport_summary (js css : list CoverageReportEntry)
    (pagination : PaginationOptions) :
  totalResources (summary (buildReport js css pagination))
  = (length js + length css)%nat
  ∧ sum_totalBytes (summary (buildReport js css pagination))
    = (sumOver totalBytes js + sumOver totalBytes css)%Z
  ∧ sum_usedBytes (summary (buildReport js css pagination))
    = (sumOver usedBytes js + sumOver usedBytes css)%Z
  ∧ sum_unusedBytes (summary (buildReport js css pagination))
    = (sumOver unusedBytes js + sumOver unusedBytes css)%Z
  ∧ (∀ pagination', summary (buildReport js css pagination')
                    = summary (buildReport js css pagination))
  ∧ (Forall (λ e, usedBytes e + unusedBytes e = totalBytes e)%Z (js ++ css) →
     (sum_usedBytes (summary (buildReport js css pagination))
      + sum_unusedBytes (summary (buildReport js css pagination))
      = sum_totalBytes (summary (buildReport js css pagination)))%Z).
Proof.
  unfold buildReport. cbn [summary totalResources sum_totalBytes sum_usedBytes
                             sum_unusedBytes].
  assert (Hperm : sortByUnused js ++ sortByUnused css ≡ₚ js ++ css)
    by (by rewrite !sortByUnused_Permutation).
  rewrite !(sumOver_Permutation _ _ _ Hperm), !sumOver_app.
  split; [by rewrite length_app, !sortByUnused_Permutation |].
  split; [done |]. split; [done |]. split; [done |]. split; [done |].
  intros Hall. rewrite <- !sumOver_app. by apply sumOver_accounting.
Qed.

Lemma buildReport_summary_witness :
  let s := summary (buildReport [ wastedEntry 0; wastedEntry 1 ] [ wastedEntry 2 ]
                      (mkPaginationOptions 1 0)) in
  (sum_usedBytes s + sum_unusedBytes s = sum_totalBytes s)%Z.
Proof.
  apply (proj2 (proj2 (proj2 (proj2 (proj2
    (buildReport_summary [ wastedEntry 0; wastedEntry 1 ] [ wastedEntry 2 ]
       (mkPaginationOptions 1 0))))))).
  repeat constructor.
Defined.

(* ================================================================== *)
(** * Further facts: the handlers of coverage_start and coverage_stop *)
(* ================================================================== *)

Lemma startCoverage_try_run (page : Page) (includeJS includeCSS reset : bool) (w : World) :
  startCoverage_try page includeJS includeCSS reset w
  = match startOutcome page includeJS includeCSS reset with
    | Normal _ =>
        (mkWorld (context w) (responseLines w ++ [ startedLine includeJS includeCSS ])
           (providerCalls w ++ startCalls includeJS includeCSS reset),
         Normal tt)
    | Throw e =>
        (mkWorld (context w) (responseLines w)
           (providerCalls w ++ startCalls includeJS includeCSS reset),
         Throw e)
    end.
Proof.
  unfold startCoverage_try, startOutcome, startedPromises, startCalls, startedLine.
  destruct w as [ctx lines calls].
  destruct includeJS, includeCSS;
    unfold mbind, M_bind, callProvider, awaitAll, await, lift, mret, M_ret,
      appendResponseLine;
    cbn -[firstRejected];
    (destruct (firstRejected _) as [p|]; [destruct (outcome p) as [[]|?] |]);
    cbn; rewrite <- ?app_assoc, ?app_nil_r; reflexivity.
Qed.

Lemma firstRejected_spec (promises : list (Promise unit)) :
  match firstRejected promises with
  | Some p => rejectsFirst p promises
  | None => Forall (λ q, outcome q = Normal tt) promises
  end.
Proof.
  induction promises as [|p rest IH]; [by constructor |].
  cbn [firstRejected].
  destruct (outcome p) as [[]|e] eqn:Hp.
  - destruct (firstRejected rest) as [q|].
    + destruct IH as (Hin & Hq & Hmin). split; [by right |]. split; [done |].
      intros r e [-> | Hr]%elem_of_cons Hre; [congruence | by eapply Hmin].
    + by constructor.
  - destruct (firstRejected rest) as [q|].
    + destruct IH as (Hin & Hq & Hmin).
      destruct (Nat.leb_spec (settledAt p) (settledAt q)) as [Hle | Hlt].
      * split; [by left |]. split; [eauto |].
        intros r e' [-> | Hr]%elem_of_cons Hre; [done |].
        pose proof (Hmin r e' Hr Hre). lia.
      * split; [by right |]. split; [done |].
        intros r e' [-> | Hr]%elem_of_cons Hre; [lia | by eapply Hmin].
    + split; [by left |]. split; [eauto |].
      intros r e' [-> | Hr]%elem_of_cons Hre; [done |].
      rewrite Forall_forall in IH. rewrite (IH r Hr) in Hre. discriminate.
Qed.

Lemma startCoverage_idle_run (params : StartParams) (page : Page) (w : World) :
  let includeJS := default true (p_includeJS params) in
  let includeCSS := default true (p_includeCSS params) in
  let reset := default true (p_resetOnNavigation params) in
  let options := mkCoverageOptions includeJS includeCSS in
  let report := getLastCoverageReport (context w) in
  let calls := providerCalls w ++ startCalls includeJS includeCSS reset in
  isRunningCoverage (context w) = false →
  startCoverage params page w
  = if negb includeJS && negb includeCSS then
      appendResponseLine "Error: at least one of includeJS or includeCSS must be true." w
    else
      match startOutcome page includeJS includeCSS reset with
      | Normal _ =>
          (mkWorld (mkContext true options report)
             (responseLines w ++ [ startedLine includeJS includeCSS ]) calls,
           Normal tt)
      | Throw e =>
          (mkWorld (mkContext false options report)
             (responseLines w ++ [ "Error starting coverage tracking: " +:+ e ]) calls,
           Normal tt)
      end.
Proof.
  intros includeJS includeCSS reset options report calls Hidle.
  unfold startCoverage, readContext, mbind, M_bind. cbv beta iota. rewrite Hidle.
  fold includeJS includeCSS reset. cbv zeta.
  destruct (negb includeJS && negb includeCSS); [reflexivity |].
  unfold setIsRunningCoverage, setCoverageOptions, tryCatch, appendResponseLine.
  cbv beta iota. rewrite startCoverage_try_run.
  destruct (startOutcome page includeJS includeCSS reset) as [[]|e]; reflexivity.
Qed.

(** X11: coverage_start in an idle session. When neither kind is asked
    for, the call is rejected: the session and the provider are left
    alone. Otherwise the provider is called once for each kind asked for,
    JavaScript first, and the options are stored; when these calls
    succeed the running flag is set and the start is reported. No path
    touches the last coverage report. *)
Theorem startCoverage_idle (params : StartParams) (page : Page) (w : World) :
  let includeJS := default true (p_includeJS params) in
  let includeCSS := default true (p_includeCSS params) in
  let reset := default true (p_resetOnNavigation params) in
  let w' := (startCoverage params page w).1 in
  isRunningCoverage (context w) = false →
  (includeJS = false → includeCSS = false →
   context w' = context w ∧ providerCalls w' = providerCalls w
   ∧ responseLines w'
     = responseLines w
       ++ [ "Error: at least one of includeJS or includeCSS must be true." ])
  ∧ (includeJS || includeCSS = true →
     providerCalls w' = providerCalls w ++ startCalls includeJS includeCSS reset
     ∧ getCoverageOptions (context w') = mkCoverageOptions includeJS includeCSS
     ∧ getLastCoverageReport (context w') = getLastCoverageReport (context w)
     ∧ (startOutcome page includeJS includeCSS reset = Normal tt →
        isRunningCoverage (context w') = true
        ∧ responseLines w' = responseLines w ++ [ startedLine includeJS includeCSS ])).
Proof.
  intros includeJS includeCSS reset w' Hidle. subst w'.
  rewrite startCoverage_idle_run by done. fold includeJS includeCSS reset.
  split.
  - intros HJ HC. rewrite HJ, HC. done.
  - intros Hkind.
    assert (Hnot : negb includeJS && negb includeCSS = false)
      by (destruct includeJS, includeCSS; done).
    rewrite Hnot.
    destruct (startOutcome page includeJS includeCSS reset) as [[]|e]; done.
Qed.

Lemma startCoverage_idle_witness :
  let w' := (startCoverage defaultStart samplePage idleWorld).1 in
  providerCalls w' = [ StartJSCoverage true; StartCSSCoverage true ]
  ∧ isRunningCoverage (context w') = true.
Proof.
  destruct (proj2 (startCoverage_idle defaultStart samplePage idleWorld eq_refl) eq_refl)
    as (Hcalls & _ & _ & Hok).
  split; [exact Hcalls |]. exact (proj1 (Hok eq_refl)).
Defined.

(** X12: coverage_start when the provider fails. In an idle session, when
    the wait for the start calls ends with an error text, the handler
    still returns normally: the running flag is clear again, the response
    gets the line "Error starting coverage tracking: ..." with that text,
    both kinds asked for have been started at the provider all the same,
    and the options of the failed start stay stored. The text is the
    reason of a start call that rejected and before which no other start
    call rejected: the first rejection in time, not in the order of the
    calls. *)
Theorem startCoverage_provider_fails (params : StartParams) (page : Page) (w : World)
    (errorText : string) :
  let includeJS := default true (p_includeJS params) in
  let includeCSS := default true (p_includeCSS params) in
  let reset := default true (p_resetOnNavigation params) in
  let w' := (startCoverage params page w).1 in
  isRunningCoverage (context w) = false →
  startOutcome page includeJS includeCSS reset = Throw errorText →
  (startCoverage params page w).2 = Normal tt
  ∧ isRunningCoverage (context w') = false
  ∧ getCoverageOptions (context w') = mkCoverageOptions includeJS includeCSS
  ∧ providerCalls w' = providerCalls w ++ startCalls includeJS includeCSS reset
  ∧ responseLines w'
    = responseLines w ++ [ "Error starting coverage tracking: " +:+ errorText ]
  ∧ ∃ p, rejectsFirst p (startedPromises page includeJS includeCSS reset)
         ∧ outcome p = Throw errorText.
Proof.
  intros includeJS includeCSS reset w' Hidle Hfail. subst w'.
  assert (Hnot : negb includeJS && negb includeCSS = false).
  { destruct includeJS, includeCSS; done. }
  rewrite startCoverage_idle_run by done. fold includeJS includeCSS reset.
  rewrite Hnot, Hfail. repeat (split; [done |]).
  unfold startOutcome in Hfail.
  pose proof (firstRejected_spec (startedPromises page includeJS includeCSS reset)) as Hp.
  destruct (firstRejected _) as [p|]; [eauto | discriminate].
Qed.

Lemma startCoverage_provider_fails_witness :
  let page := mkPage "https://example.com/"
                (λ _, mkPromise 2 (Throw "JavaScript coverage failed"))
                (λ _, mkPromise 1 (Throw "CSS coverage failed")) (Normal []) (Normal []) in
  let w' := (startCoverage defaultStart page idleWorld).1 in
  isRunningCoverage (context w') = false
  ∧ providerCalls w' = [ StartJSCoverage true; StartCSSCoverage true ]
  ∧ responseLines w' = [ "Error starting coverage tracking: CSS coverage failed" ].
Proof.
  destruct (startCoverage_provider_fails defaultStart
              (mkPage "https://example.com/"
                 (λ _, mkPromise 2 (Throw "JavaScript coverage failed"))
                 (λ _, mkPromise 1 (Throw "CSS coverage failed")) (Normal []) (Normal []))
              idleWorld "CSS coverage failed" eq_refl eq_refl)
    as (_ & Hflag & _ & Hcalls & Hlines & _).
  split; [exact Hflag |]. split; [exact Hcalls | exact Hlines].
Defined.

Section StopFacts.
Context `{Host}.

Lemma collect_run (enabled : bool) (call : ProviderCall)
    (outcome : completion (list CoverageEntry)) (pageUrl : string) (w : World) :
  collect enabled call outcome pageUrl w
  = (mkWorld (context w) (responseLines w)
       (providerCalls w ++ (if enabled then [ call ] else [])),
     entries ← collected enabled outcome;
     mapCompletion (λ entry, calculateCoverageEntry entry pageUrl) entries).
Proof.
  unfold collect, collected. destruct w as [ctx lines calls].
  destruct enabled; simpl; [| by rewrite app_nil_r].
  unfold mbind, M_bind, completion_bind, callProvider, await, lift. simpl.
  by destruct outcome.
Qed.

Lemma completion_bind_Normal {A B} (a : A) (f : A → completion B) :
  Normal a ≫= f = f a.
Proof. reflexivity. Qed.

(** The [try] block of coverage_stop, case by case. *)
Lemma stopCoverage_try_run (page : Page) (pagination : PaginationOptions) (w : World) :
  let options := getCoverageOptions (context w) in
  let jsCalls := if includeJS options then [ StopJSCoverage ] else [] in
  let cssCalls := if includeCSS options then [ StopCSSCoverage ] else [] in
  match collected (includeJS options) (stopJSCoverage page) with
  | Throw e =>
      stopCoverage_try page pagination w
      = (mkWorld (context w) (responseLines w) (providerCalls w ++ jsCalls), Throw e)
  | Normal jsEntries =>
      match collected (includeCSS options) (stopCSSCoverage page) with
      | Throw e =>
          stopCoverage_try page pagination w
          = (mkWorld (context w) (responseLines w)
               (providerCalls w ++ jsCalls ++ cssCalls), Throw e)
      | Normal cssEntries =>
          ∃ js css,
            Forall2 (λ entry e, calculateCoverageEntry entry (page_url page) = Normal e)
              jsEntries js
            ∧ Forall2 (λ entry e, calculateCoverageEntry entry (page_url page) = Normal e)
                cssEntries css
            ∧ stopCoverage_try page pagination w
              = (mkWorld (context w)
                   (responseLines w
                    ++ [ "Coverage tracking has been stopped."; "";
                         formatCoverageReport (buildReport js css pagination) ])
                   (providerCalls w ++ jsCalls ++ cssCalls),
                 Normal tt)
      end
  end.
Proof.
  intros options jsCalls cssCalls.
  unfold stopCoverage_try, readContext, mbind, M_bind. cbv beta iota. fold options.
  rewrite collect_run. fold jsCalls.
  destruct (collected (includeJS options) (stopJSCoverage page)) as [jsEntries|e];
    [| reflexivity].
  destruct (mapCompletion_classified (page_url page) jsEntries) as (js & Hjs & Hfjs).
  rewrite completion_bind_Normal, Hjs.
  rewrite collect_run. cbn [context responseLines providerCalls]. fold cssCalls.
  rewrite <- app_assoc.
  destruct (collected (includeCSS options) (stopCSSCoverage page)) as [cssEntries|e];
    [| reflexivity].
  destruct (mapCompletion_classified (page_url page) cssEntries) as (css & Hcss & Hfcss).
  rewrite completion_bind_Normal, Hcss.
  exists js, css. split; [done |]. split; [done |].
  unfold appendResponseLine. cbn. by rewrite <- !app_assoc.
Qed.

(** X13: coverage_stop in a running session calls the provider only for
    the kinds that were started, JavaScript first; when stopping
    JavaScript rejects, CSS coverage is not stopped at all. Classifying
    the entries never throws: the report computation fails exactly when
    one of these calls rejects, and then with the error text of that
    call. *)
Theorem stopCoverage_provider_calls (params : StopParams) (page : Page) (w : World) :
  let options := getCoverageOptions (context w) in
  let js := collected (includeJS options) (stopJSCoverage page) in
  let css := collected (includeCSS options) (stopCSSCoverage page) in
  let w' := (stopCoverage params page w).1 in
  isRunningCoverage (context w) = true →
  providerCalls w'
  = providerCalls w
    ++ (if includeJS options then [ StopJSCoverage ] else [])
    ++ match js with
       | Throw _ => []
       | Normal _ => if includeCSS options then [ StopCSSCoverage ] else []
       end
  ∧ ∀ errorText,
      (stopCoverage_try page (paginationOf params) w).2 = Throw errorText
      ↔ js = Throw errorText ∨ ((∃ entries, js = Normal entries) ∧ css = Throw errorText).
Proof.
  intros options js css w' Hrun. subst w'.
  rewrite stopCoverage_running by done.
  unfold stopCoverageAndAppendOutput, tryCatchFinally, tryCatch.
  pose proof (stopCoverage_try_run page (paginationOf params) w) as Htry.
  cbv zeta in Htry. fold options in Htry. fold js css in Htry.
  destruct js as [jsEntries|e].
  - destruct css as [cssEntries|e].
    + destruct Htry as (cjs & ccss & _ & _ & ->). cbn.
      split; [done |]. intros errorText. split; [done |].
      intros [? | [_ ?]]; done.
    + rewrite Htry. cbn. split; [done |]. intros errorText. split.
      * intros [= ->]. right. eauto.
      * intros [? | [_ ?]]; by simplify_eq.
  - rewrite Htry. cbn. rewrite app_nil_r. split; [done |]. intros errorText. split.
    + intros [= ->]. by left.
    + intros [? | [[? ?] _]]; by simplify_eq.
Qed.

(** X14: a coverage_stop whose provider calls succeed reports all that
    the provider handed back. The response gets three lines: the notice
    that tracking has stopped, an empty line and the rendering of the
    report built from the classified entries of both kinds, one entry for
    each record of the provider; the running flag is cleared. *)
Theorem stopCoverage_reports (params : StopParams) (page : Page) (w : World)
    (jsEntries cssEntries : list CoverageEntry) :
  let options := getCoverageOptions (context w) in
  let w' := (stopCoverage params page w).1 in
  isRunningCoverage (context w) = true →
  collected (includeJS options) (stopJSCoverage page) = Normal jsEntries →
  collected (includeCSS options) (stopCSSCoverage page) = Normal cssEntries →
  ∃ js css,
    Forall2 (λ entry e, calculateCoverageEntry entry (page_url page) = Normal e)
      jsEntries js
    ∧ Forall2 (λ entry e, calculateCoverageEntry entry (page_url page) = Normal e)
        cssEntries css
    ∧ responseLines w'
      = responseLines w
        ++ [ "Coverage tracking has been stopped."; "";
             formatCoverageReport (buildReport js css (paginationOf params)) ]
    ∧ isRunningCoverage (context w') = false.
Proof.
  intros options w' Hrun Hjs Hcss. subst w'.
  rewrite stopCoverage_running by done.
  unfold stopCoverageAndAppendOutput, tryCatchFinally, tryCatch.
  pose proof (stopCoverage_try_run page (paginationOf params) w) as Htry.
  cbv zeta in Htry. fold options in Htry. rewrite Hjs, Hcss in Htry.
  destruct Htry as (js & css & Hfjs & Hfcss & ->). cbn.
  exists js, css. done.
Qed.

End StopFacts.

Lemma stopCoverage_provider_calls_witness :
  providerCalls (@stopCoverage sampleHost defaultStop brokenPage
                   (mkWorld (mkContext true (mkCoverageOptions true true) None) [] [])).1
  = [ StopJSCoverage ].
Proof.
  exact (proj1 (@stopCoverage_provider_calls sampleHost defaultStop brokenPage
                  (mkWorld (mkContext true (mkCoverageOptions true true) None) [] [])
                  eq_refl)).
Defined.

Lemma stopCoverage_reports_witness :
  ∃ js css,
    Forall2 (λ entry e, @calculateCoverageEntry sampleHost entry "https://example.com/"
                        = Normal e) [ sampleEntry ] js
    ∧ Forall2 (λ entry e, @calculateCoverageEntry sampleHost entry "https://example.com/"
                          = Normal e) [] css
    ∧ responseLines (@stopCoverage sampleHost defaultStop samplePage runningWorld).1
      = [ "Coverage tracking has been stopped."; "";
          @formatCoverageReport sampleHost (@buildReport js css (paginationOf defaultStop)) ]
    ∧ isRunningCoverage
        (context (@stopCoverage sampleHost defaultStop samplePage runningWorld).1) = false.
Proof.
  exact (@stopCoverage_reports sampleHost defaultStop samplePage runningWorld
           [ sampleEntry ] [] eq_refl eq_refl eq_refl).
Defined.

(* ================================================================== *)
(** * Further facts: the candidates of suggest_code_splits *)
(* ================================================================== *)



Lemma insertCandidate_Permutation (x : CodeSplitSuggestion) (l : list CodeSplitSuggestion) :
  insertCandidate x l ≡ₚ x :: l.
Proof.
  induction l as [|y l IH]; simpl; [done |].
  destruct (candidateLe x y); [done |]. rewrite IH. apply Permutation_swap.
Qed.



Lemma candidateLe_true (a b : CodeSplitSuggestion) :
  candidateLe a b = true ↔ candidateBefore a b.
Proof.
  unfold candidateLe, candidateBefore.
  destruct (priorityOrder (priority a) - priorityOrder (priority b) =? 0)%Z eqn:E; simpl.
  - apply Z.eqb_eq in E. rewrite Z.leb_le. split; [intros; right | intros [?|[? ?]]]; lia.
  - apply Z.eqb_neq in E. rewrite Z.leb_le. split; [intros; left | intros [?|[? ?]]]; lia.
Qed.

Lemma candidateLe_false (a b : CodeSplitSuggestion) :
  candidateLe a b = false → candidateBefore b a.
Proof.
  intros Hf. destruct (candidateLe b a) eqn:E; [by apply candidateLe_true |].
  exfalso. unfold candidateLe in *.
  destruct (priorityOrder (priority a) - priorityOrder (priority b) =? 0)%Z eqn:E1;
    destruct (priorityOrder (priority b) - priorityOrder (priority a) =? 0)%Z eqn:E2;
    simpl in *;
    rewrite ?Z.eqb_eq, ?Z.eqb_neq in *; rewrite ?Z.leb_gt in *; lia.
Qed.

Lemma candidateBefore_trans (a b c : CodeSplitSuggestion) :
  candidateBefore a b → candidateBefore b c → candidateBefore a c.
Proof. unfold candidateBefore. intros [?|[? ?]] [?|[? ?]]; [left | left | left | right]; lia. Qed.

Lemma insertCandidate_sorted (x : CodeSplitSuggestion) (l : list CodeSplitSuggestion) :
  StronglySorted candidateBefore l → StronglySorted candidateBefore (insertCandidate x l).
Proof.
  induction 1 as [|y l Hl IH Hy]; simpl.
  - repeat constructor.
  - destruct (candidateLe x y) eqn:Hxy.
    + apply candidateLe_true in Hxy. constructor; [by constructor |].
      constructor; [done |].
      eapply Forall_impl; [exact Hy |]. intros z Hz. by eapply candidateBefore_trans.
    + apply candidateLe_false in Hxy. constructor; [done |].
      rewrite insertCandidate_Permutation. by constructor.
Qed.

(** X16: the candidates come sorted by priority, critical first, then
    high, medium and low; among candidates of one priority those with
    more unused bytes come first. This holds between every candidate and
    every later one. *)
Theorem candidatesOf_sorted (jsCoverage : list CoverageReportEntry)
    (minBundleSizeKB minUnusedPercent : Q) :
  StronglySorted candidateBefore
    (candidatesOf jsCoverage minBundleSizeKB minUnusedPercent).
Proof.
  unfold candidatesOf.
  induction (fold_left _ jsCoverage ([], [])).1 as [|x l IH]; simpl; [constructor |].
  by apply insertCandidate_sorted.
Qed.

(** ** The map of heavy dependencies *)






(* ================================================================== *)
(** * Further facts: the heuristics *)
(* ================================================================== *)

Lemma determinePriority_rungs (unusedBytes : Z) (unusedPercent : Q) :
  determinePriority unusedBytes unusedPercent
  = if rung (100 * 1024) 50 unusedBytes unusedPercent then critical
    else if rung (50 * 1024) 30 unusedBytes unusedPercent then high
    else if rung (20 * 1024) 20 unusedBytes unusedPercent then medium
    else low.
Proof. reflexivity. Qed.

Lemma rung_monotone (bytes bytes' : Z) (percent percent' : Q) (b b' : Z) (p p' : Q) :
  (bytes' ≤ bytes)%Z → (percent' <= percent)%Q → (b ≤ b')%Z → (p <= p')%Q →
  rung bytes percent b p = true → rung bytes' percent' b' p' = true.
Proof.
  unfold rung. intros Hbytes Hpercent Hb Hp. rewrite !orb_true_iff, !Z.ltb_lt, !Qltb_lt.
  intros [? | ?]; [left; lia | right; lra].
Qed.

(** X18: [determinePriority] is monotone: a bundle with at least as many
    unused bytes and at least as high an unused share as another one never
    gets a less urgent priority. *)
Theorem determinePriority_monotone (b b' : Z) (p p' : Q) :
  (b ≤ b')%Z → (p <= p')%Q →
  (priorityOrder (determinePriority b' p') ≤ priorityOrder (determinePriority b p))%Z.
Proof.
  intros Hb Hp. rewrite !determinePriority_rungs.
  pose proof (rung_monotone (100 * 1024) (100 * 1024) 50 50 b b' p p') as H1.
  pose proof (rung_monotone (50 * 1024) (50 * 1024) 30 30 b b' p p') as H2.
  pose proof (rung_monotone (20 * 1024) (20 * 1024) 20 20 b b' p p') as H3.
  pose proof (rung_monotone (100 * 1024) (50 * 1024) 50 30 b b' p p') as H12.
  pose proof (rung_monotone (50 * 1024) (20 * 1024) 30 20 b b' p p') as H23.
  destruct (rung (100 * 1024) 50 b p) eqn:E1.
  { rewrite H1; [simpl; lia | lia | lra | done | done | done]. }
  destruct (rung (100 * 1024) 50 b' p');
    [repeat destruct (rung _ _ b p); simpl; lia |].
  destruct (rung (50 * 1024) 30 b p) eqn:E2.
  { rewrite H2; [simpl; lia | lia | lra | done | done | done]. }
  destruct (rung (50 * 1024) 30 b' p');
    [repeat destruct (rung _ _ b p); simpl; lia |].
  destruct (rung (20 * 1024) 20 b p) eqn:E3.
  { rewrite H3; [simpl; lia | lia | lra | done | done | done]. }
  destruct (rung (20 * 1024) 20 b' p'); simpl; lia.
Qed.

Lemma determinePriority_monotone_witness :
  (priorityOrder (determinePriority (60 * 1024) 45) ≤ priorityOrder (determinePriority (30 * 1024) 10))%Z.
Proof.
  apply (determinePriority_monotone (30 * 1024) (60 * 1024) 10 45); [lia | lra].
Defined.

(** ** Heavy dependencies *)

Lemma find_first {A} (p : A → bool) (l : list A) (x : A) :
  find p l = Some x →
  p x = true ∧ ∃ earlier later, l = earlier ++ x :: later
                               ∧ Forall (λ y, p y = false) earlier.
Proof.
  induction l as [|y l IH]; cbn [find]; [done |].
  destruct (p y) eqn:Hy.
  - intros [= ->]. split; [done |]. by exists [], l.
  - intros Hf. destruct (IH Hf) as (Hx & earlier & later & -> & Hall).
    split; [done |]. exists (y :: earlier), later. split; [done | by constructor].
Qed.

Lemma includes_refl (s : string) : includes s s = true.
Proof. apply includes_spec. exists "", "". by rewrite append_nil_l, append_nil_r. Qed.

Lemma depPatterns_name (dep pattern : string) :
  pattern ∈ depPatterns dep → includes dep pattern = true.
Proof.
  unfold depPatterns. rewrite !elem_of_cons, elem_of_nil.
  intros [-> | [-> | [-> | [-> | [-> | []]]]]].
  - apply includes_app_r, includes_app_l, includes_refl.
  - apply includes_app_r, includes_app_l, includes_refl.
  - apply includes_app_l, includes_refl.
  - apply includes_app_l, includes_refl.
  - apply includes_app_l, includes_refl.
Qed.

Lemma depMatches_name (lowerUrl dep : string) :
  depMatches lowerUrl dep = true → includes dep lowerUrl = true.
Proof.
  unfold depMatches, some. rewrite existsb_exists.
  intros (pattern & Hin%list_elem_of_In & Hinc).
  eapply includes_trans; [by apply depPatterns_name | done].
Qed.

Lemma dependencyNames_alternatives (dep : string) :
  dep ∈ dependencyNames → ∃ alt alts, alternativesOf dep = Some (alt :: alts).
Proof.
  assert (forallb (λ dep, match alternativesOf dep with
                          | Some (_ :: _) => true
                          | _ => false
                          end) dependencyNames = true) as Hall by (vm_compute; reflexivity).
  rewrite forallb_forall in Hall. intros Hin%list_elem_of_In.
  specialize (Hall dep Hin). destruct (alternativesOf dep) as [[|alt alts]|]; [done | | done].
  eauto.
Qed.

(** X19: when [detectHeavyDependency] names a dependency, the name is a
    key of the alternatives table with at least one alternative, the name
    occurs in the lower-cased URL, and no name declared before it in the
    table matches the URL: the first match in table order wins. When it
    returns nothing, no name of the table matches. *)
Theorem detectHeavyDependency_sound (u : string) :
  match detectHeavyDependency u with
  | Some dep =>
      (∃ alt alts, alternativesOf dep = Some (alt :: alts))
      ∧ occursIn dep (toLowerCase u)
      ∧ depMatches (toLowerCase u) dep = true
      ∧ ∃ earlier later,
          dependencyNames = earlier ++ dep :: later
          ∧ Forall (λ name, depMatches (toLowerCase u) name = false) earlier
  | None => Forall (λ name, depMatches (toLowerCase u) name = false) dependencyNames
  end.
Proof.
  rewrite detectHeavyDependency_unfold.
  destruct (find _ dependencyNames) as [dep|] eqn:Hfind.
  - destruct (find_first _ _ _ Hfind) as (Hdep & earlier & later & Hnames & Hall).
    split; [| split; [| split]].
    + apply dependencyNames_alternatives. rewrite Hnames. set_solver.
    + by apply includes_spec, depMatches_name.
    + done.
    + by exists earlier, later.
  - apply Forall_forall. intros name Hin%list_elem_of_In.
    by apply (find_none _ _ Hfind).
Qed.

Lemma lower_ascii_idemp (c : ascii) : lower_ascii (lower_ascii c) = lower_ascii c.
Proof. destruct c as [[] [] [] [] [] [] [] []]; reflexivity. Qed.

Lemma toLowerCase_idemp (s : string) : toLowerCase (toLowerCase s) = toLowerCase s.
Proof.
  induction s as [|c s IH]; [done |].
  cbn [toLowerCase]. by rewrite lower_ascii_idemp, IH.
Qed.

(** X20: heavy-dependency detection does not depend on the case of the
    ASCII letters of the URL: the lower-cased URL resolves to the same
    dependency as the URL itself, whatever the URL is. *)
Theorem detectHeavyDependency_case_insensitive (u : string) :
  detectHeavyDependency (toLowerCase u) = detectHeavyDependency u.
Proof. unfold detectHeavyDependency. by rewrite toLowerCase_idemp. Qed.

(* ================================================================== *)
(** * Further facts: the third-party classifier on same-origin URLs *)
(* ================================================================== *)

Section SameOrigin.
Context `{Host}.

(** X21: for a URL that is no data: or blob: URL and has the origin of
    the page, [isThirdParty] answers [true] exactly when one of the
    sixteen patterns occurs in the lower-cased path. Only the path of the
    URL is looked at, so two such URLs with the same path are classified
    alike. *)
Theorem isThirdParty_same_origin (u pageUrl : string) (urlObj pageUrlObj : URL) :
  startsWith "data:" u = false → startsWith "blob:" u = false →
  parseURL u = Some urlObj → parseURL pageUrl = Some pageUrlObj →
  origin urlObj = origin pageUrlObj →
  ∃ b, isThirdParty u pageUrl = Normal b
       ∧ (b = true ↔ ∃ pattern, pattern ∈ thirdPartyPatterns
                                 ∧ occursIn pattern (toLowerCase (pathname urlObj))).
Proof.
  intros Hd Hb Hu Hp Ho.
  exists (some (λ pattern, includes pattern (toLowerCase (pathname urlObj)))
            thirdPartyPatterns).
  split.
  - unfold isThirdParty, isThirdParty_try, try_catch, newURL.
    rewrite Hd, Hb, Hu, Hp. cbn -[some thirdPartyPatterns toLowerCase].
    apply String.eqb_eq in Ho. by rewrite Ho.
  - unfold some. rewrite existsb_exists. split.
    + intros (pattern & Hin & Hinc). exists pattern.
      split; [by apply list_elem_of_In | by apply includes_spec].
    + intros (pattern & Hin & Hinc). exists pattern.
      split; [by apply list_elem_of_In | by apply includes_spec].
Qed.

End SameOrigin.

Lemma isThirdParty_same_origin_witness :
  ∃ b, @isThirdParty sampleHost "https://example.com/Node_Modules/react.js"
         "https://example.com/" = Normal b
       ∧ (b = true ↔ ∃ pattern, pattern ∈ thirdPartyPatterns
                                 ∧ occursIn pattern (toLowerCase "/Node_Modules/react.js")).
Proof.
  apply (@isThirdParty_same_origin sampleHost "https://example.com/Node_Modules/react.js"
           "https://example.com/" (mkURL "https://example.com" "/Node_Modules/react.js")
           (mkURL "https://example.com" "/")); reflexivity.
Defined.

(* ================================================================== *)
(** * Further facts: the size of a request *)
(* ================================================================== *)

Lemma readDigits_uint (d : Decimal.uint) (acc : Z) :
  (0 ≤ acc)%Z →
  readDigits (NilEmpty.string_of_uint d) (Some acc)
  = Some (Z.of_nat (Nat.of_uint_acc d (Z.to_nat acc))).
Proof.
  revert acc. induction d as [|d IH|d IH|d IH|d IH|d IH|d IH|d IH|d IH|d IH|d IH];
    intros acc Hacc;
    [cbn [NilEmpty.string_of_uint readDigits Nat.of_uint_acc]; f_equal; lia | ..];
    cbn [NilEmpty.string_of_uint readDigits Nat.of_uint_acc];
    (change (digitValue _) with (Some 0%Z) ||
     change (digitValue _) with (Some 1%Z) ||
     change (digitValue _) with (Some 2%Z) ||
     change (digitValue _) with (Some 3%Z) ||
     change (digitValue _) with (Some 4%Z) ||
     change (digitValue _) with (Some 5%Z) ||
     change (digitValue _) with (Some 6%Z) ||
     change (digitValue _) with (Some 7%Z) ||
     change (digitValue _) with (Some 8%Z) ||
     change (digitValue _) with (Some 9%Z));
    cbn [default from_option id]; rewrite IH by lia; rewrite Nat.tail_mul_spec;
    do 3 f_equal; lia.
Qed.

Lemma parseInt10_uint (d : Decimal.uint) :
  parseInt10 (NilZero.string_of_uint d) = numberOfZ (Z.of_nat (Nat.of_uint d))
  ∧ NilZero.string_of_uint d ≠ "".
Proof.
  split; [| by destruct d].
  destruct d; [reflexivity | ..];
    unfold parseInt10, Nat.of_uint;
    cbn [NilZero.string_of_uint NilEmpty.string_of_uint skipWhiteSpace];
    (change (isWhiteSpace _) with false); cbv iota; cbn [readDigits Nat.of_uint_acc];
    (change (digitValue _) with (Some 0%Z) ||
     change (digitValue _) with (Some 1%Z) ||
     change (digitValue _) with (Some 2%Z) ||
     change (digitValue _) with (Some 3%Z) ||
     change (digitValue _) with (Some 4%Z) ||
     change (digitValue _) with (Some 5%Z) ||
     change (digitValue _) with (Some 6%Z) ||
     change (digitValue _) with (Some 7%Z) ||
     change (digitValue _) with (Some 8%Z) ||
     change (digitValue _) with (Some 9%Z));
    cbn [default from_option id]; rewrite readDigits_uint by lia;
    rewrite ?Nat.tail_mul_spec; do 3 f_equal; lia.
Qed.

Lemma parseInt10_show_nat (n : nat) :
  parseInt10 (show_nat n) = numberOfZ (Z.of_nat n) ∧ show_nat n ≠ "".
Proof.
  unfold show_nat. destruct (parseInt10_uint (Nat.to_uint n)) as [Hp Hne].
  split; [| done]. by rewrite Hp, DecimalNat.Unsigned.of_to.
Qed.

(** X22: a request with a response and timing data whose content-length
    header is the decimal form of a natural number n gets as its size
    the Number for n, that is n rounded to binary64: [parseInt] reads
    back what the decimal rendering wrote, 0 included. *)
Theorem getRequestTiming_content_length (request : HTTPRequest) (resp : HTTPResponse)
    (tm : ResourceTiming) (n : nat) :
  response request = Some resp → timing resp = Some tm →
  headers resp !! "content-length" = Some (show_nat n) →
  rt_sizeBytes <$> getRequestTiming request = Some (numberOfZ (Z.of_nat n)).
Proof.
  intros Hresp Htm Hlen. unfold getRequestTiming. rewrite Hresp, Htm, Hlen.
  destruct (parseInt10_show_nat n) as [Hp Hne].
  apply String.eqb_neq in Hne. by rewrite Hne, Hp.
Qed.

Lemma getRequestTiming_content_length_witness :
  rt_sizeBytes <$> getRequestTiming
    (mkHTTPRequest "https://example.com/a.js" "script"
       (Some (mkHTTPResponse (Some (mkResourceTiming 2 100))
                {[ "content-length" := show_nat 512 ]})))
  = Some 512%float.
Proof.
  apply (getRequestTiming_content_length _
           (mkHTTPResponse (Some (mkResourceTiming 2 100))
              {[ "content-length" := show_nat 512 ]})
           (mkResourceTiming 2 100) 512); reflexivity.
Defined.

(* ================================================================== *)
(** * Further facts: the handler of suggest_code_splits *)
(* ================================================================== *)

Section SplitHandlerFacts.
Context `{Host}.

(** X23: suggest_code_splits only reads the session: in every world and
    for all parameters it returns without throwing, leaves the session
    context as it is, calls the coverage provider not at all, and appends
    to the response either the seven lines that ask for a coverage run
    (no stored report), the three lines of a report without JavaScript
    entries, or one string with the analysis, with thresholds 50 KB and
    20 percent where the parameters give none. *)
Theorem suggestCodeSplits_read_only (params : SplitParams) (w : World) :
  suggestCodeSplits params w
  = (mkWorld (context w)
       (responseLines w
        ++ match getLastCoverageReport (context w) with
           | None => noCoverageDataLines
           | Some report =>
               match jsCoverage report with
               | [] => noJavaScriptLines
               | _ :: _ =>
                   [ join (String "010" "")
                       (codeSplitLines (jsCoverage report)
                          (default 50%Q (p_minBundleSizeKB params))
                          (default 20%Q (p_minUnusedPercent params))) ]
               end
           end)
       (providerCalls w),
     Normal tt).
Proof.
  unfold suggestCodeSplits, readContext, appendResponseLine, mbind, M_bind.
  cbv beta iota zeta.
  destruct (getLastCoverageReport (context w)) as [report|];
    [destruct (jsCoverage report) eqn:Hjs |];
    cbn [length Nat.eqb context responseLines providerCalls];
    unfold noCoverageDataLines, noJavaScriptLines;
    rewrite <- ?app_assoc; reflexivity.
Qed.

End SplitHandlerFacts.

(* ================================================================== *)
(** * Further facts: shortened names in the output *)
(* ================================================================== *)

Lemma length_substring (n m : nat) (s : string) :
  (n + m ≤ String.length s)%nat → String.length (substring n m s) = m.
Proof.
  revert n m. induction s as [|c s IH]; intros n m Hle; cbn [String.length] in Hle.
  - destruct n, m; simpl in *; lia.
  - destruct n as [|n]; cbn [substring].
    + destruct m as [|m]; [done |]. cbn [String.length]. rewrite IH; lia.
    + apply IH. lia.
Qed.

Lemma substring_split (k : nat) (s : string) :
  (k ≤ String.length s)%nat →
  s = substring 0 k s +:+ substring k (String.length s - k) s.
Proof.
  revert k. induction s as [|c s IH]; intros k Hk; cbn [String.length] in *.
  - by destruct k.
  - destruct k as [|k].
    + cbn [substring]. rewrite append_nil_l. cbn [Nat.sub]. f_equal.
      rewrite (IH 0%nat) at 1 by lia.
      destruct s; [done |]. cbn [substring]. rewrite append_nil_l.
      by rewrite Nat.sub_0_r.
    + cbn [substring Nat.sub]. rewrite append_cons. f_equal. apply IH. lia.
Qed.

Lemma sliceLast_length (n : nat) (s : string) :
  (n ≤ String.length s)%nat → String.length (sliceLast n s) = n.
Proof. intros Hle. unfold sliceLast. apply length_substring. lia. Qed.

Lemma sliceLast_suffix (n : nat) (s : string) :
  (n ≤ String.length s)%nat → ∃ cut, s = cut +:+ sliceLast n s.
Proof.
  intros Hle. exists (substring 0 (String.length s - n) s). unfold sliceLast.
  rewrite (substring_split (String.length s - n) s) at 1 by lia.
  do 2 f_equal. lia.
Qed.

Lemma hasSlash_cons (c : ascii) (s : string) :
  hasSlash (String c s) = Ascii.eqb c "/" || hasSlash s.
Proof.
  unfold hasSlash. cbn [includes]. f_equal.
  cbn [String.prefix]. rewrite prefix_nil.
  destruct (ascii_dec "/" c) as [<- | Hne]; [done |].
  symmetry. apply Ascii.eqb_neq. congruence.
Qed.

Lemma hasSlash_substring (n m : nat) (s : string) :
  hasSlash s = false → hasSlash (substring n m s) = false.
Proof.
  revert n m. induction s as [|c s IH]; intros n m.
  - by destruct n, m.
  - rewrite hasSlash_cons, orb_false_iff. intros [Hc Hs].
    destruct n as [|n]; cbn [substring]; [| by apply IH].
    destruct m as [|m]; [done |]. rewrite hasSlash_cons, Hc. by apply IH.
Qed.

Lemma lastSegment_spec (s : string) :
  hasSlash (lastSegment s) = false ∧ ∃ before, s = before +:+ lastSegment s.
Proof.
  induction s as [|c s [IH1 (before & IH2)]]; [split; [done | by exists ""] |].
  cbn [lastSegment]. fold (hasSlash s). destruct (hasSlash s) eqn:Hs.
  - split; [done |]. exists (String c before). rewrite append_cons. by f_equal.
  - destruct (Ascii.eqb c "/") eqn:Hc.
    + split; [done |]. by exists (String c "").
    + split; [by rewrite hasSlash_cons, Hc, Hs | by exists ""].
Qed.

Section ShortNames.
Context `{Host}.

(** X24: the module name that [generateLazyLoadAdvice] puts in bold is
    never empty, never longer than 40 characters and holds no slash: it
    is what follows the last slash of the URL, or "this module" when
    nothing follows it, cut to three dots and its last 37 characters when
    it is longer than 40. *)
Theorem generateLazyLoadAdvice_name (u : string) (unusedPercent : Q) :
  ∃ shortName rest,
    generateLazyLoadAdvice u unusedPercent = "**" +:+ shortName +:+ "** has " +:+ rest
    ∧ shortName ≠ ""
    ∧ (String.length shortName ≤ 40)%nat
    ∧ hasSlash shortName = false
    ∧ (lastSegment u ≠ "" → (String.length (lastSegment u) ≤ 40)%nat →
       shortName = lastSegment u ∧ ∃ before, u = before +:+ shortName).
Proof.
  unfold generateLazyLoadAdvice.
  destruct (lastSegment_spec u) as [Hslash [before Hu]].
  set (fileName := if String.eqb (lastSegment u) "" then "this module" else lastSegment u).
  assert (hasSlash fileName = false ∧ fileName ≠ "") as [Hfile Hne].
  { unfold fileName. destruct (String.eqb_spec (lastSegment u) ""); [done | done]. }
  eexists _, _. split; [reflexivity |].
  destruct (Nat.ltb_spec 40 (String.length fileName)) as [Hlong | Hshort].
  - split; [done |]. split.
    + rewrite append_cons, !append_cons, append_nil_l. cbn [String.length].
      rewrite sliceLast_length; lia.
    + split.
      * rewrite !append_cons, append_nil_l, !hasSlash_cons. cbn [Ascii.eqb orb].
        by apply hasSlash_substring.
      * intros Hseg Hlen. exfalso. unfold fileName in Hlong.
        destruct (String.eqb_spec (lastSegment u) ""); [done | lia].
  - split; [done |]. split; [done |]. split; [done |].
    intros Hseg Hlen. unfold fileName.
    destruct (String.eqb_spec (lastSegment u) ""); [done |]. split; [done | eauto].
Qed.

(** X25: the URL cell of a row of the coverage report is never longer
    than 50 characters: a URL of at most 50 characters is shown as it is,
    a longer one as three dots and its last 47 characters. *)
Theorem coverageRow_url (entry : CoverageReportEntry) :
  ∃ shortUrl rest,
    coverageRow entry = "| " +:+ shortUrl +:+ " | " +:+ rest
    ∧ (String.length shortUrl ≤ 50)%nat
    ∧ ((String.length (url entry) ≤ 50)%nat → shortUrl = url entry)
    ∧ ((50 < String.length (url entry))%nat →
       String.length shortUrl = 50%nat
       ∧ ∃ cut kept, url entry = cut +:+ kept ∧ shortUrl = "..." +:+ kept).
Proof.
  unfold coverageRow. eexists _, _. split; [reflexivity |].
  destruct (Nat.ltb_spec 50 (String.length (url entry))) as [Hlong | Hshort].
  - assert (String.length ("..." +:+ sliceLast 47 (url entry)) = 50%nat) as Hlen.
    { rewrite !append_cons, append_nil_l. cbn [String.length].
      rewrite sliceLast_length; lia. }
    split; [lia |]. split; [lia |]. intros _. split; [done |].
    destruct (sliceLast_suffix 47 (url entry)) as [cut Hcut]; [lia |].
    by exists cut, (sliceLast 47 (url entry)).
  - split; [done |]. split; [done | lia].
Qed.

End ShortNames.

Lemma generateLazyLoadAdvice_name_witness :
  ∃ rest,
    @generateLazyLoadAdvice sampleHost "https://example.com/static/app.js" 80
    = "**app.js** has " +:+ rest.
Proof.
  destruct (@generateLazyLoadAdvice_name sampleHost "https://example.com/static/app.js" 80)
    as (shortName & rest & Hadvice & _ & _ & _ & Hname).
  destruct Hname as [Hshort _]; [discriminate | vm_compute; lia |].
  exists rest. rewrite Hadvice, Hshort. reflexivity.
Defined.

Lemma coverageRow_url_witness :
  ∃ rest,
    @coverageRow sampleHost
      (mkCoverageReportEntry "https://example.com/script.js" 100 50 50 50 false)
    = "| https://example.com/script.js | " +:+ rest.
Proof.
  destruct (@coverageRow_url sampleHost
              (mkCoverageReportEntry "https://example.com/script.js" 100 50 50 50 false))
    as (shortUrl & rest & Hrow & _ & Hshort & _).
  exists rest. rewrite Hrow, Hshort; [reflexivity | vm_compute; lia].
Defined.
